(** * SeedGPT: memory context, edits, controller, cost and gateway

    A shallow embedding of the parts of the SeedGPT agent that its
    specification makes quantified statements about, and the theorems
    that settle those statements on the code.

    - [JS]      strings as sequences of UTF-16 code units, the few string
                built-ins the sources use;
    - [Memory]  src/agents/memory.ts  (store, getContext, idea life cycle,
                the regular-expression fallback of recall);
    - [Git]     tools/git.ts          (applyEdits);
    - [Loop]    src/loop.ts           (iterate, as a trace of external calls);
    - [Cost]    models/Generated.ts   (computeCost);
    - [Api]     src/llm/api.ts        (buildParams, stripThinkingSignatures).

    Further properties of the same code and of its neighbours:

    - [MemoryLife]  src/agents/memory.ts  (the life of a document, recallById,
                    getIdeas, summarizeMemory);
    - [GitMore]     tools/git.ts          (createBranch, more of applyEdits);
    - [Gateway]     src/llm/api.ts        (the system prompt, recordGenerated,
                    callApi);
    - [LoopMore]    src/loop.ts           (iterate: the workspace reset, the
                    fate of the pull request);
    - [Driver]      src/loop.ts           (run);
    - [Diff]        tools/git.ts          (getDiff, abbreviateDiff);
    - [Analyze]     analyze.ts            (computePhaseStats, analyzeIterations);
    - [RecallMore]  src/agents/memory.ts  (recall: the answer without a match). *)

From Stdlib Require Import ZArith QArith Qminmax Lia DecimalString FunInd Recdef.
From stdpp Require Import base list strings gmap sorting.

Local Open Scope Z_scope.

(** ** JavaScript strings *)

Module JS.

(** A JavaScript string is a sequence of UTF-16 code units; [length] is the
    number of code units, which is what [String.prototype.length] returns. *)
Abbreviation str := (list N).

(** An ASCII literal of the sources, as code units. *)
Definition lit (s : string) : str :=
  map (fun a => Ascii.N_of_ascii a) (String.list_ascii_of_string s).

(** The line feed, the space, and the em dash U+2014 of the idea lines. *)
Definition nl : str := [10%N].
Definition sp : str := [32%N].
Definition emdash : str := [8212%N].

(** [Array.prototype.join]. *)
Fixpoint join (sep : str) (parts : list str) : str :=
  match parts with
  | [] => []
  | [p] => p
  | p :: rest => p ++ sep ++ join sep rest
  end.

(** [String.prototype.slice(0, n)] for a non-negative [n]. *)
Definition slice0 (n : nat) (s : str) : str := take n s.

(** [String.prototype.replace(c, d)] with one-unit strings: the first
    occurrence of [c] is replaced. *)
Fixpoint replaceFirst (c d : N) (s : str) : str :=
  match s with
  | [] => []
  | x :: r => if N.eqb x c then d :: r else x :: replaceFirst c d r
  end.

(** [WhiteSpace] and [LineTerminator] code units. *)
Definition isWhiteSpace (c : N) : bool :=
  bool_decide (c ∈ [9; 10; 11; 12; 13; 32; 160; 5760; 8232; 8233; 8239; 8287;
                    12288; 65279]%N)
  || ((8192 <=? c) && (c <=? 8202))%N.

Fixpoint trimStart (s : str) : str :=
  match s with
  | c :: r => if isWhiteSpace c then trimStart r else s
  | [] => []
  end.

(** [String.prototype.trim]. *)
Definition trim (s : str) : str := reverse (trimStart (reverse (trimStart s))).

(** Decimal digits of a non-negative number, left-padded with zeros to
    [k] digits (the number is cut to its [k] low digits). *)
Fixpoint padDec (k : nat) (n : Z) (acc : str) : str :=
  match k with
  | O => acc
  | S k' => padDec k' (n / 10) (Z.to_N (48 + n mod 10) :: acc)
  end.

Definition hexDigit (d : N) : N :=
  if (d <? 10)%N then (48 + d)%N else (87 + d)%N.

Fixpoint padHex (k : nat) (n : N) (acc : str) : str :=
  match k with
  | O => acc
  | S k' => padHex k' (n / 16)%N (hexDigit (n mod 16)%N :: acc)
  end.

(** [Date.prototype.toISOString] of a time value in milliseconds since the
    epoch (proleptic Gregorian calendar, UTC).  Years outside 0..9999 are
    printed in the expanded form with a sign and six digits. *)
Definition toISOString (ms : Z) : str :=
  let days := ms / 86400000 in
  let rest := ms mod 86400000 in
  let z := days + 719468 in
  let era := z / 146097 in
  let doe := z - era * 146097 in
  let yoe := (doe - doe / 1460 + doe / 36524 - doe / 146096) / 365 in
  let doy := doe - (365 * yoe + yoe / 4 - yoe / 100) in
  let mp := (5 * doy + 2) / 153 in
  let d := doy - (153 * mp + 2) / 5 + 1 in
  let m := if mp <? 10 then mp + 3 else mp - 9 in
  let y := yoe + era * 400 + (if m <=? 2 then 1 else 0) in
  let year :=
    if (0 <=? y) && (y <=? 9999) then padDec 4 y []
    else (if y <? 0 then lit "-" else lit "+") ++ padDec 6 (Z.abs y) [] in
  year ++ lit "-" ++ padDec 2 m [] ++ lit "-" ++ padDec 2 d [] ++ lit "T"
    ++ padDec 2 (rest / 3600000) [] ++ lit ":"
    ++ padDec 2 (rest / 60000 mod 60) [] ++ lit ":"
    ++ padDec 2 (rest / 1000 mod 60) [] ++ lit "."
    ++ padDec 3 (rest mod 1000) [] ++ lit "Z".

(** [String.prototype.toWellFormed]: every surrogate that is not part of
    a pair becomes U+FFFD.  It is what is left of a string that went
    through UTF-8, which has no encoding for such a surrogate. *)
Definition isHighSurrogate (c : N) : bool := ((55296 <=? c) && (c <=? 56319))%N.
Definition isLowSurrogate (c : N) : bool := ((56320 <=? c) && (c <=? 57343))%N.

Fixpoint toWellFormed (s : str) : str :=
  match s with
  | [] => []
  | c :: r =>
      if isHighSurrogate c then
        match r with
        | d :: r' =>
            if isLowSurrogate d then c :: d :: toWellFormed r'
            else 65533%N :: toWellFormed r
        | [] => [65533%N]
        end
      else if isLowSurrogate c then 65533%N :: toWellFormed r
      else c :: toWellFormed r
  end.

Lemma length_join sep parts :
  parts <> [] ->
  (length (join sep parts) + length sep =
   length (concat parts) + length sep * length parts)%nat.
Proof.
  induction parts as [|p rest IH]; [done|intros _].
  destruct rest as [|q rest'].
  - simpl. rewrite app_nil_r. lia.
  - specialize (IH ltac:(done)).
    change (join sep (p :: q :: rest')) with (p ++ sep ++ join sep (q :: rest')).
    change (concat (p :: q :: rest')) with (p ++ concat (q :: rest')).
    rewrite !length_app.
    change (length (p :: q :: rest')) with (S (length (q :: rest'))).
    rewrite Nat.mul_succ_r. lia.
Qed.

End JS.

Export JS.

Example toISOString_epoch :
  toISOString 0 = lit "1970-01-01T00:00:00.000Z".
Proof. reflexivity. Qed.

Example toISOString_2024 :
  toISOString 1709210096789 = lit "2024-02-29T12:34:56.789Z".
Proof. vm_compute. reflexivity. Qed.

(** ** The memory service (src/agents/memory.ts) *)

Module Memory.

Inductive IdeaStatus := pending | attempted | completed.

(** The [status] argument of [updateIdeaStatus]: ['attempted' | 'completed']. *)
Inductive StatusUpdate := toAttempted | toCompleted.

Definition statusOf (u : StatusUpdate) : IdeaStatus :=
  match u with toAttempted => attempted | toCompleted => completed end.

#[export] Instance IdeaStatus_eq_dec : EqDecision IdeaStatus.
Proof. solve_decision. Defined.

(** A document of the Memory collection.  [pinned] defaults to [false];
    [ideaStatus] and [ideaContext] are absent unless given. *)
Record MemoryItem := {
  content : str;
  summary : str;
  pinned : bool;
  ideaStatus : option IdeaStatus;
  ideaContext : option str;
  createdAt : Z;
  updatedAt : Z
}.

(** The collection.  A document's [_id] is its position: [create] appends,
    nothing is ever deleted, and [findById]/[save] address by [_id]. *)
Abbreviation Store := (list MemoryItem).
Abbreviation Doc := (nat * MemoryItem)%type.

(** An [ObjectId] prints as 24 lower-case hexadecimal digits. *)
Definition idString (id : nat) : str := padHex 24 (N.of_nat id) [].

Definition dq : str := [34%N].

Definition create (m : MemoryItem) (db : Store) : nat * Store :=
  (length db, db ++ [m]).

Definition findById (id : nat) (db : Store) : option MemoryItem := db !! id.

Definition save (id : nat) (m : MemoryItem) (db : Store) : Store := <[id := m]> db.

(** A block of the model's response: its [type], and its [text] if it
    has one. *)
Record ResponseBlock := { blockType : str; blockText : option str }.

(** [summarizeMemory], given the content of the response to the memory
    call: the text of the first text block, or else the first 200 code
    units of the content, trimmed. *)
Definition summarizeMemory (content : str) (response : list ResponseBlock) : str :=
  let text :=
    default (slice0 200 content)
      (List.find (fun c => bool_decide (blockType c = lit "text")) response
         ≫= blockText) in
  trim text.

(** A response made of one text block. *)
Definition says (s : string) : list ResponseBlock :=
  [ {| blockType := lit "text"; blockText := Some (lit s) |} ].

(** In the operations below [response] is the content of the model's
    response to the memory call and [now] is the clock at the write. *)
Definition storePastMemory (content : str) (response : list ResponseBlock)
    (now : Z) (db : Store) : Store :=
  let summary := summarizeMemory content response in
  (create {| content := content; summary := summary; pinned := false;
             ideaStatus := None; ideaContext := None;
             createdAt := now; updatedAt := now |} db).2.

Definition storePinnedMemory (content : str) (response : list ResponseBlock)
    (now : Z) (db : Store) : str * Store :=
  let summary := summarizeMemory content response in
  let '(id, db') :=
    create {| content := content; summary := summary; pinned := true;
              ideaStatus := None; ideaContext := None;
              createdAt := now; updatedAt := now |} db in
  (lit "Note saved (" ++ idString id ++ lit "): " ++ summary, db').

Definition unpinMemory (id : nat) (now : Z) (db : Store) : str * Store :=
  match findById id db with
  | None => (lit "No note found with id " ++ dq ++ idString id ++ dq ++ lit ".", db)
  | Some memory =>
      if negb (pinned memory) then (lit "That memory is not a note.", db)
      else
        let memory' :=
          {| content := content memory; summary := summary memory;
             pinned := false;
             ideaStatus := ideaStatus memory; ideaContext := ideaContext memory;
             createdAt := createdAt memory; updatedAt := now |} in
        (lit "Note dismissed: " ++ summary memory, save id memory' db)
  end.

Definition storeIdea (description context : str) (response : list ResponseBlock)
    (now : Z) (db : Store) : str * Store :=
  let summary := summarizeMemory description response in
  let '(id, db') :=
    create {| content := description; summary := summary; pinned := true;
              ideaStatus := Some pending; ideaContext := Some context;
              createdAt := now; updatedAt := now |} db in
  (lit "Idea saved (" ++ idString id ++ lit "): " ++ summary, db').

Definition statusName (u : StatusUpdate) : str :=
  match u with toAttempted => lit "attempted" | toCompleted => lit "completed" end.

Definition updateIdeaStatus (id : nat) (status : StatusUpdate) (now : Z) (db : Store)
  : str * Store :=
  match findById id db with
  | None => (lit "No memory found with id " ++ dq ++ idString id ++ dq ++ lit ".", db)
  | Some memory =>
      match ideaStatus memory with
      | None => (lit "Memory " ++ dq ++ idString id ++ dq ++ lit " is not an idea.", db)
      | Some _ =>
          let memory' :=
            {| content := content memory; summary := summary memory;
               pinned := match status with
                         | toCompleted => false
                         | toAttempted => pinned memory
                         end;
               ideaStatus := Some (statusOf status);
               ideaContext := ideaContext memory;
               createdAt := createdAt memory; updatedAt := now |} in
          (lit "Idea marked as " ++ statusName status ++ lit ": " ++ summary memory,
           save id memory' db)
      end
  end.

(** [Math.ceil(text.length / 4)]. *)
Definition estimateTokens (text : str) : Z := (Z.of_nat (length text) + 3) / 4.

(** *** Queries *)

Definition docs (db : Store) : list Doc := imap (fun i m => (i, m)) db.

(** [.sort({ createdAt: -1 })]: newest first. *)
Definition newerFirst (a b : Doc) : Prop := createdAt b.2 <= createdAt a.2.

#[export] Instance newerFirst_dec a b : Decision (newerFirst a b).
Proof. unfold newerFirst. apply _. Defined.

Definition sortNewestFirst (l : list Doc) : list Doc := merge_sort newerFirst l.

(** [find({ pinned: true }).sort({ createdAt: -1 })] *)
Definition pinnedMemories (db : Store) : list Doc :=
  sortNewestFirst (filter (fun d : Doc => pinned d.2 = true) (docs db)).

(** [pinnedMemories.filter(m => !m.ideaStatus)] *)
Definition notes (db : Store) : list Doc :=
  filter (fun d : Doc => ideaStatus d.2 = None) (pinnedMemories db).

(** [pinnedMemories.filter(m => m.ideaStatus)] *)
Definition ideas (db : Store) : list Doc :=
  filter (fun d : Doc => ideaStatus d.2 <> None) (pinnedMemories db).

(** [find({ pinned: false, ideaStatus: { $exists: false } }).sort({ createdAt: -1 })] *)
Definition recent (db : Store) : list Doc :=
  sortNewestFirst
    (filter (fun d : Doc => pinned d.2 = false /\ ideaStatus d.2 = None) (docs db)).

(** *** Rendering *)

Definition noteLine (m : Doc) : str :=
  lit "- (" ++ idString m.1 ++ lit ") " ++ summary m.2.

Definition ideaLine (m : Doc) : str :=
  let statusBadge :=
    if bool_decide (ideaStatus m.2 = Some pending)
    then lit "[PENDING]" else lit "[ATTEMPTED]" in
  let context :=
    match ideaContext m.2 with
    | Some (c :: cs) => sp ++ emdash ++ sp ++ (c :: cs)
    | _ => []
    end in
  lit "- " ++ statusBadge ++ lit " (" ++ idString m.1 ++ lit ") "
    ++ summary m.2 ++ context.

Definition isoDate (t : Z) : str :=
  replaceFirst 84 32 (slice0 19 (toISOString t)).

Definition pastLine (m : Doc) : str :=
  lit "- (" ++ idString m.1 ++ lit ") [" ++ isoDate (createdAt m.2) ++ lit "] "
    ++ summary m.2.

Definition notesHeader : str := lit "## Notes to self" ++ nl.
Definition ideasHeader : str := lit "## Ideas" ++ nl.
Definition pastHeader : str := lit "## Past" ++ nl.

Definition notesSection (db : Store) : str :=
  notesHeader ++ join nl (map noteLine (notes db)).

Definition ideasSection (db : Store) : str :=
  ideasHeader ++ join nl (map ideaLine (ideas db)).

(** *** getContext *)

(** The two locals the function threads through its three steps. *)
Record Acc := { tokensUsed : Z; sections : list str }.

Definition addNotes (db : Store) (a : Acc) : Acc :=
  if bool_decide (0 < length (notes db))%nat then
    {| tokensUsed := tokensUsed a + estimateTokens (notesSection db);
       sections := sections a ++ [notesSection db] |}
  else a.

Definition addIdeas (budget : Z) (db : Store) (a : Acc) : Acc :=
  if bool_decide (0 < length (ideas db))%nat then
    let ideasTokens := estimateTokens (ideasSection db) in
    if bool_decide (tokensUsed a + ideasTokens <= budget) then
      {| tokensUsed := tokensUsed a + ideasTokens;
         sections := sections a ++ [ideasSection db] |}
    else a
  else a.

(** The [for (const m of recent)] loop with its [break]; the result is
    the final [pastTokens] and [lines]. *)
Fixpoint pastLoop (budget used pastTokens : Z) (lines : list str) (rs : list Doc)
  : Z * list str :=
  match rs with
  | [] => (pastTokens, lines)
  | m :: rest =>
      let line := pastLine m in
      let lineTokens := estimateTokens (line ++ nl) in
      if bool_decide (used + pastTokens + lineTokens > budget)
      then (pastTokens, lines)
      else pastLoop budget used (pastTokens + lineTokens) (lines ++ [line]) rest
  end.

Definition pastLines (budget : Z) (db : Store) (a : Acc) : list str :=
  (pastLoop budget (tokensUsed a) (estimateTokens pastHeader) [] (recent db)).2.

Definition addPast (budget : Z) (db : Store) (a : Acc) : Acc :=
  let remaining := budget - tokensUsed a in
  if bool_decide (remaining > 0) then
    let lines := pastLines budget db a in
    if bool_decide (0 < length lines)%nat then
      {| tokensUsed := tokensUsed a;
         sections := sections a ++ [pastHeader ++ join nl lines] |}
    else a
  else a.

Definition firstRun : str := lit "No memories yet. This is your first run.".

Definition afterPinned (budget : Z) (db : Store) : Acc :=
  addIdeas budget db (addNotes db {| tokensUsed := 0; sections := [] |}).

Definition getContext (budget : Z) (db : Store) : str :=
  let a := addPast budget db (afterPinned budget db) in
  if bool_decide (length (sections a) = 0%nat) then firstRun
  else join (nl ++ nl) (sections a).

(** *** What each section shows *)

(** The documents whose lines the loop keeps. *)
Fixpoint pastKept (budget used pastTokens : Z) (rs : list Doc) : list Doc :=
  match rs with
  | [] => []
  | m :: rest =>
      let lineTokens := estimateTokens (pastLine m ++ nl) in
      if bool_decide (used + pastTokens + lineTokens > budget) then []
      else m :: pastKept budget used (pastTokens + lineTokens) rest
  end.

(** The documents listed under [## Ideas] and under [## Past] in
    [getContext budget db]. *)
Definition ideasShown (budget : Z) (db : Store) : list Doc :=
  let a := addNotes db {| tokensUsed := 0; sections := [] |} in
  if bool_decide (tokensUsed a + estimateTokens (ideasSection db) <= budget)
  then ideas db else [].

Definition pastShown (budget : Z) (db : Store) : list Doc :=
  let a := afterPinned budget db in
  if bool_decide (budget - tokensUsed a > 0)
  then pastKept budget (tokensUsed a) (estimateTokens pastHeader) (recent db)
  else [].

(** The bound of the context-budget property is stated with the longer of
    the two pinned sections as they are rendered (nothing for an absent
    one). *)
Definition longestPinnedBlock (db : Store) : Z :=
  Z.max (if bool_decide (0 < length (notes db))%nat
         then estimateTokens (notesSection db) else 0)
        (if bool_decide (0 < length (ideas db))%nat
         then estimateTokens (ideasSection db) else 0).

(** *** Facts about the estimate and the loop *)

#[global] Arguments lit : simpl never.
#[global] Arguments idString : simpl never.
#[global] Arguments estimateTokens : simpl never.
#[global] Arguments noteLine : simpl never.
#[global] Arguments ideaLine : simpl never.
#[global] Arguments pastLine : simpl never.
#[global] Arguments pastHeader : simpl never.
#[global] Arguments notesSection : simpl never.
#[global] Arguments ideasSection : simpl never.
#[global] Arguments firstRun : simpl never.

Lemma estimateTokens_bounds (s : str) :
  4 * estimateTokens s - 3 <= Z.of_nat (length s) <= 4 * estimateTokens s.
Proof.
  unfold estimateTokens.
  pose proof (Z.div_mod (Z.of_nat (length s) + 3) 4 ltac:(lia)) as E.
  pose proof (Z.mod_pos_bound (Z.of_nat (length s) + 3) 4 ltac:(lia)) as B.
  lia.
Qed.

Lemma estimateTokens_nonneg (s : str) : 0 <= estimateTokens s.
Proof. pose proof (estimateTokens_bounds s). lia. Qed.

Lemma estimateTokens_pos (s : str) : s <> [] -> 1 <= estimateTokens s.
Proof.
  intros Hs. pose proof (estimateTokens_bounds s).
  destruct s; [done|]. simpl length in *. lia.
Qed.

Lemma pastLoop_inv budget used rs : forall pT lines,
  Z.of_nat (length pastHeader + length (concat lines) + length lines) <= 4 * pT ->
  (lines <> [] -> used + pT <= budget) ->
  Z.of_nat (length pastHeader
            + length (concat (pastLoop budget used pT lines rs).2)
            + length (pastLoop budget used pT lines rs).2)
    <= 4 * (pastLoop budget used pT lines rs).1 /\
  ((pastLoop budget used pT lines rs).2 <> [] ->
   used + (pastLoop budget used pT lines rs).1 <= budget).
Proof.
  induction rs as [|m rest IH]; intros pT lines Hlen Hbud; cbn [pastLoop].
  - done.
  - case_bool_decide as Hbreak; [done|].
    apply IH.
    + pose proof (estimateTokens_bounds (pastLine m ++ nl)) as Hb.
      rewrite length_app in Hb. change (length nl) with 1%nat in Hb.
      rewrite concat_app, !length_app.
      change (concat [pastLine m]) with (pastLine m ++ []).
      rewrite app_nil_r. change (length [pastLine m]) with 1%nat. lia.
    + intros _. lia.
Qed.

(** The rendered [## Past] section costs at most the [pastTokens] the
    loop counted, and that fits in what the pinned sections left. *)
Lemma pastSection_fits budget used rs :
  let r := pastLoop budget used (estimateTokens pastHeader) [] rs in
  r.2 <> [] ->
  Z.of_nat (length (pastHeader ++ join nl r.2)) + 1 <= 4 * r.1 /\
  used + r.1 <= budget.
Proof.
  intros r Hne.
  destruct (pastLoop_inv budget used rs (estimateTokens pastHeader) []) as [H1 H2].
  - vm_compute. discriminate.
  - done.
  - fold r in H1, H2. split; [|by apply H2].
    pose proof (length_join nl r.2 Hne) as Hj.
    rewrite length_app. change (length nl) with 1%nat in Hj. lia.
Qed.

Lemma pastLoop_lines budget used rs : forall pT lines,
  (pastLoop budget used pT lines rs).2
  = lines ++ map pastLine (pastKept budget used pT rs).
Proof.
  induction rs as [|m rest IH]; intros pT lines; cbn [pastLoop pastKept].
  - by rewrite app_nil_r.
  - case_bool_decide; cbn [snd map]; [by rewrite app_nil_r|].
    rewrite IH. by rewrite <- app_assoc.
Qed.

Lemma pastKept_sublist budget used rs : forall pT d,
  d ∈ pastKept budget used pT rs -> d ∈ rs.
Proof.
  induction rs as [|m rest IH]; intros pT d; cbn [pastKept]; [done|].
  case_bool_decide; [by intros ?%elem_of_nil|].
  rewrite !elem_of_cons. intros [->|H']; [by left|right; eauto].
Qed.

Lemma length_pos_nonempty {A} (l : list A) : (0 < length l)%nat <-> l <> [].
Proof. destruct l; simpl; split; intros; try done; lia. Qed.

Lemma notesSection_nonempty db : notesSection db <> [].
Proof. vm_compute. discriminate. Qed.

Lemma ideasSection_nonempty db : ideasSection db <> [].
Proof. vm_compute. discriminate. Qed.

Lemma afterPinned_cases budget db :
  let eN := estimateTokens (notesSection db) in
  let eI := estimateTokens (ideasSection db) in
  let a := afterPinned budget db in
  (notes db = [] /\ a = {| tokensUsed := 0; sections := [] |}) \/
  (notes db <> [] /\ a = {| tokensUsed := eN; sections := [notesSection db] |}) \/
  (notes db <> [] /\ ideas db <> [] /\ eN + eI <= budget /\
   a = {| tokensUsed := eN + eI; sections := [notesSection db; ideasSection db] |}) \/
  (notes db = [] /\ ideas db <> [] /\ eI <= budget /\
   a = {| tokensUsed := eI; sections := [ideasSection db] |}).
Proof.
  intros eN eI a. subst a. unfold afterPinned, addIdeas, addNotes.
  repeat case_bool_decide; cbn [tokensUsed sections app] in *;
    rewrite ?length_pos_nonempty in *; rewrite ?Z.add_0_l in *;
    repeat match goal with H : ~ (_ <> []) |- _ => apply dec_stable in H end;
    subst eN eI; naive_solver.
Qed.

Lemma addPast_cases budget db a :
  addPast budget db a = a \/
  (tokensUsed a < budget /\ pastLines budget db a <> [] /\
   addPast budget db a =
     {| tokensUsed := tokensUsed a;
        sections := sections a ++ [pastHeader ++ join nl (pastLines budget db a)] |}).
Proof.
  unfold addPast. repeat case_bool_decide; rewrite ?length_pos_nonempty in *; auto.
  right. split; [lia|]. auto.
Qed.

Lemma pastSection_bound budget db a :
  pastLines budget db a <> [] ->
  Z.of_nat (length (pastHeader ++ join nl (pastLines budget db a))) + 1
    <= 4 * (budget - tokensUsed a).
Proof.
  intros Hne. unfold pastLines in *.
  destruct (pastSection_fits budget (tokensUsed a) (recent db) Hne). lia.
Qed.

Lemma longest_ge_notes db :
  notes db <> [] -> estimateTokens (notesSection db) <= longestPinnedBlock db.
Proof.
  intros H. unfold longestPinnedBlock.
  rewrite (bool_decide_eq_true_2 (0 < length (notes db))%nat)
    by by apply length_pos_nonempty.
  lia.
Qed.

Lemma longest_ge_ideas db :
  ideas db <> [] -> estimateTokens (ideasSection db) <= longestPinnedBlock db.
Proof.
  intros H. unfold longestPinnedBlock.
  rewrite (bool_decide_eq_true_2 (0 < length (ideas db))%nat)
    by by apply length_pos_nonempty.
  lia.
Qed.

Lemma longest_nonneg db : 0 <= longestPinnedBlock db.
Proof.
  unfold longestPinnedBlock.
  pose proof (estimateTokens_nonneg (notesSection db)).
  pose proof (estimateTokens_nonneg (ideasSection db)).
  repeat case_bool_decide; lia.
Qed.

(** C1 (as amended).  For every store and every non-negative budget,
    [getContext] either returns the fixed first-run message (no section was
    produced) or its estimate is at most the budget plus the estimate of
    the longer pinned section; the notes section, when there are notes,
    is the head of the result in full; and the rendered [## Past] section
    never costs more than what the budget has left after the pinned
    sections that were included. *)
Theorem getContext_within_budget (budget : Z) (db : Store) :
  0 <= budget ->
  (getContext budget db = firstRun \/
   estimateTokens (getContext budget db) <= budget + longestPinnedBlock db)
  /\ (notes db <> [] -> exists rest, getContext budget db = notesSection db ++ rest)
  /\ (pastLines budget db (afterPinned budget db) <> [] ->
      estimateTokens (pastHeader ++ join nl (pastLines budget db (afterPinned budget db)))
      <= budget - tokensUsed (afterPinned budget db)).
Proof.
  intros Hb.
  pose proof (estimateTokens_bounds (notesSection db)) as HN.
  pose proof (estimateTokens_bounds (ideasSection db)) as HI.
  pose proof (estimateTokens_pos _ (notesSection_nonempty db)) as HN1.
  pose proof (estimateTokens_pos _ (ideasSection_nonempty db)) as HI1.
  pose proof (longest_ge_notes db) as HLN.
  pose proof (longest_ge_ideas db) as HLI.
  pose proof (longest_nonneg db) as HL0.
  pose proof (pastSection_bound budget db (afterPinned budget db)) as HP.
  pose proof (estimateTokens_bounds
    (pastHeader ++ join nl (pastLines budget db (afterPinned budget db)))) as HPe.
  unfold getContext.
  destruct (addPast_cases budget db (afterPinned budget db)) as [->|(Hlt & Hne & ->)].
  all: try specialize (HP Hne).
  all: remember (pastHeader ++ join nl (pastLines budget db (afterPinned budget db)))
         as P eqn:EP; clear EP.
  all: destruct (afterPinned_cases budget db)
         as [(En & Ha)|[(En & Ha)|[(En & Ei & Hf & Ha)|(En & Ei & Hf & Ha)]]];
       rewrite Ha in *; clear Ha.
  all: cbn [tokensUsed sections app length join] in *.
  all: split; [|split].
  all: try (intros Hne'; try specialize (HP Hne'); lia).
  all: try (intros; (case_bool_decide; [done|]); eexists; reflexivity).
  all: try (intros; (case_bool_decide; [done|]); exists []; by rewrite app_nil_r).
  all: case_bool_decide; try done.
  all: try (left; reflexivity).
  all: right.
  all: match goal with |- estimateTokens ?s <= _ =>
         pose proof (estimateTokens_bounds s) as Ho;
         rewrite ?length_app in Ho; change (length nl) with 1%nat in Ho end.
  all: try specialize (HLN ltac:(done)); try specialize (HLI ltac:(done)).
  all: lia.
Qed.

(** A store with one note and one past memory. *)
Definition sampleStore : Store :=
  (storePinnedMemory (lit "Keep PRs small") (says "small PRs") 2000
     (storePastMemory (lit "Merged PR #1") (says "merged #1") 1000 [])).2.

Lemma getContext_within_budget_witness :
  (getContext 100 sampleStore = firstRun \/
   estimateTokens (getContext 100 sampleStore)
     <= 100 + longestPinnedBlock sampleStore)
  /\ (notes sampleStore <> [] ->
      exists rest, getContext 100 sampleStore = notesSection sampleStore ++ rest)
  /\ (pastLines 100 sampleStore (afterPinned 100 sampleStore) <> [] ->
      estimateTokens
        (pastHeader ++ join nl (pastLines 100 sampleStore (afterPinned 100 sampleStore)))
      <= 100 - tokensUsed (afterPinned 100 sampleStore)).
Proof. apply (getContext_within_budget 100 sampleStore). lia. Defined.

(** C1 as stated fails on the empty store with budget 0: nothing is
    pinned, no section is produced, and the first-run message that is
    returned has 40 code units, 10 estimated tokens. *)
Lemma getContext_budget_counterexample :
  getContext 0 [] = firstRun /\
  longestPinnedBlock [] = 0 /\
  estimateTokens (getContext 0 []) = 10 /\
  ~ (estimateTokens (getContext 0 []) <= 0 + longestPinnedBlock []).
Proof.
  repeat split; try reflexivity.
  intros H. vm_compute in H. by apply H.
Qed.

Lemma pastLines_shown budget db :
  pastLines budget db (afterPinned budget db)
  = map pastLine
      (pastKept budget (tokensUsed (afterPinned budget db))
         (estimateTokens pastHeader) (recent db)).
Proof. unfold pastLines. by rewrite pastLoop_lines. Qed.

(** The sections of the result are rendered from [notes], [ideasShown]
    and [pastShown], in this order, an empty list giving no section. *)
Lemma getContext_sections budget db :
  let section header line (ds : list Doc) :=
    match ds with [] => [] | _ => [header ++ join nl (map line ds)] end in
  sections (addPast budget db (afterPinned budget db))
  = section notesHeader noteLine (notes db)
    ++ section ideasHeader ideaLine (ideasShown budget db)
    ++ section pastHeader pastLine (pastShown budget db).
Proof.
  intros section.
  assert (Hsec : forall h l ds, ds <> [] -> section h l ds = [h ++ join nl (map l ds)]).
  { intros h l [|d ds] Hne; [done|reflexivity]. }
  unfold addPast. rewrite pastLines_shown. unfold pastShown.
  set (kept := pastKept _ _ _ _).
  assert (Hpast : (if bool_decide (budget - tokensUsed (afterPinned budget db) > 0)
           then if bool_decide (0 < length (map pastLine kept))%nat
                then [pastHeader ++ join nl (map pastLine kept)] else []
           else [])
          = section pastHeader pastLine
              (if bool_decide (budget - tokensUsed (afterPinned budget db) > 0)
               then kept else [])).
  { repeat case_bool_decide; try done; rewrite length_map in *.
    - rewrite Hsec; [done|]. by apply length_pos_nonempty.
    - destruct kept; [done|simpl in *; lia]. }
  rewrite <- Hpast. clear Hpast. clearbody kept.
  unfold ideasShown, afterPinned, addIdeas, addNotes.
  repeat case_bool_decide; cbn [tokensUsed sections app] in *;
    rewrite ?length_pos_nonempty in *;
    repeat match goal with H : ~ (_ <> []) |- _ => apply dec_stable in H end;
    repeat match goal with H : _ = [] |- _ => rewrite !H in * end;
    try done; try lia;
    unfold notesSection, ideasSection;
    rewrite ?(Hsec _ _ (notes db)) by done;
    rewrite ?(Hsec _ _ (ideas db)) by done; try done.
Qed.

Lemma docs_lookup db d : d ∈ docs db <-> db !! d.1 = Some d.2.
Proof.
  unfold docs. rewrite elem_of_lookup_imap. split.
  - intros (i & m & -> & H). done.
  - intros H. exists d.1, d.2. by destruct d.
Qed.

Lemma sortNewestFirst_elem d l : d ∈ sortNewestFirst l <-> d ∈ l.
Proof. unfold sortNewestFirst. by rewrite merge_sort_Permutation. Qed.

Lemma ideas_elem db d :
  d ∈ ideas db <-> db !! d.1 = Some d.2 /\ pinned d.2 = true /\ ideaStatus d.2 <> None.
Proof.
  unfold ideas, pinnedMemories.
  rewrite list_elem_of_filter, sortNewestFirst_elem, list_elem_of_filter, docs_lookup.
  tauto.
Qed.


Lemma recent_elem db d :
  d ∈ recent db <-> db !! d.1 = Some d.2 /\ pinned d.2 = false /\ ideaStatus d.2 = None.
Proof.
  unfold recent.
  rewrite sortNewestFirst_elem, list_elem_of_filter, docs_lookup.
  tauto.
Qed.

Lemma ideasShown_elem budget db d : d ∈ ideasShown budget db -> d ∈ ideas db.
Proof. unfold ideasShown. case_bool_decide; [done|by intros ?%elem_of_nil]. Qed.

Lemma pastShown_elem budget db d : d ∈ pastShown budget db -> d ∈ recent db.
Proof.
  unfold pastShown. case_bool_decide; [|by intros ?%elem_of_nil].
  apply pastKept_sublist.
Qed.

(** C2 (as amended).  Once [updateIdeaStatus id "completed"] has been
    applied to an idea, the item is still stored, unpinned and with status
    [completed]; it is listed neither under [## Ideas] nor under [## Past]
    of any later [getContext], whatever the budget: the [## Past] query
    only takes documents without an [ideaStatus]. *)
Theorem completed_idea_leaves_context (budget : Z) (db : Store) (id : nat)
    (m : MemoryItem) (now : Z) :
  findById id db = Some m ->
  ideaStatus m <> None ->
  let db' := (updateIdeaStatus id toCompleted now db).2 in
  (exists m', findById id db' = Some m' /\ content m' = content m /\
              pinned m' = false /\ ideaStatus m' = Some completed) /\
  (forall d, d ∈ ideasShown budget db' -> d.1 <> id) /\
  (forall d, d ∈ pastShown budget db' -> d.1 <> id).
Proof.
  intros Hfind Hidea db'. subst db'. unfold updateIdeaStatus.
  rewrite Hfind. destruct (ideaStatus m) as [s|] eqn:Es; [|done].
  cbn [snd]. unfold save, findById in *.
  assert (Hlt : (id < length db)%nat) by by eapply lookup_lt_Some.
  split.
  - eexists. rewrite list_lookup_insert_eq by done. done.
  - split; intros d Hd Heq.
    + apply ideasShown_elem, ideas_elem in Hd. destruct Hd as (Hl & Hp & _).
      rewrite Heq, list_lookup_insert_eq in Hl by done.
      injection Hl as Hl. by rewrite <- Hl in Hp.
    + apply pastShown_elem, recent_elem in Hd. destruct Hd as (Hl & _ & Hs).
      rewrite Heq, list_lookup_insert_eq in Hl by done.
      injection Hl as Hl. by rewrite <- Hl in Hs.
Qed.


(** A past memory, then an idea that is stored and completed. *)
Definition completedIdeaStore : Store :=
  (updateIdeaStatus 1 toCompleted 3000
     (storeIdea (lit "Add retry logic") (lit "fewer failures") (says "retry") 2000
        (storePastMemory (lit "Merged PR #1") (says "merged #1") 1000 [])).2).2.

Lemma completed_idea_leaves_context_witness :
  let db := (storeIdea (lit "Add retry logic") (lit "fewer failures") (says "retry") 2000
               (storePastMemory (lit "Merged PR #1") (says "merged #1") 1000 [])).2 in
  let db' := (updateIdeaStatus 1 toCompleted 3000 db).2 in
  (exists m', findById 1 db' = Some m' /\ content m' = lit "Add retry logic" /\
              pinned m' = false /\ ideaStatus m' = Some completed) /\
  (forall d, d ∈ ideasShown 10000 db' -> d.1 <> 1%nat) /\
  (forall d, d ∈ pastShown 10000 db' -> d.1 <> 1%nat).
Proof.
  intros db.
  apply (completed_idea_leaves_context 10000 db 1
           {| content := lit "Add retry logic"; summary := lit "retry";
              pinned := true; ideaStatus := Some pending;
              ideaContext := Some (lit "fewer failures");
              createdAt := 2000; updatedAt := 2000 |} 3000).
  - reflexivity.
  - discriminate.
Defined.

(** C2 as stated fails: with a budget of 10000 the context of
    [completedIdeaStore] has a [## Past] section with room to spare, and
    the completed idea (id 1) is not in it. *)
Lemma completed_idea_counterexample :
  getContext 10000 completedIdeaStore
    = lit "## Past" ++ nl
      ++ lit "- (000000000000000000000000) [1970-01-01 00:00:01] merged #1"
  /\ ~ (exists d, d ∈ pastShown 10000 completedIdeaStore /\ d.1 = 1%nat).
Proof.
  split; [vm_compute; reflexivity|].
  intros ([i m] & Hd & Hid). cbn [fst] in Hid. subst i.
  apply pastShown_elem, recent_elem in Hd as (Hl & _ & Hs).
  cbn [fst snd] in Hl, Hs. vm_compute in Hl. injection Hl as Hl.
  subst m. discriminate.
Qed.

(** *** Histories of the store *)

Inductive Op :=
| StorePast (content : str) (response : list ResponseBlock) (now : Z)
| StorePinned (content : str) (response : list ResponseBlock) (now : Z)
| StoreIdea (description context : str) (response : list ResponseBlock) (now : Z)
| Unpin (id : nat) (now : Z)
| UpdateIdeaStatus (id : nat) (status : StatusUpdate) (now : Z).

Definition step (db : Store) (op : Op) : Store :=
  match op with
  | StorePast c s now => storePastMemory c s now db
  | StorePinned c s now => (storePinnedMemory c s now db).2
  | StoreIdea d c s now => (storeIdea d c s now db).2
  | Unpin id now => (unpinMemory id now db).2
  | UpdateIdeaStatus id st now => (updateIdeaStatus id st now db).2
  end.

(** The store after a history, from the empty collection. *)
Definition run (ops : list Op) : Store := foldl step [] ops.

(** The item [id] was never [completed] along the history. *)
Definition neverCompleted (ops : list Op) (id : nat) : Prop :=
  forall k m, run (take k ops) !! id = Some m -> ideaStatus m <> Some completed.

(** [unpinMemory] was never called on [id]. *)
Definition neverDismissed (ops : list Op) (id : nat) : Prop :=
  forall now, Unpin id now ∉ ops.

Definition isActiveIdea (m : MemoryItem) : Prop :=
  ideaStatus m = Some pending \/ ideaStatus m = Some attempted.

Lemma run_snoc ops op : run (ops ++ [op]) = step (run ops) op.
Proof. unfold run. by rewrite foldl_app. Qed.

Lemma step_length db op : (length db <= length (step db op))%nat.
Proof.
  destruct op; cbn [step]; unfold storePastMemory, storePinnedMemory, storeIdea,
    unpinMemory, updateIdeaStatus, create, save, findById; cbn [snd].
  1-3: rewrite length_app; simpl; lia.
  - destruct (db !! id); [|done]. destruct (negb _); [done|].
    cbn [snd]. by rewrite length_insert.
  - destruct (db !! id) as [m|]; [|done]. destruct (ideaStatus m); [|done].
    cbn [snd]. by rewrite length_insert.
Qed.

(** What one operation does to the item at [id]. *)
Lemma step_lookup db op id m' :
  step db op !! id = Some m' ->
  (db !! id = None /\ (ideaStatus m' = None \/
                       (ideaStatus m' = Some pending /\ pinned m' = true)))
  \/ (exists m, db !! id = Some m /\
       (m' = m
        \/ (exists now, op = Unpin id now /\ pinned m' = false /\
                        ideaStatus m' = ideaStatus m)
        \/ (exists now, op = UpdateIdeaStatus id toCompleted now /\
                        pinned m' = false /\ ideaStatus m' = Some completed)
        \/ (exists now, op = UpdateIdeaStatus id toAttempted now /\
                        ideaStatus m <> None /\
                        pinned m' = pinned m /\ ideaStatus m' = Some attempted))).
Proof.
  destruct op; cbn [step]; unfold storePastMemory, storePinnedMemory, storeIdea,
    unpinMemory, updateIdeaStatus, create, save, findById; cbn [snd].
  1-3: intros H; apply lookup_app_Some in H as [H|[Hge H]];
       [right; eauto|left; split; [by apply lookup_ge_None|]];
       apply list_lookup_singleton_Some in H as [_ <-]; cbn; auto.
  - destruct (db !! id0) as [m0|] eqn:E0; cbn [snd]; [|right; eauto].
    destruct (pinned m0) eqn:Ep; cbn [negb snd]; [|right; eauto].
    intros H. apply list_lookup_insert_Some in H as [(-> & <- & Hlt)|(Hne & H)].
    + right. exists m0. split; [done|]. right; left. eauto.
    + right; eauto.
  - destruct (db !! id0) as [m0|] eqn:E0; cbn [snd]; [|right; eauto].
    destruct (ideaStatus m0) as [s0|] eqn:Es; cbn [snd]; [|right; eauto].
    intros H. apply list_lookup_insert_Some in H as [(-> & <- & Hlt)|(Hne & H)].
    + right. exists m0. split; [done|]. right; right.
      destruct status; [right|left]; eexists; cbn; rewrite ?Es; eauto 10.
    + right; eauto.
Qed.

Lemma completed_unpinned ops : forall id m,
  run ops !! id = Some m -> ideaStatus m = Some completed -> pinned m = false.
Proof.
  induction ops as [|op ops IH] using rev_ind; intros id m Hl Hc.
  - done.
  - rewrite run_snoc in Hl.
    apply step_lookup in Hl as [(_ & [H|[H _]])|(m0 & H0 & [->|[H|[H|H]]])];
      try congruence; eauto.
    + destruct H as (? & _ & ? & _). done.
    + destruct H as (? & _ & ? & _). done.
    + destruct H as (? & _ & _ & _ & ?). congruence.
Qed.

Lemma neverCompleted_snoc ops op id :
  neverCompleted (ops ++ [op]) id -> neverCompleted ops id.
Proof.
  intros H k m Hk. apply (H (min k (length ops)) m).
  rewrite take_app_le by lia.
  destruct (decide (k <= length ops)%nat).
  - by rewrite Nat.min_l by lia.
  - rewrite Nat.min_r by lia. rewrite firstn_all.
    rewrite take_ge in Hk by lia. done.
Qed.

Lemma neverCompleted_now ops id m :
  neverCompleted ops id -> run ops !! id = Some m -> ideaStatus m <> Some completed.
Proof.
  intros H Hl. apply (H (length ops)). by rewrite firstn_all.
Qed.

Lemma neverDismissed_snoc ops op id :
  neverDismissed (ops ++ [op]) id ->
  neverDismissed ops id /\ (forall now, op <> Unpin id now).
Proof.
  intros H. split.
  - intros now Hin. apply (H now). apply elem_of_app. by left.
  - intros now ->. apply (H now). apply elem_of_app. right. by apply list_elem_of_singleton.
Qed.

Lemma active_idea_pinned ops : forall id m,
  run ops !! id = Some m -> isActiveIdea m ->
  neverCompleted ops id -> neverDismissed ops id -> pinned m = true.
Proof.
  induction ops as [|op ops IH] using rev_ind; intros id m Hl Ha Hc Hd.
  - done.
  - pose proof (neverCompleted_snoc _ _ _ Hc) as Hc'.
    apply neverDismissed_snoc in Hd as [Hd' Hop].
    rewrite run_snoc in Hl.
    apply step_lookup in Hl as [(_ & [H|[_ H]])|(m0 & H0 & [->|[H|[H|H]]])].
    + destruct Ha; congruence.
    + done.
    + by apply (IH id).
    + destruct H as (now & -> & _). by destruct (Hop now).
    + destruct H as (now & _ & _ & H). destruct Ha; congruence.
    + destruct H as (now & _ & Hi & Hp & _). rewrite Hp.
      apply (IH id); try done.
      pose proof (neverCompleted_now _ _ _ Hc' H0).
      unfold isActiveIdea. destruct (ideaStatus m0) as [[]|]; auto; done.
Qed.

(** C3 (as amended).  In the store reached by any history of
    [storePast], [storePinned], [storeIdea], [unpin] and [updateIdeaStatus]:
    a [completed] item is unpinned; and a [pending] or [attempted] item
    that was never completed and on which [unpin] was never called is
    pinned. *)
Theorem idea_pin_invariant (ops : list Op) (id : nat) (m : MemoryItem) :
  run ops !! id = Some m ->
  (ideaStatus m = Some completed -> pinned m = false) /\
  (isActiveIdea m -> neverCompleted ops id -> neverDismissed ops id ->
   pinned m = true).
Proof.
  intros Hl. split.
  - by apply (completed_unpinned ops id).
  - by apply active_idea_pinned.
Qed.

Lemma idea_pin_invariant_witness :
  let ops := [StoreIdea (lit "Add retry logic") (lit "fewer failures") (says "retry") 1000;
              UpdateIdeaStatus 0 toAttempted 2000] in
  let m := {| content := lit "Add retry logic"; summary := lit "retry";
              pinned := true; ideaStatus := Some attempted;
              ideaContext := Some (lit "fewer failures");
              createdAt := 1000; updatedAt := 2000 |} in
  (ideaStatus m = Some completed -> pinned m = false) /\
  (isActiveIdea m -> neverCompleted ops 0 -> neverDismissed ops 0 ->
   pinned m = true).
Proof.
  intros ops m. apply (idea_pin_invariant ops 0 m). reflexivity.
Defined.

(** An idea is stored, then dismissed with [unpin]. *)
Definition dismissedIdea : list Op :=
  [StoreIdea (lit "Add retry logic") (lit "fewer failures") (says "retry") 1000;
   Unpin 0 2000].

(** C3 as stated fails: [unpinMemory] does not look at [ideaStatus], so
    an idea that is dismissed stays [pending], was never completed, and
    is no longer pinned. *)
Lemma idea_pin_counterexample :
  exists m, run dismissedIdea !! 0%nat = Some m /\
    isActiveIdea m /\ neverCompleted dismissedIdea 0 /\ pinned m <> true.
Proof.
  eexists. split; [reflexivity|]. split; [by left|]. split; [|done].
  intros k m Hk.
  destruct k as [|[|[|k]]]; vm_compute in Hk; try done;
    injection Hk as <-; done.
Qed.

(** The budget cut of the tests: fifty past memories of about forty
    characters each and one note, with a budget of 100. *)
Fixpoint fillPast (n : nat) (db : Store) : Store :=
  match n with
  | O => db
  | S k =>
      fillPast k
        (storePastMemory (lit "content")
           (says "a summary of about forty characters long")
           (1000 * Z.of_nat (length db)) db)
  end.

Example context_budget_cut :
  let db := (storePinnedMemory (lit "Keep PRs small") (says "small PRs") 99000
               (fillPast 50 [])).2 in
  length (recent db) = 50%nat /\
  length (pastShown 100 db) = 3%nat /\
  (exists rest, getContext 100 db
     = lit "## Notes to self" ++ nl
       ++ lit "- (000000000000000000000032) small PRs" ++ rest) /\
  estimateTokens (getContext 100 db) = 85.
Proof.
  repeat split; try (vm_compute; reflexivity).
  eexists. vm_compute. reflexivity.
Qed.

End Memory.

(** ** Structured edits (tools/git.ts, applyEdits) *)

Module Git.

(** [EditOperation]: a closed sum over the three [type] tags. *)
Inductive EditOperation :=
| replace (filePath oldString newString : str)
| create (filePath content : str)
| delete (filePath : str).

Definition opType (op : EditOperation) : str :=
  match op with
  | replace _ _ _ => lit "replace"
  | create _ _ => lit "create"
  | delete _ => lit "delete"
  end.

Definition opFilePath (op : EditOperation) : str :=
  match op with
  | replace p _ _ => p
  | create p _ => p
  | delete p => p
  end.

(** The working copy: the regular files under the workspace, by full
    path, each with the string [readFile(path, 'utf-8')] returns for it.
    [readFile] and [unlink] throw [ENOENT] on a path that is not there.
    [mkdir -p] and [writeFile] may refuse (a parent that is a regular
    file, a target that is a directory, a file that is read-only): what
    they answer is the environment's, turn by turn; an error while the
    data is being written (a full disk) is outside the model. *)
Abbreviation Files := (gmap (list N) (list N)).

(** [writeFile(path, s, 'utf-8')] encodes [s] as UTF-8: a surrogate that
    is not part of a pair is written as U+FFFD, and [toWellFormed s] is
    the string that is read back. *)

Definition sq : str := [39%N].
Definition dq : str := [34%N].

Definition enoent (syscall path : str) : str :=
  lit "ENOENT: no such file or directory, " ++ syscall ++ sp ++ sq ++ path ++ sq.

(** *** [String.prototype.indexOf] *)

Fixpoint startsWith (search s : str) : bool :=
  match search, s with
  | [], _ => true
  | _ :: _, [] => false
  | x :: search', y :: s' => N.eqb x y && startsWith search' s'
  end.

(** The first position at or after [k] where [search] starts, [s] being
    the part of the string from position [k] on. *)
Fixpoint indexOfFrom (search : str) (k : nat) (s : str) : option nat :=
  if startsWith search s then Some k
  else match s with
       | [] => None
       | _ :: s' => indexOfFrom search (S k) s'
       end.

(** [s.indexOf(search, position)]: [position] is clamped to [0..length],
    and the result is [-1] when there is no match. *)
Definition indexOf (s search : str) (position : Z) : Z :=
  let start := Z.to_nat (Z.min (Z.max position 0) (Z.of_nat (length s))) in
  match indexOfFrom search start (drop start s) with
  | Some i => Z.of_nat i
  | None => -1
  end.

(** [s.slice(from)] and [s.slice(0, to)] for indices within [0..length]. *)
Definition sliceFrom (from : Z) (s : str) : str := drop (Z.to_nat from) s.
Definition sliceTo (to : Z) (s : str) : str := take (Z.to_nat to) s.

Section ApplyEdits.

(** [join(config.workspacePath, filePath)] *)
Variable fullPath : str -> str.

(** The two messages of the single-match check. *)
Definition oldStringNotFound (filePath : str) : str :=
  lit "replace " ++ dq ++ filePath ++ dq ++ lit ": oldString not found in file".

Definition oldStringAmbiguous (filePath : str) : str :=
  lit "replace " ++ dq ++ filePath ++ dq
    ++ lit ": oldString matches multiple locations "
    ++ emdash ++ lit " add more context to make it unique".

(** The body of the [replace] branch on the content that was read: the
    new content to write, or the message pushed on [errors]. *)
Definition replaceIn (filePath content oldString newString : str) : str + str :=
  let index := indexOf content oldString 0 in
  if bool_decide (index = -1) then inr (oldStringNotFound filePath)
  else
    let secondIndex := indexOf content oldString (index + 1) in
    if bool_decide (secondIndex <> -1) then inr (oldStringAmbiguous filePath)
    else
      inl (sliceTo index content ++ newString
           ++ sliceFrom (index + Z.of_nat (length oldString)) content).

(** What the [catch] clause pushes for an exception with this message. *)
Definition caught (op : EditOperation) (message : str) : str :=
  opType op ++ sp ++ dq ++ opFilePath op ++ dq ++ lit ": " ++ message.

(** [mkdir(dirname(fullPath), { recursive: true })] (for [create]) and
    [writeFile(fullPath, text, 'utf-8')], [w] being what the file system
    answers: [None] when the calls return, the message of the error that
    is thrown otherwise. *)
Definition writeFile (fs : Files) (path text : str) (w : option str) : Files + str :=
  match w with
  | Some message => inr message
  | None => inl (<[path := toWellFormed text]> fs)
  end.

(** One turn of the loop: the files afterwards and the message pushed on
    [errors], if any; [w] is the answer of the file system if the turn
    gets to write. *)
Definition applyOne (fs : Files) (op : EditOperation) (w : option str)
  : Files * option str :=
  match op with
  | replace filePath oldString newString =>
      match fs !! fullPath filePath with
      | None => (fs, Some (caught op (enoent (lit "open") (fullPath filePath))))
      | Some content =>
          match replaceIn filePath content oldString newString with
          | inr e => (fs, Some e)
          | inl updated =>
              match writeFile fs (fullPath filePath) updated w with
              | inl fs' => (fs', None)
              | inr message => (fs, Some (caught op message))
              end
          end
      end
  | create filePath content =>
      match writeFile fs (fullPath filePath) content w with
      | inl fs' => (fs', None)
      | inr message => (fs, Some (caught op message))
      end
  | delete filePath =>
      match fs !! fullPath filePath with
      | None => (fs, Some (caught op (enoent (lit "unlink") (fullPath filePath))))
      | Some _ => (base.delete (fullPath filePath) fs, None)
      end
  end.

(** What the file system answers to the write of the [k]-th turn of a
    call, counted from 0. *)
Variable writeError : nat -> option str.

(** The [for (const op of operations)] loop from its [k]-th turn on, with
    the [errors] array. *)
Fixpoint editLoop (k : nat) (ops : list EditOperation) (fs : Files) (errors : list str)
  : Files * list str :=
  match ops with
  | [] => (fs, errors)
  | op :: rest =>
      let '(fs', e) := applyOne fs op (writeError k) in
      editLoop (S k) rest fs'
        (match e with Some msg => errors ++ [msg] | None => errors end)
  end.

(** [applyEdits]: the files afterwards, and the message of the [Error]
    that is thrown, if one is. *)
Definition applyEdits (ops : list EditOperation) (fs : Files) : Files * option str :=
  let '(fs', errors) := editLoop 0 ops fs [] in
  if bool_decide (0 < length errors)%nat
  then (fs', Some (lit "Edit operations failed:" ++ nl ++ join nl errors))
  else (fs', None).

(** The loop unrolled, for the proofs: the files after every operation
    has had its turn, and the messages pushed, in order. *)
Fixpoint filesAfter (k : nat) (ops : list EditOperation) (fs : Files) : Files :=
  match ops with
  | [] => fs
  | op :: rest => filesAfter (S k) rest (applyOne fs op (writeError k)).1
  end.

Fixpoint failures (k : nat) (ops : list EditOperation) (fs : Files) : list str :=
  match ops with
  | [] => []
  | op :: rest =>
      match (applyOne fs op (writeError k)).2 with
      | Some msg => msg :: failures (S k) rest (applyOne fs op (writeError k)).1
      | None => failures (S k) rest (applyOne fs op (writeError k)).1
      end
  end.

(** *** The contract, stated apart from the loop *)

(** An operation succeeds: the file to replace in or to delete is there,
    the text to replace passes the single-match check, and the file
    system accepts the write ([w] is its answer). *)
Definition succeeds (w : option str) (fs : Files) (op : EditOperation) : bool :=
  match op with
  | replace filePath oldString newString =>
      match fs !! fullPath filePath with
      | Some content =>
          match replaceIn filePath content oldString newString with
          | inl _ => bool_decide (w = None)
          | inr _ => false
          end
      | None => false
      end
  | create _ _ => bool_decide (w = None)
  | delete filePath => bool_decide (is_Some (fs !! fullPath filePath))
  end.

(** What an operation that succeeds leaves on disk. *)
Definition effect (fs : Files) (op : EditOperation) : Files :=
  match op with
  | replace filePath oldString newString =>
      match fs !! fullPath filePath with
      | Some content =>
          match replaceIn filePath content oldString newString with
          | inl updated => <[fullPath filePath := toWellFormed updated]> fs
          | inr _ => fs
          end
      | None => fs
      end
  | create filePath content => <[fullPath filePath := toWellFormed content]> fs
  | delete filePath => base.delete (fullPath filePath) fs
  end.

(** [Collects k ops fs fs' errors]: from the [k]-th turn on, every
    operation of [ops] has its turn, in order, on the files its
    predecessors left, whether they failed or not; one that succeeds
    leaves its effect, one that fails leaves the files as they are and
    one message, which names its type and its path; [fs'] are the files at
    the end and [errors] the messages, in order. *)
Inductive Collects : nat -> list EditOperation -> Files -> Files -> list str -> Prop :=
| Collects_done k fs : Collects k [] fs fs []
| Collects_succeeded k op rest fs fs' errors :
    succeeds (writeError k) fs op = true ->
    Collects (S k) rest (effect fs op) fs' errors ->
    Collects k (op :: rest) fs fs' errors
| Collects_failed k op rest fs fs' errors detail :
    succeeds (writeError k) fs op = false ->
    Collects (S k) rest fs fs' errors ->
    Collects k (op :: rest) fs fs' (caught op detail :: errors).

End ApplyEdits.

(** [search] occurs in [s] at index [i]: [s[i .. i + |search|] = search]. *)
Definition occursAt (search s : str) (i : nat) : Prop :=
  (i <= length s)%nat /\ startsWith search (drop i s) = true.

Lemma startsWith_spec search s :
  startsWith search s = true <-> exists rest, s = search ++ rest.
Proof.
  revert s. induction search as [|x search IH]; intros s; simpl.
  - split; eauto.
  - destruct s as [|y s]; simpl.
    + split; [done|]. by intros (rest & ?).
    + rewrite andb_true_iff, N.eqb_eq, IH. split.
      * intros (-> & rest & ->). eauto.
      * intros (rest & [= -> ->]). eauto.
Qed.

Lemma occursAt_splice search s i :
  occursAt search s i ->
  s = take i s ++ search ++ drop (i + length search) s.
Proof.
  intros [Hi (rest & Hr)%startsWith_spec].
  rewrite <- (take_drop i s) at 1. f_equal.
  rewrite <- drop_drop, Hr. f_equal.
  by rewrite drop_app_length.
Qed.

Lemma occursAt_0 search s : occursAt search s 0 <-> startsWith search s = true.
Proof. unfold occursAt. rewrite drop_0. split; [by intros []|]. split; [lia|done]. Qed.

Lemma occursAt_S search x s i :
  occursAt search (x :: s) (S i) <-> occursAt search s i.
Proof. unfold occursAt. simpl. split; intros []; split; try done; lia. Qed.

Lemma indexOfFrom_spec search s : forall k,
  match indexOfFrom search k s with
  | Some r => exists i, r = (k + i)%nat /\ occursAt search s i /\
                        forall j, (j < i)%nat -> ~ occursAt search s j
  | None => forall j, ~ occursAt search s j
  end.
Proof.
  induction s as [|x s IH]; intros k.
  - cbn [indexOfFrom]. destruct (startsWith search []) eqn:E.
    + exists 0%nat. rewrite occursAt_0. split; [lia|split; [done|lia]].
    + intros j [Hj H]. simpl in Hj. assert (j = 0%nat) as -> by lia.
      rewrite drop_0 in H. congruence.
  - cbn [indexOfFrom]. destruct (startsWith search (x :: s)) eqn:E.
    + exists 0%nat. rewrite occursAt_0. split; [lia|split; [done|lia]].
    + specialize (IH (S k)). destruct (indexOfFrom search (S k) s) as [r|].
      * destruct IH as (i & -> & Hocc & Hmin). exists (S i).
        rewrite occursAt_S. split; [lia|split; [done|]].
        intros [|j] Hj; [rewrite occursAt_0; congruence|].
        rewrite occursAt_S. apply Hmin. lia.
      * intros [|j]; [rewrite occursAt_0; congruence|].
        rewrite occursAt_S. apply IH.
Qed.

Lemma occursAt_drop search s n i :
  (n <= length s)%nat ->
  occursAt search (drop n s) i <-> occursAt search s (n + i).
Proof.
  intros Hn. unfold occursAt. rewrite drop_drop, length_drop.
  split; intros []; split; try done; lia.
Qed.

(** [indexOf] returns the first occurrence at or after the clamped
    position, and [-1] exactly when there is none. *)
Lemma indexOf_spec s search position :
  let start := Z.to_nat (Z.min (Z.max position 0) (Z.of_nat (length s))) in
  (indexOf s search position = -1 /\
   forall j, (start <= j)%nat -> ~ occursAt search s j)
  \/ (exists r, indexOf s search position = Z.of_nat r /\ (start <= r)%nat /\
        occursAt search s r /\
        forall j, (start <= j < r)%nat -> ~ occursAt search s j).
Proof.
  intros start. unfold indexOf. fold start.
  assert (Hs : (start <= length s)%nat) by (subst start; lia).
  pose proof (indexOfFrom_spec search (drop start s) start) as H.
  destruct (indexOfFrom search start (drop start s)) as [r|].
  - right. destruct H as (i & -> & Hocc & Hmin). exists (start + i)%nat.
    rewrite occursAt_drop in Hocc by done. split; [done|split; [lia|split; [done|]]].
    intros j Hj. replace j with (start + (j - start))%nat by lia.
    rewrite <- occursAt_drop by done. apply Hmin. lia.
  - left. split; [done|]. intros j Hj.
    replace j with (start + (j - start))%nat by lia.
    rewrite <- occursAt_drop by done. apply H.
Qed.

(** The single-match contract of [replace], everywhere but on the empty
    [oldString] in an empty file: no occurrence, not found; exactly one,
    the occurrence is spliced out; two or more, ambiguous.  In the two
    failing cases [applyOne] leaves the files as they are. *)
Lemma replaceIn_spec filePath content oldString newString :
  ~ (content = [] /\ oldString = []) ->
  ((forall i, ~ occursAt oldString content i) ->
   replaceIn filePath content oldString newString = inr (oldStringNotFound filePath))
  /\ (forall i, occursAt oldString content i ->
        (forall j, occursAt oldString content j -> j = i) ->
        replaceIn filePath content oldString newString
        = inl (take i content ++ newString ++ drop (i + length oldString) content))
  /\ (forall i j, i <> j -> occursAt oldString content i ->
        occursAt oldString content j ->
        replaceIn filePath content oldString newString
        = inr (oldStringAmbiguous filePath)).
Proof.
  intros Hne. unfold replaceIn.
  destruct (indexOf_spec content oldString 0) as [[E Hnone]|(r & E & _ & Hocc & Hmin)];
    rewrite E.
  { rewrite bool_decide_eq_true_2 by done.
    split; [done|]. split.
    - intros i Hi. destruct (Hnone i); [lia|done].
    - intros i j _ Hi. destruct (Hnone i); [lia|done]. }
  rewrite bool_decide_eq_false_2 by lia.
  assert (Hmin' : forall j, (j < r)%nat -> ~ occursAt oldString content j).
  { intros j Hj. apply Hmin. lia. }
  assert (Hr : (r < length content)%nat).
  { destruct Hocc as [Hle Hs]. destruct (decide (r = length content)) as [->|]; [|lia].
    exfalso. rewrite drop_all in Hs.
    destruct oldString as [|c o]; [|done].
    destruct content as [|x content]; [by apply Hne|].
    apply (Hmin' 0%nat); [simpl; lia|]. by apply occursAt_0. }
  destruct (indexOf_spec content oldString (Z.of_nat r + 1))
    as [[E2 Hnone2]|(r2 & E2 & Hr2 & Hocc2 & _)]; rewrite E2;
    replace (Z.to_nat (Z.min (Z.max (Z.of_nat r + 1) 0) (Z.of_nat (length content))))
      with (S r) in * by lia.
  - rewrite bool_decide_eq_false_2 by (intros H; by apply H).
    assert (Huniq : forall j, occursAt oldString content j -> j = r).
    { intros j Hj. destruct (lt_eq_lt_dec j r) as [[Hlt|]|Hgt]; [|done|].
      - by destruct (Hmin' j).
      - destruct (Hnone2 j); [lia|done]. }
    split; [intros Hn; by destruct (Hn r)|]. split.
    + intros i Hi _. rewrite (Huniq i Hi).
      unfold sliceTo, sliceFrom. by rewrite <- Nat2Z.inj_add, !Nat2Z.id.
    + intros i j Hij Hi Hj. rewrite (Huniq i Hi), (Huniq j Hj) in Hij. done.
  - rewrite bool_decide_eq_true_2 by lia.
    split; [intros Hn; by destruct (Hn r)|]. split; [|done].
    intros i Hi Hu. pose proof (Hu r Hocc). pose proof (Hu r2 Hocc2). lia.
Qed.

(** C4, at the input where the code departs from it.  In an empty file
    the empty [oldString] occurs exactly once, at index 0;
    [''.indexOf('', 1)] is 0 again (the position is clamped to the
    length), so the second search reports a match and the operation is
    refused as ambiguous; the file is left as it was. *)
Lemma replace_empty_in_empty_file (fullPath : str -> str) (filePath newString : str)
    (w : option str) :
  occursAt [] [] 0 /\ (forall j, occursAt [] [] j -> j = 0%nat) /\
  replaceIn filePath [] [] newString = inr (oldStringAmbiguous filePath) /\
  applyOne fullPath {[fullPath filePath := []]} (replace filePath [] newString) w
  = ({[fullPath filePath := []]}, Some (oldStringAmbiguous filePath)).
Proof.
  split; [by apply occursAt_0|]. split.
  { intros j [Hj _]. simpl in Hj. lia. }
  split; [reflexivity|].
  unfold applyOne. rewrite lookup_singleton_eq. reflexivity.
Qed.

Section ApplyEditsFacts.

Variable fullPath : str -> str.
Variable writeError : nat -> option str.

Lemma filesAfter_app ops1 ops2 : forall k fs,
  filesAfter fullPath writeError k (ops1 ++ ops2) fs
  = filesAfter fullPath writeError (k + length ops1) ops2
      (filesAfter fullPath writeError k ops1 fs).
Proof.
  induction ops1 as [|op ops1 IH]; intros k fs; cbn [filesAfter app length].
  - by rewrite Nat.add_0_r.
  - rewrite IH. by replace (S k + length ops1)%nat with (k + S (length ops1))%nat by lia.
Qed.

Lemma editLoop_spec ops : forall k fs errors,
  editLoop fullPath writeError k ops fs errors
  = (filesAfter fullPath writeError k ops fs,
     errors ++ failures fullPath writeError k ops fs).
Proof.
  induction ops as [|op ops IH]; intros k fs errors.
  - cbn [editLoop failures filesAfter]. by rewrite app_nil_r.
  - cbn [editLoop failures filesAfter].
    destruct (applyOne fullPath fs op (writeError k)) as [fs' [msg|]]; cbn [fst snd];
      rewrite IH; [by rewrite <- app_assoc|done].
Qed.

Lemma applyEdits_files ops fs :
  (applyEdits fullPath writeError ops fs).1 = filesAfter fullPath writeError 0 ops fs.
Proof. unfold applyEdits. rewrite editLoop_spec. by case_bool_decide. Qed.

Lemma applyEdits_error ops fs :
  (applyEdits fullPath writeError ops fs).2
  = match failures fullPath writeError 0 ops fs with
    | [] => None
    | errors => Some (lit "Edit operations failed:" ++ nl ++ join nl errors)
    end.
Proof.
  unfold applyEdits. rewrite editLoop_spec, app_nil_l.
  destruct (failures fullPath writeError 0 ops fs) as [|e errors].
  - by rewrite bool_decide_eq_false_2 by (simpl; lia).
  - by rewrite bool_decide_eq_true_2 by (simpl; lia).
Qed.

(** One turn, read against the contract. *)
Lemma applyOne_turn fs op w :
  (succeeds fullPath w fs op = true /\
   applyOne fullPath fs op w = (effect fullPath fs op, None))
  \/ (succeeds fullPath w fs op = false /\
      exists detail, applyOne fullPath fs op w = (fs, Some (caught op detail))).
Proof.
  destruct op as [p old new|p c|p]; cbn [applyOne succeeds effect].
  - destruct (fs !! fullPath p) as [content|]; [|right; eauto].
    destruct (replaceIn p content old new) as [updated|e] eqn:E.
    + destruct w as [message|]; cbn [writeFile]; [right; eauto|by left].
    + right. split; [done|]. unfold replaceIn in E.
      repeat case_bool_decide; try done; injection E as <-.
      * by exists (lit "oldString not found in file").
      * by exists (lit "oldString matches multiple locations "
                  ++ emdash ++ lit " add more context to make it unique").
  - destruct w as [message|]; cbn [writeFile]; [right; eauto|by left].
  - destruct (fs !! fullPath p) as [content|] eqn:E.
    + left. split; [|done]. apply bool_decide_eq_true_2. eauto.
    + right. split; [|eauto]. apply bool_decide_eq_false_2. by intros [? ?].
Qed.

Lemma applyOne_other fs op w path :
  fullPath (opFilePath op) <> path ->
  (applyOne fullPath fs op w).1 !! path = fs !! path.
Proof.
  intros Hne. destruct op as [p old new|p c|p]; cbn [applyOne opFilePath] in *.
  - destruct (fs !! fullPath p) as [content|]; [|done].
    destruct (replaceIn p content old new); cbn [fst]; [|done].
    destruct w; cbn [writeFile fst]; [done|]. by rewrite lookup_insert_ne.
  - destruct w; cbn [writeFile fst]; [done|]. by rewrite lookup_insert_ne.
  - destruct (fs !! fullPath p); cbn [fst]; [|done]. by rewrite lookup_delete_ne.
Qed.

Lemma filesAfter_other ops path : forall k fs,
  Forall (fun op => fullPath (opFilePath op) <> path) ops ->
  filesAfter fullPath writeError k ops fs !! path = fs !! path.
Proof.
  induction ops as [|op ops IH]; intros k fs Hall; cbn [filesAfter]; [done|].
  apply Forall_cons in Hall as [Hop Hall]. rewrite IH by done.
  by apply applyOne_other.
Qed.

Lemma collects_loop ops : forall k fs,
  Collects fullPath writeError k ops fs
    (filesAfter fullPath writeError k ops fs) (failures fullPath writeError k ops fs).
Proof.
  induction ops as [|op ops IH]; intros k fs; cbn [filesAfter failures];
    [constructor|].
  destruct (applyOne_turn fs op (writeError k)) as [[Hs ->]|[Hs (detail & ->)]];
    cbn [fst snd].
  - by apply Collects_succeeded.
  - by apply Collects_failed.
Qed.

Lemma failures_nonempty ops : forall k fs,
  failures fullPath writeError k ops fs <> [] <->
  exists i op, ops !! i = Some op /\
    succeeds fullPath (writeError (k + i))
      (filesAfter fullPath writeError k (take i ops) fs) op = false.
Proof.
  induction ops as [|op ops IH]; intros k fs; cbn [failures].
  - split; [done|]. by intros (i & op & ? & _).
  - destruct (applyOne_turn fs op (writeError k)) as [[Hs E]|[Hs (detail & E)]];
      rewrite E; cbn [fst snd].
    + rewrite IH. split.
      * intros (i & op' & Hl & Hf). exists (S i), op'. split; [done|].
        cbn [take filesAfter]. rewrite E. cbn [fst].
        by replace (k + S i)%nat with (S k + i)%nat by lia.
      * intros ([|i] & op' & Hl & Hf).
        -- injection Hl as <-. cbn [take filesAfter] in Hf.
           rewrite Nat.add_0_r in Hf. congruence.
        -- exists i, op'. split; [done|].
           cbn [take filesAfter] in Hf. rewrite E in Hf. cbn [fst] in Hf.
           by replace (S k + i)%nat with (k + S i)%nat by lia.
    + split; [intros _|done]. exists 0%nat, op. split; [done|].
      cbn [take filesAfter]. by rewrite Nat.add_0_r.
Qed.

Lemma retained ops fs i op :
  ops !! i = Some op ->
  succeeds fullPath (writeError i)
    (applyEdits fullPath writeError (take i ops) fs).1 op = true ->
  (forall j op', (i < j)%nat -> ops !! j = Some op' ->
                 fullPath (opFilePath op') <> fullPath (opFilePath op)) ->
  (applyEdits fullPath writeError ops fs).1 !! fullPath (opFilePath op)
  = effect fullPath (applyEdits fullPath writeError (take i ops) fs).1 op
      !! fullPath (opFilePath op).
Proof.
  intros Hi Hs Hlater. rewrite !applyEdits_files in *.
  rewrite <- (take_drop_middle ops i _ Hi) at 1. rewrite filesAfter_app.
  cbn [filesAfter]. rewrite length_take_le by (apply lookup_lt_Some in Hi; lia).
  rewrite Nat.add_0_l.
  destruct (applyOne_turn (filesAfter fullPath writeError 0 (take i ops) fs) op
              (writeError i)) as [[_ ->]|[Hf _]]; [|congruence].
  cbn [fst]. apply filesAfter_other.
  apply Forall_forall. intros op' Hop.
  apply list_elem_of_lookup in Hop as [j Hj]. rewrite lookup_drop in Hj.
  apply (Hlater (S i + j)%nat); [lia|done].
Qed.

(** C5.  [applyEdits] gives every operation its turn, in order, on the
    files its predecessors left, whether or not an earlier one failed
    ([Collects]); the messages of all the operations that failed are
    collected, and the call throws exactly when there is one, that is when
    some operation does not succeed on the files it is applied to; the
    message thrown is the header followed by all the messages, in order.
    What succeeded stays on disk also when the call throws: unless a
    later operation names its path, what an operation that succeeded left
    at its path is there at the end; so a file whose creation succeeded is
    there with the text written. *)
Theorem applyEdits_collects_failures (ops : list EditOperation) (fs : Files) :
  (exists errors,
     Collects fullPath writeError 0 ops fs
       (applyEdits fullPath writeError ops fs).1 errors /\
     (applyEdits fullPath writeError ops fs).2
     = match errors with
       | [] => None
       | _ => Some (lit "Edit operations failed:" ++ nl ++ join nl errors)
       end) /\
  (is_Some (applyEdits fullPath writeError ops fs).2 <->
   exists i op, ops !! i = Some op /\
     succeeds fullPath (writeError i)
       (applyEdits fullPath writeError (take i ops) fs).1 op = false) /\
  (forall i op,
     ops !! i = Some op ->
     succeeds fullPath (writeError i)
       (applyEdits fullPath writeError (take i ops) fs).1 op = true ->
     (forall j op', (i < j)%nat -> ops !! j = Some op' ->
                    fullPath (opFilePath op') <> fullPath (opFilePath op)) ->
     (applyEdits fullPath writeError ops fs).1 !! fullPath (opFilePath op)
     = effect fullPath (applyEdits fullPath writeError (take i ops) fs).1 op
         !! fullPath (opFilePath op)) /\
  (forall i filePath content,
     ops !! i = Some (create filePath content) -> writeError i = None ->
     (forall j op, (i < j)%nat -> ops !! j = Some op ->
                   fullPath (opFilePath op) <> fullPath filePath) ->
     (applyEdits fullPath writeError ops fs).1 !! fullPath filePath
     = Some (toWellFormed content)).
Proof.
  split; [|split; [|split]].
  - exists (failures fullPath writeError 0 ops fs).
    rewrite applyEdits_files, applyEdits_error. split; [apply collects_loop|].
    by destruct (failures fullPath writeError 0 ops fs).
  - assert (Hsome : is_Some (applyEdits fullPath writeError ops fs).2 <->
                    failures fullPath writeError 0 ops fs <> []).
    { rewrite applyEdits_error.
      destruct (failures fullPath writeError 0 ops fs);
        [split; [by intros []|done]|split; [done|eauto]]. }
    rewrite Hsome, failures_nonempty.
    split; intros (i & op & Hl & Hf); exists i, op; (split; [done|]);
      [by rewrite applyEdits_files|by rewrite applyEdits_files in Hf].
  - apply retained.
  - intros i p c Hi Hw Hlater.
    assert (Hs : succeeds fullPath (writeError i)
                   (applyEdits fullPath writeError (take i ops) fs).1 (create p c)
                 = true) by (cbn; by rewrite Hw).
    pose proof (retained ops fs i (create p c) Hi Hs Hlater) as H.
    cbn [opFilePath effect] in H. rewrite H. apply lookup_insert_eq.
Qed.

End ApplyEditsFacts.

Definition ws (filePath : str) : str := lit "/workspace/" ++ filePath.

(** A file system that accepts every write. *)
Definition accepts : nat -> option str := fun _ => None.

Example toWellFormed_lone_surrogate :
  toWellFormed [120; 56832]%N = [120; 65533]%N /\
  toWellFormed [55357; 56832]%N = [55357; 56832]%N.
Proof. split; reflexivity. Qed.


(** Partial success stays on disk: the call throws, and both files whose
    creation succeeded are there afterwards. *)
Example applyEdits_partial_success :
  let r := applyEdits ws accepts
             [create (lit "a") (lit "1");
              replace (lit "missing") (lit "x") (lit "y");
              create (lit "b") (lit "2")] ∅ in
  r.1 = {[ ws (lit "a") := lit "1"; ws (lit "b") := lit "2" ]} /\
  r.2 = Some (lit "Edit operations failed:" ++ nl
              ++ lit "replace " ++ dq ++ lit "missing" ++ dq
              ++ lit ": ENOENT: no such file or directory, open '/workspace/missing'").
Proof. split; vm_compute; reflexivity. Qed.

(** [a] is a regular file: [mkdir] refuses to make it the parent of
    [a/b]; the failure is collected and the next operation has its turn. *)
Example applyEdits_create_refused :
  let refused := lit "EEXIST: file already exists, mkdir '/workspace/a'" in
  let r := applyEdits ws (fun k => if (k =? 0)%nat then Some refused else None)
             [create (lit "a/b") (lit "1"); create (lit "c") (lit "2")]
             {[ ws (lit "a") := lit "0" ]} in
  r.1 = {[ ws (lit "a") := lit "0"; ws (lit "c") := lit "2" ]} /\
  r.2 = Some (lit "Edit operations failed:" ++ nl
              ++ lit "create " ++ dq ++ lit "a/b" ++ dq ++ lit ": " ++ refused).
Proof. split; vm_compute; reflexivity. Qed.

Example replace_unique :
  replaceIn (lit "a.ts") (lit "const x = foo; bar") (lit "foo") (lit "baz")
  = inl (lit "const x = baz; bar").
Proof. reflexivity. Qed.

Example replace_overlapping :
  replaceIn (lit "a.ts") (lit "aaa") (lit "aa") (lit "b")
  = inr (oldStringAmbiguous (lit "a.ts")).
Proof. reflexivity. Qed.

End Git.

(** ** The iteration controller (src/loop.ts, iterate) *)

Module Loop.

(** The external operations [iterate] awaits, with the arguments it
    passes. *)
Inductive Call :=
| snapshotCodebase
| getContext
| getRecentLog
| plan
| storePastMemory (content : str)
| createBranch (title : str)
| createPatch
| commitAndPush (message : str)
| openPR (branch title description : str)
| awaitChecks
| fixPatch (error : str)
| mergePR (pr : Z)
| deleteRemoteBranch (branch : str)
| getCoverage
| resetWorkspace
| closePR (pr : Z)
| reflect (outcome : str)
| writeIterationLog.

(** What the run of one iteration leaves behind: each awaited call with
    how it settled; for [awaitChecks] the verdict it returned. *)
Inductive Event :=
| Call_ok (c : Call)
| Call_threw (c : Call)
| Checks (passed : bool).

(** How the environment settles a call. *)
Inductive Reply (A : Type) := Returned (a : A) | Threw.
Arguments Returned {A} a.
Arguments Threw {A}.

Inductive Outcome (A : Type) :=
| Done (a : A)      (* the computation returned *)
| Exception         (* it threw *)
| Waiting.          (* the environment has not answered yet *)
Arguments Done {A} a.
Arguments Exception {A}.
Arguments Waiting {A}.

(** Computations that extend the trace and return, throw or wait. *)
Definition M (A : Type) : Type := list Event -> list Event * Outcome A.

Definition ret {A} (a : A) : M A := fun tr => (tr, Done a).

Definition bind {A B} (m : M A) (k : A -> M B) : M B :=
  fun tr =>
    let '(tr', o) := m tr in
    match o with
    | Done a => k a tr'
    | Exception => (tr', Exception)
    | Waiting => (tr', Waiting)
    end.

#[export] Instance M_ret : MRet M := @ret.
#[export] Instance M_bind : MBind M := fun A B k m => bind m k.

Definition throw {A} : M A := fun tr => (tr, Exception).
Definition wait {A} : M A := fun tr => (tr, Waiting).

(** [await c(...)] *)
Definition call {A} (c : Call) (reply : Reply A) : M A :=
  fun tr =>
    match reply with
    | Returned a => (tr ++ [Call_ok c], Done a)
    | Threw => (tr ++ [Call_threw c], Exception)
    end.

(** [try { m } catch { h }] *)
Definition tryCatch {A} (m : M A) (h : M A) : M A :=
  fun tr =>
    let '(tr', o) := m tr in
    match o with
    | Exception => h tr'
    | _ => (tr', o)
    end.

(** [try { m } finally { f }] *)
Definition finally {A} (m : M A) (f : M unit) : M A :=
  fun tr =>
    let '(tr', o) := m tr in
    match o with
    | Done a => (f;; ret a) tr'
    | Exception => (f;; throw) tr'
    | Waiting => (tr', Waiting)
    end.

Record Plan := { title : str; description : str }.

Record CheckResult := { passed : bool; error : option str }.

(** [await awaitChecks()]: the verdict goes into the trace. *)
Definition callAwaitChecks (reply : Reply CheckResult) : M CheckResult :=
  fun tr =>
    match reply with
    | Returned r => (tr ++ [Checks (passed r)], Done r)
    | Threw => (tr ++ [Call_threw awaitChecks], Exception)
    end.

(** The environment's answers during one turn of the fix loop. *)
Record Round := {
  checksR : Reply CheckResult;   (* awaitChecks() *)
  exhausted : bool;              (* session.exhausted *)
  storeFailureR : Reply unit;    (* storePastMemory(`CI failed for ...`) *)
  fixR : Reply nat;              (* session.fixPatch(error), as edits.length *)
  pushFixR : Reply unit          (* commitAndPush(`fix: ...`) *)
}.

(** The environment's answers during one iteration. *)
Record Env := {
  snapshotR : Reply unit;
  contextR : Reply str;
  gitLogR : Reply str;
  planR : Reply Plan;
  storePlannedR : Reply unit;
  branchR : Reply str;
  patchR : Reply nat;            (* session.createPatch(), as edits.length *)
  pushR : Reply unit;
  openR : Reply Z;
  rounds : list Round;
  mergeR : Reply unit;
  deleteMergedR : Reply unit;
  storeMergedR : Reply unit;
  coverageR : Reply (option str);
  storeCoverageR : Reply unit;
  resetR : Reply unit;
  closeR : Reply unit;
  deleteClosedR : Reply unit;
  storeGaveUpR : Reply unit;
  reflectR : Reply str;
  storeReflectionR : Reply unit;
  writeLogR : Reply unit
}.

Definition dq : str := [34%N].

(** [`${n}`] of an integer. *)
Definition numStr (n : Z) : str :=
  lit (DecimalString.NilZero.string_of_int (Z.to_int n)).

(** The [while (true)] loop: the final [merged] and [outcome]. *)
Fixpoint fixLoop (iterationPlan : Plan) (prNumber : Z) (rs : list Round)
  : M (bool * str) :=
  match rs with
  | [] => wait
  | r :: rest =>
      result ← callAwaitChecks (checksR r);
      if passed result then
        ret (true, lit "PR #" ++ numStr prNumber ++ lit " merged successfully.")
      else
        let error := default (lit "CI checks failed with unknown error") (error result) in
        if exhausted r then
          ret (false, lit "CI failed: " ++ Git.sliceTo 10000 error)
        else
          call (storePastMemory
                  (lit "CI failed for " ++ dq ++ title iterationPlan ++ dq
                   ++ lit " (PR #" ++ numStr prNumber ++ lit "): "
                   ++ Git.sliceTo 10000 error))
               (storeFailureR r);;
          edits ← tryCatch (n ← call (fixPatch error) (fixR r); ret (Some n))
                            (ret None);
          match edits with
          | None => ret (false, lit "Builder failed to fix: " ++ Git.sliceTo 500 error)
          | Some O => ret (false, lit "Builder produced no fix edits.")
          | Some (S _) =>
              call (commitAndPush (lit "fix: " ++ title iterationPlan)) (pushFixR r);;
              fixLoop iterationPlan prNumber rest
          end
  end.

(** The locals that are read after the [try] block. *)
Record Locals := {
  merged : bool;
  prNumber : option Z;
  outcome : str;
  iterationPlan : Plan;
  branchName : str
}.

(** The [try] block. *)
Definition tryBlock (env : Env) : M Locals :=
  call snapshotCodebase (snapshotR env);;
  recentMemory ← call getContext (contextR env);
  gitLog ← call getRecentLog (gitLogR env);
  thePlan ← call plan (planR env);
  call (storePastMemory
          (lit "Planned change " ++ dq ++ title thePlan ++ dq ++ lit ": "
           ++ description thePlan))
       (storePlannedR env);;
  branch ← call (createBranch (title thePlan)) (branchR env);
  edits ← call createPatch (patchR env);
  l ← match edits with
       | O =>
           ret {| merged := false; prNumber := None;
                  outcome := lit "Builder produced no edits.";
                  iterationPlan := thePlan; branchName := branch |}
       | S _ =>
           call (commitAndPush (title thePlan)) (pushR env);;
           pr ← call (openPR branch (title thePlan)
                              (description thePlan)) (openR env);
           mo ← fixLoop thePlan pr (rounds env);
           ret {| merged := mo.1; prNumber := Some pr; outcome := mo.2;
                  iterationPlan := thePlan; branchName := branch |}
       end;
  (if merged l then
     let pr := default 0 (prNumber l) in
     call (mergePR pr) (mergeR env);;
     tryCatch (call (deleteRemoteBranch (branchName l)) (deleteMergedR env)) (ret tt);;
     call (storePastMemory
             (lit "Merged PR #" ++ numStr pr ++ lit ": " ++ dq
              ++ title (iterationPlan l) ++ dq ++ sp ++ emdash
              ++ lit " CI passed and change is now on main."))
          (storeMergedR env);;
     coverage ← call getCoverage (coverageR env);
     match coverage with
     | Some (c :: cs) =>
         call (storePastMemory (lit "Post-merge coverage report:" ++ nl ++ (c :: cs)))
              (storeCoverageR env)
     | _ => ret tt
     end
   else ret tt);;
  ret l.

(** [iterate()]: the trace of one iteration and what it returned. *)
Definition iterate (env : Env) : M bool :=
  l ← finally (tryBlock env) (call resetWorkspace (resetR env));
  (if negb (merged l) then
     let planTitle := title (iterationPlan l) in
     match prNumber l with
     | Some pr =>
         call (closePR pr) (closeR env);;
         tryCatch (call (deleteRemoteBranch (branchName l)) (deleteClosedR env)) (ret tt);;
         call (storePastMemory
                 (lit "Closed PR #" ++ numStr pr ++ lit ": " ++ dq ++ planTitle ++ dq
                  ++ sp ++ emdash ++ sp ++ outcome l))
              (storeGaveUpR env)
     | None =>
         call (storePastMemory
                 (lit "Gave up on " ++ dq ++ planTitle ++ dq
                  ++ sp ++ emdash ++ sp ++ outcome l))
              (storeGaveUpR env)
     end
   else ret tt);;
  reflection ← call (reflect (outcome l)) (reflectR env);
  call (storePastMemory (lit "Self-reflection: " ++ reflection)) (storeReflectionR env);;
  call writeIterationLog (writeLogR env);;
  ret (merged l).

(** The trace of an iteration under an environment. *)
Definition traceOf (env : Env) : list Event := (iterate env []).1.

Definition isMerge (e : Event) : Prop :=
  exists pr, e = Call_ok (mergePR pr) \/ e = Call_threw (mergePR pr).

(** Every call of [mergePR] in the trace comes after a verdict
    [passed = true] of [awaitChecks]. *)
Definition mergeGated (tr : list Event) : Prop :=
  forall i e, tr !! i = Some e -> isMerge e ->
  exists j, (j < i)%nat /\ tr !! j = Some (Checks true).

(** *** A small logic for the merge gate *)

Definition passedSeen (tr : list Event) : Prop := Checks true ∈ tr.

(** [seen b]: if [b] then a passing verdict is in the trace. *)
Definition seen (b : bool) (tr : list Event) : Prop := b = true -> passedSeen tr.

Definition isMergeCall (c : Call) : bool :=
  match c with mergePR _ => true | _ => false end.

(** [safe b m post]: started on a gated trace on which [seen b] holds, [m]
    only extends the trace, keeps it gated, and when it returns [a] then
    [seen (post a)] holds. *)
Definition safe {A} (b : bool) (m : M A) (post : A -> bool) : Prop :=
  forall tr, mergeGated tr -> seen b tr ->
    (exists evs, (m tr).1 = tr ++ evs) /\
    mergeGated (m tr).1 /\
    forall a, (m tr).2 = Done a -> seen (post a) (m tr).1.

Lemma seen_app b tr evs : seen b tr -> seen b (tr ++ evs).
Proof. unfold seen, passedSeen. intros H Hb. apply elem_of_app. left. auto. Qed.

Lemma mergeGated_nil : mergeGated [].
Proof. intros i e H. done. Qed.

Lemma mergeGated_snoc tr e :
  mergeGated tr -> (isMerge e -> passedSeen tr) -> mergeGated (tr ++ [e]).
Proof.
  intros Hg He i e' Hl Hm.
  apply lookup_app_Some in Hl as [Hl|[Hge Hl]].
  - destruct (Hg i e' Hl Hm) as (j & Hj & Hlj). exists j. split; [done|].
    apply lookup_app_l_Some. done.
  - apply list_lookup_singleton_Some in Hl as [Hi <-].
    pose proof (He Hm) as Hin. apply list_elem_of_lookup_1 in Hin as [j Hj].
    exists j. split.
    + apply lookup_lt_Some in Hj. lia.
    + by apply lookup_app_l_Some.
Qed.

Lemma isMerge_call c :
  (isMerge (Call_ok c) \/ isMerge (Call_threw c)) -> isMergeCall c = true.
Proof. intros [(pr & [H|H])|(pr & [H|H])]; by inversion H. Qed.

Lemma safe_ret {A} b (a : A) (post : A -> bool) :
  (post a = true -> b = true) -> safe b (ret a) post.
Proof.
  intros Hp tr Hg Hs. cbn. split; [exists []; by rewrite app_nil_r|].
  split; [done|]. intros a' [= <-] Hpa. auto.
Qed.

Lemma safe_wait {A} b (post : A -> bool) : safe b wait post.
Proof.
  intros tr Hg Hs. cbn. split; [exists []; by rewrite app_nil_r|]. done.
Qed.

Lemma safe_throw {A} b (post : A -> bool) : safe b throw post.
Proof.
  intros tr Hg Hs. cbn. split; [exists []; by rewrite app_nil_r|]. done.
Qed.

Lemma safe_call {A} b c (reply : Reply A) (post : A -> bool) :
  (isMergeCall c = true -> b = true) ->
  (forall a, post a = true -> b = true) ->
  safe b (call c reply) post.
Proof.
  intros Hc Hp tr Hg Hs. unfold call. destruct reply as [a|]; cbn.
  - split; [eauto|]. split.
    + apply mergeGated_snoc; [done|]. intros Hm. apply Hs, Hc, isMerge_call. auto.
    + intros a' [= <-]. apply seen_app. intros Hpa. apply Hs. eauto.
  - split; [eauto|]. split; [|done].
    apply mergeGated_snoc; [done|]. intros Hm. apply Hs, Hc, isMerge_call. auto.
Qed.

Lemma safe_checks b (reply : Reply CheckResult) :
  safe b (callAwaitChecks reply) (fun r => passed r).
Proof.
  intros tr Hg Hs. unfold callAwaitChecks. destruct reply as [r|]; cbn.
  - split; [eauto|]. split.
    + apply mergeGated_snoc; [done|]. intros (pr & [H|H]); done.
    + intros a [= <-] Hp. unfold passedSeen. rewrite Hp.
      apply elem_of_app. right. by apply list_elem_of_singleton.
  - split; [eauto|]. split; [|done].
    apply mergeGated_snoc; [done|]. intros (pr & [H|H]); by inversion H.
Qed.

Lemma safe_bind {A B} b (m : M A) (k : A -> M B) mid post :
  safe b m mid -> (forall a, safe (b || mid a) (k a) post) ->
  safe b (m ≫= k) post.
Proof.
  intros Hm Hk tr Hg Hs.
  destruct (Hm tr Hg Hs) as ((evs & He) & Hg' & Hpost).
  unfold mbind, M_bind, bind. destruct (m tr) as [tr' o]. cbn in *. subst tr'.
  destruct o as [a| |]; cbn.
  - destruct (Hk a (tr ++ evs) Hg') as ((evs' & He') & Hg'' & Hpost').
    + intros [Hb|Hb]%orb_true_iff; [by apply (seen_app b)|by apply (Hpost a)].
    + split; [|done]. exists (evs ++ evs'). by rewrite He', app_assoc.
  - split; [eauto|]. done.
  - split; [eauto|]. done.
Qed.

Lemma safe_tryCatch {A} b (m h : M A) post :
  safe b m post -> safe b h post -> safe b (tryCatch m h) post.
Proof.
  intros Hm Hh tr Hg Hs.
  destruct (Hm tr Hg Hs) as ((evs & He) & Hg' & Hpost).
  unfold tryCatch. destruct (m tr) as [tr' o]. cbn in *. subst tr'.
  destruct o as [a| |]; cbn; [by eauto| |by eauto].
  destruct (Hh (tr ++ evs) Hg') as ((evs' & He') & Hg'' & Hpost').
  - by apply seen_app.
  - split; [|done]. exists (evs ++ evs'). by rewrite He', app_assoc.
Qed.

Lemma safe_finally {A} b (m : M A) (f : M unit) post :
  safe b m post -> safe b f (fun _ => false) -> safe b (finally m f) post.
Proof.
  intros Hm Hf tr Hg Hs.
  destruct (Hm tr Hg Hs) as ((evs & He) & Hg' & Hpost).
  unfold finally. destruct (m tr) as [tr' o]. cbn in *. subst tr'.
  assert (Hs' : seen b (tr ++ evs)) by by apply seen_app.
  destruct (Hf (tr ++ evs) Hg' Hs') as ((evs' & He') & Hg'' & _).
  destruct o as [a| |]; cbn; [| |by eauto].
  - unfold mbind, M_bind, bind. destruct (f (tr ++ evs)) as [tr' o]. cbn in *. subst tr'.
    destruct o as [[]| |]; cbn.
    + split; [exists (evs ++ evs'); by rewrite app_assoc|]. split; [done|].
      intros a' [= <-]. apply seen_app. by apply Hpost.
    + split; [exists (evs ++ evs'); by rewrite app_assoc|]. done.
    + split; [exists (evs ++ evs'); by rewrite app_assoc|]. done.
  - unfold mbind, M_bind, bind. destruct (f (tr ++ evs)) as [tr' o]. cbn in *. subst tr'.
    destruct o as [[]| |]; cbn;
      (split; [exists (evs ++ evs'); by rewrite app_assoc|]); done.
Qed.

Lemma safe_pre {A} b b' (m : M A) post :
  safe b m post -> (b = true -> b' = true) -> safe b' m post.
Proof. intros Hm Hb tr Hg Hs. apply Hm; [done|]. intros ?. apply Hs. auto. Qed.

Ltac safe_call_plain := apply (safe_call _ _ _ (fun _ => false)); cbn; done.

Ltac safe_seq :=
  eapply safe_bind;
  [ first [ apply safe_checks | safe_call_plain ] | intros ? ].

Lemma fixLoop_safe plan pr rs : safe false (fixLoop plan pr rs) (fun mo => mo.1).
Proof.
  induction rs as [|r rest IH]; cbn [fixLoop].
  - apply safe_wait.
  - safe_seq. cbn [orb]. destruct (passed _) eqn:Ep.
    + by apply safe_ret.
    + destruct (exhausted r); [by apply safe_ret|].
      safe_seq. cbn [orb].
      eapply (safe_bind _ _ _ (fun _ => false)).
      { apply safe_tryCatch; [|by apply safe_ret].
        safe_seq. by apply safe_ret. }
      intros [[|n]|]; cbn [orb]; [by apply safe_ret| |by apply safe_ret].
      safe_seq. apply IH.
Qed.

Lemma tryBlock_safe env : safe false (tryBlock env) (fun _ => false).
Proof.
  unfold tryBlock.
  do 6 safe_seq.
  eapply safe_bind; [safe_call_plain|intros edits]. cbn [orb].
  eapply (safe_bind _ _ _ (fun l => merged l)).
  { destruct edits as [|n].
    - by apply safe_ret.
    - do 2 safe_seq. cbn [orb].
      eapply safe_bind; [apply fixLoop_safe|]. intros mo. cbn [orb].
      by apply safe_ret. }
  intros l. cbn [orb].
  eapply (safe_bind _ _ _ (fun _ => false)); [|intros; by apply safe_ret].
  destruct (merged l); [|by apply safe_ret].
  eapply safe_bind; [apply (safe_call _ _ _ (fun _ => true)); done|intros ?].
  cbn [orb].
  eapply (safe_bind _ _ _ (fun _ => false)).
  { apply safe_tryCatch; [|by apply safe_ret]. by apply safe_call. }
  intros ?. cbn [orb].
  eapply safe_bind; [by apply (safe_call _ _ _ (fun _ => false))|intros ?].
  eapply safe_bind; [by apply (safe_call _ _ _ (fun _ => false))|intros cov].
  destruct cov as [[|c cs]|]; try by apply safe_ret.
  by apply safe_call.
Qed.

Lemma iterate_safe env : safe false (iterate env) (fun _ => false).
Proof.
  unfold iterate.
  eapply (safe_bind _ _ _ (fun _ => false)).
  { apply safe_finally; [apply tryBlock_safe|by apply safe_call]. }
  intros l. cbn [orb].
  eapply (safe_bind _ _ _ (fun _ => false)).
  { destruct (negb (merged l)); [|by apply safe_ret].
    destruct (prNumber l) as [pr|].
    - safe_seq. eapply (safe_bind _ _ _ (fun _ => false)).
      { apply safe_tryCatch; [|by apply safe_ret]. by apply safe_call. }
      intros ?. by apply safe_call.
    - by apply safe_call. }
  intros ?. do 3 safe_seq. by apply safe_ret.
Qed.

(** C6.  In the trace of one iteration, under any behaviour of the
    environment (every call may return or throw, the fix loop may run any
    number of turns or still be waiting), each call of [mergePR] is
    preceded by an [awaitChecks] of this iteration that returned
    [passed = true]. *)
Theorem merge_only_after_checks_pass (env : Env) : mergeGated (traceOf env).
Proof.
  unfold traceOf.
  destruct (iterate_safe env [] mergeGated_nil) as (_ & H & _); [done|done].
Qed.

(** The happy path: one passing verdict, then the merge. *)
Definition happyEnv : Env :=
  {| snapshotR := Returned tt; contextR := Returned (lit "ctx");
     gitLogR := Returned (lit "log");
     planR := Returned {| title := lit "Add greet"; description := lit "..." |};
     storePlannedR := Returned tt; branchR := Returned (lit "seedgpt/add-greet");
     patchR := Returned 1%nat; pushR := Returned tt; openR := Returned 7;
     rounds := [ {| checksR := Returned {| passed := true; error := None |};
                    exhausted := false; storeFailureR := Returned tt;
                    fixR := Returned 0%nat; pushFixR := Returned tt |} ];
     mergeR := Returned tt; deleteMergedR := Returned tt;
     storeMergedR := Returned tt; coverageR := Returned None;
     storeCoverageR := Returned tt; resetR := Returned tt;
     closeR := Returned tt; deleteClosedR := Returned tt;
     storeGaveUpR := Returned tt; reflectR := Returned (lit "fine");
     storeReflectionR := Returned tt; writeLogR := Returned tt |}.

Example happy_merge :
  (iterate happyEnv []).2 = Done true /\
  traceOf happyEnv !! 9%nat = Some (Checks true) /\
  traceOf happyEnv !! 10%nat = Some (Call_ok (mergePR 7)).
Proof. repeat split; vm_compute; reflexivity. Qed.

End Loop.

(** ** Cost of an exchange (models/Generated.ts, computeCost) *)

Module Cost.

Local Open Scope Q_scope.

(** Dollars per million tokens. *)
Record Pricing := {
  inputRate : Q;
  outputRate : Q;
  cacheWrite5mRate : Q;
  cacheWrite1hRate : Q;
  cacheReadRate : Q
}.

Record CacheCreation := {
  ephemeral_5m_input_tokens : Z;
  ephemeral_1h_input_tokens : Z
}.

(** [ApiUsage], the [usage] object of a response. *)
Record ApiUsage := {
  input_tokens : Z;
  output_tokens : Z;
  cache_read_input_tokens : option Z;
  cache_creation_input_tokens : option Z;
  cache_creation : option CacheCreation
}.

Section ComputeCost.

(** The pricing table and its default entry for unknown models. *)
Variable table : gmap (list N) Pricing.
Variable defaultPricing : Pricing.

Definition pricingOf (model : str) : Pricing :=
  default defaultPricing (table !! model).

(** Modelled from the spec: [computeCost] of models/Generated.ts, of which
    only the tests and the call in src/llm/api.ts are at hand.  The cost
    is read off the model's entry of the pricing table (the default entry
    for an unknown model): uncached input, the 5-minute and 1-hour cache
    writes (all of [cache_creation_input_tokens] at the 5-minute rate
    when there is no breakdown), cache reads and output, each at its rate
    per million tokens; a batch-submitted request receives a 50%
    multiplier on the final cost. *)
Definition computeCost (model : str) (usage : ApiUsage) (batch : bool) : Q :=
  let p := pricingOf model in
  let cacheRead := default 0%Z (cache_read_input_tokens usage) in
  let cacheWrite := default 0%Z (cache_creation_input_tokens usage) in
  let write5m :=
    match cache_creation usage with
    | Some c => ephemeral_5m_input_tokens c
    | None => cacheWrite
    end in
  let write1h :=
    match cache_creation usage with
    | Some c => ephemeral_1h_input_tokens c
    | None => 0%Z
    end in
  let uncached := (input_tokens usage - cacheRead - cacheWrite)%Z in
  let cost :=
    (inject_Z uncached * inputRate p
     + inject_Z write5m * cacheWrite5mRate p
     + inject_Z write1h * cacheWrite1hRate p
     + inject_Z cacheRead * cacheReadRate p
     + inject_Z (output_tokens usage) * outputRate p) / 1000000 in
  if batch then cost * (1 # 2) else cost.

(** C7.  For every pricing table, model id and usage, cache reads and
    writes included, the batch cost is half the regular cost (exactly:
    the model computes over the rationals). *)
Theorem computeCost_batch_half (model : str) (usage : ApiUsage) :
  computeCost model usage true == (1 # 2) * computeCost model usage false.
Proof. unfold computeCost. ring. Qed.

End ComputeCost.

(** The rates the tests exercise. *)
Definition sonnet : Pricing :=
  {| inputRate := 3; outputRate := 15; cacheWrite5mRate := 375 # 100;
     cacheWrite1hRate := 6; cacheReadRate := 30 # 100 |}.

Definition haiku : Pricing :=
  {| inputRate := 1; outputRate := 5; cacheWrite5mRate := 125 # 100;
     cacheWrite1hRate := 2; cacheReadRate := 10 # 100 |}.

Definition testTable : gmap (list N) Pricing :=
  {[ lit "claude-sonnet-4-6" := sonnet; lit "claude-haiku-4-5" := haiku ]}.

(** The default entry: input 5, output 25 as in the tests; its cache
    rates are in the same proportion to the input rate as the two
    entries above. *)
Definition testDefault : Pricing :=
  {| inputRate := 5; outputRate := 25; cacheWrite5mRate := 625 # 100;
     cacheWrite1hRate := 10; cacheReadRate := 50 # 100 |}.

Definition plainUsage (i o : Z) : ApiUsage :=
  {| input_tokens := i; output_tokens := o; cache_read_input_tokens := None;
     cache_creation_input_tokens := None; cache_creation := None |}.

Example cost_sonnet :
  computeCost testTable testDefault (lit "claude-sonnet-4-6")
    (plainUsage 1000000 1000000) false == 3 + 15.
Proof. reflexivity. Qed.

Example cost_unknown_model :
  computeCost testTable testDefault (lit "unknown-model")
    (plainUsage 1000000 1000000) false == 5 + 25.
Proof. reflexivity. Qed.

Example cost_mixed_cache :
  computeCost testTable testDefault (lit "claude-haiku-4-5")
    {| input_tokens := 1000000; output_tokens := 100000;
       cache_read_input_tokens := Some 300000%Z;
       cache_creation_input_tokens := Some 200000%Z;
       cache_creation := Some {| ephemeral_5m_input_tokens := 150000;
                                 ephemeral_1h_input_tokens := 50000 |} |} false
  == (500000 * 1 + 150000 * (125 # 100) + 50000 * 2 + 300000 * (10 # 100)
      + 100000 * 5) / 1000000.
Proof. reflexivity. Qed.

Example cost_batch_sonnet :
  computeCost testTable testDefault (lit "claude-sonnet-4-6")
    (plainUsage 1000000 1000000) true == 9.
Proof. reflexivity. Qed.

End Cost.

(** ** The gateway (src/llm/api.ts) *)

Module Api.

Inductive Phase := planner | builder | fixer | reflect | memory.

#[export] Instance Phase_eq_dec : EqDecision Phase.
Proof. solve_decision. Defined.

(** [config.phases[phase]] and [config.context.thinkingBudget]. *)
Record PhaseConfig := { model : str; maxTokens : Z }.

Record Config := {
  phases : Phase -> PhaseConfig;
  thinkingBudget : Z
}.

(** [Anthropic.TextBlockParam]; [cache_control] is the ephemeral marker. *)
Record TextBlockParam := { text : str; cache_control : bool }.

Definition THINKING_PHASES : list Phase := [planner; builder; fixer; reflect].
Definition MIN_OUTPUT_TOKENS : Z := 2048.

Section BuildParams.

(** Messages and tool definitions are passed through as they are. *)
Variables MessageParam Tool : Type.

(** The prompt and tools of [PHASE_EXTRAS]. *)
Record PhaseExtras := { systemPrompt : str; extraTools : option (list Tool) }.

(** What the awaited helpers return while the parameters are built. *)
Record Sources := {
  prepareAndBuildContext : str;          (* working context *)
  getCodebaseContext : str;
  getLatestMainCoverage : option str;
  getRecentLog : str;
  getMemoryContext : str;
  findUnusedFunctions : option str
}.

(** [Anthropic.MessageCreateParamsNonStreaming], the fields that are set;
    [thinking] holds [budget_tokens] when thinking is enabled. *)
Record Params := {
  p_model : str;
  max_tokens : Z;
  system : list TextBlockParam;
  messages : list MessageParam;
  tools : option (list Tool);
  thinking : option Z
}.

Variable config : Config.
Variable PHASE_EXTRAS : Phase -> PhaseExtras.

Definition plain (t : str) : TextBlockParam := {| text := t; cache_control := false |}.
Definition marked (t : str) : TextBlockParam := {| text := t; cache_control := true |}.

(** A string is truthy when it is not empty. *)
Definition truthy (o : option str) : option str :=
  match o with Some (c :: cs) => Some (c :: cs) | _ => None end.

Definition systemBlocks (phase : Phase) (src : Sources) : list TextBlockParam :=
  let extras := PHASE_EXTRAS phase in
  let workingContext :=
    if bool_decide (phase <> memory) then Some (prepareAndBuildContext src) else None in
  (if bool_decide (phase = builder \/ phase = fixer \/ phase = planner)
   then [plain (systemPrompt extras);
         marked (nl ++ nl ++ getCodebaseContext src)]
   else [marked (systemPrompt extras)])
  ++ (if bool_decide (phase = planner) then
        match truthy (getLatestMainCoverage src) with
        | Some coverage =>
            [plain (nl ++ nl ++ lit "## Code Coverage (last CI run on main)"
                    ++ nl ++ coverage)]
        | None => []
        end
        ++ [plain (nl ++ nl ++ lit "Recent git log:" ++ nl ++ getRecentLog src)]
        ++ [plain (nl ++ nl ++ getMemoryContext src)]
        ++ match truthy (findUnusedFunctions src) with
           | Some unused =>
               [plain (nl ++ nl ++ lit "## Unused Functions" ++ nl ++ unused)]
           | None => []
           end
      else [])
  ++ match truthy workingContext with
     | Some w => [plain (nl ++ nl ++ w)]
     | None => []
     end.

Definition buildParams (phase : Phase) (msgs : list MessageParam)
    (tools : option (list Tool)) (src : Sources) : Params :=
  let '{| model := model; maxTokens := maxTokens |} := phases config phase in
  let extras := PHASE_EXTRAS phase in
  let allTools := default [] (extraTools extras) ++ default [] tools in
  let useThinking := bool_decide (phase ∈ THINKING_PHASES) in
  let thinkingBudget := Z.min (thinkingBudget config) (maxTokens - MIN_OUTPUT_TOKENS) in
  let effectiveMaxTokens :=
    if useThinking then (maxTokens + thinkingBudget)%Z else maxTokens in
  {| p_model := model;
     max_tokens := effectiveMaxTokens;
     system := systemBlocks phase src;
     messages := msgs;
     tools := if bool_decide (0 < length allTools)%nat then Some allTools else None;
     thinking := if useThinking then Some thinkingBudget else None |}.

(** C8.  For the planner, builder, fixer and reflect phases the request
    enables thinking with [budget_tokens = min(configured, maxTokens - 2048)]
    and asks for [maxTokens] plus that budget; for the memory phase
    thinking is not enabled and [max_tokens] is the phase's [maxTokens]. *)
Theorem buildParams_thinking (phase : Phase) (msgs : list MessageParam)
    (tools : option (list Tool)) (src : Sources) :
  let p := buildParams phase msgs tools src in
  let maxTokens := maxTokens (phases config phase) in
  let budget := Z.min (thinkingBudget config) (maxTokens - 2048) in
  match phase with
  | planner | builder | fixer | reflect =>
      thinking p = Some budget /\ max_tokens p = (maxTokens + budget)%Z
  | memory =>
      thinking p = None /\ max_tokens p = maxTokens
  end.
Proof.
  unfold buildParams. destruct (phases config phase) as [m mt]. cbn.
  destruct phase; by vm_compute bool_decide.
Qed.

End BuildParams.

(** *** Thinking signatures *)

(** A JSON value. *)
#[local] Unset Elimination Schemes.
Inductive JSValue :=
| JNull
| JBool (b : bool)
| JNum (n : Z)
| JStr (s : str)
| JArr (items : list JSValue)
| JObj (fields : list (string * JSValue)).
#[local] Set Elimination Schemes.

(** A content block: a JavaScript object, its own properties by name. *)
Abbreviation ContentBlock := (gmap string JSValue).

(** [block.type === 'thinking'] *)
Definition isThinking (block : ContentBlock) : bool :=
  match block !! "type"%string with
  | Some (JStr t) => bool_decide (t = lit "thinking")
  | _ => false
  end.

(** [const { signature: _, ...rest } = block; return rest] for a thinking
    block, the block itself otherwise. *)
Definition stripBlock (block : ContentBlock) : ContentBlock :=
  if isThinking block then base.delete "signature"%string block else block.

Definition stripThinkingSignatures (content : list ContentBlock) : list ContentBlock :=
  map stripBlock content.

(** C10.  Position by position, [stripThinkingSignatures] returns a block
    of another type as it is (a [signature] field included), and for a
    thinking block the same fields with the same values except that
    [signature] is gone. *)
Theorem strip_only_thinking_signature (content : list ContentBlock) (i : nat) :
  match content !! i, stripThinkingSignatures content !! i with
  | Some block, Some block' =>
      if isThinking block
      then forall k : string,
             block' !! k = if bool_decide (k = "signature"%string) then None
                           else block !! k
      else block' = block
  | None, None => True
  | _, _ => False
  end.
Proof.
  unfold stripThinkingSignatures. rewrite list_lookup_fmap.
  destruct (content !! i) as [block|]; cbn; [|done].
  unfold stripBlock. destruct (isThinking block); [|done].
  intros k. case_bool_decide as Hk.
  - subst k. apply lookup_delete_eq.
  - by apply lookup_delete_ne.
Qed.

Definition thinkingBlock : ContentBlock :=
  {[ "type"%string := JStr (lit "thinking");
     "thinking"%string := JStr (lit "some thought");
     "signature"%string := JStr (lit "abc123") ]}.

Definition textBlock : ContentBlock :=
  {[ "type"%string := JStr (lit "text");
     "text"%string := JStr (lit "hello");
     "signature"%string := JStr (lit "shouldStay") ]}.

Example strip_thinking_and_text :
  stripThinkingSignatures [thinkingBlock; textBlock]
  = [ {[ "type"%string := JStr (lit "thinking");
         "thinking"%string := JStr (lit "some thought") ]};
      textBlock ].
Proof. vm_compute. reflexivity. Qed.

Example strip_thinking_without_signature :
  stripBlock {[ "type"%string := JStr (lit "thinking");
                "thinking"%string := JStr (lit "some thought") ]}
  = {[ "type"%string := JStr (lit "thinking");
       "thinking"%string := JStr (lit "some thought") ]}.
Proof. vm_compute. reflexivity. Qed.

End Api.

(** ** The regular-expression fallback of recall (src/agents/memory.ts) *)

Module Recall.

Import Memory.

(** The class [[.*+?^${}()|[\]\\]] of the [replace] in [recall]. *)
Definition special : str := lit ".*+?^${}()|[]\".

Definition isSpecial (c : N) : bool := bool_decide (c ∈ special).

(** [query.replace(/[.*+?^${}()|[\]\\]/g, '\\$&')]: a backslash goes in
    front of every code unit of the class. *)
Definition escapeRegExp (query : str) : str :=
  flat_map (fun c => if isSpecial c then [92%N; c] else [c]) query.

(** The syntax characters of the pattern grammar
    ([^ $ \ . * + ? ( ) [ ] { } |]).  Outside a class every other
    code unit is a pattern character that matches itself, and a backslash
    followed by a syntax character is an identity escape that matches
    that character. *)
Definition syntaxCharacters : list N :=
  [94; 36; 92; 46; 42; 43; 63; 40; 41; 91; 93; 123; 125; 124]%N.

Definition isSyntaxCharacter (c : N) : bool := bool_decide (c ∈ syntaxCharacters).

(** The text a pattern stands for when all its atoms are pattern
    characters and identity escapes of syntax characters; [None] for any
    other pattern (operators, classes, groups, other escapes, or a
    pattern the constructor rejects, such as a trailing backslash). *)
Fixpoint literalOf (pattern : str) : option str :=
  match pattern with
  | [] => Some []
  | c :: rest =>
      if bool_decide (c = 92%N) then
        match rest with
        | d :: rest' =>
            if isSyntaxCharacter d then cons d <$> literalOf rest' else None
        | [] => None
        end
      else if isSyntaxCharacter c then None
      else cons c <$> literalOf rest
  end.

Section Fallback.

(** The case folding the engine applies under the [i] flag. *)
Variable canonicalize : N -> N.

Fixpoint startsWithI (search s : str) : bool :=
  match search, s with
  | [], _ => true
  | _ :: _, [] => false
  | x :: search', y :: s' =>
      bool_decide (canonicalize x = canonicalize y) && startsWithI search' s'
  end.

(** [text] contains [search], case-insensitively. *)
Fixpoint containsI (search text : str) : bool :=
  startsWithI search text
  || match text with
     | [] => false
     | _ :: text' => containsI search text'
     end.

(** [{ $or: [{ summary: new RegExp(pattern, 'i') },
             { content: new RegExp(pattern, 'i') }] }] on a document, for a
    pattern of the literal fragment; [None] stands for the error of a
    pattern outside it. *)
Definition regexMatches (pattern : str) (m : MemoryItem) : option bool :=
  text ← literalOf pattern;
  Some (containsI text (summary m) || containsI text (content m)).

(** The filter of the second query goes to the server as BSON, in which
    the source of a regular expression is a C string in UTF-8: the driver
    refuses to encode a pattern that contains U+0000, and the query
    throws; a surrogate without its pair is sent as U+FFFD. *)
Definition bsonRegExp (pattern : str) : option str :=
  if bool_decide (0%N ∈ pattern) then None else Some (toWellFormed pattern).

(** The second query of [recall]: [find({$or: ...}).sort({createdAt: -1})
    .limit(5)]; [None] when it throws. *)
Definition regexFallback (query : str) (db : Store) : option (list Doc) :=
  let escaped := escapeRegExp query in
  text ← literalOf escaped;
  encoded ← bsonRegExp escaped;
  Some (take 5 (sortNewestFirst
                  (filter (fun d : Doc => regexMatches encoded d.2 = Some true)
                          (docs db)))).



End Fallback.












Section FallbackFacts.

Variable canonicalize : N -> N.





End FallbackFacts.

(** ASCII case folding, for the examples. *)
Definition upperAscii (c : N) : N :=
  if ((97 <=? c) && (c <=? 122))%N then (c - 32)%N else c.

Example escape_metacharacters :
  escapeRegExp (lit "a.b*c (x) [y] {z} ^$ | +?")
  = lit "a\.b\*c \(x\) \[y\] \{z\} \^\$ \| \+\?".
Proof. reflexivity. Qed.

Example fallback_finds_literal_dot :
  let db := storePastMemory (lit "see file a.ts") (says "note") 2000
              (storePastMemory (lit "see file abts") (says "other") 1000 []) in
  (fun hits : list Doc => hits.*1) <$> regexFallback upperAscii (lit "A.TS") db
  = Some [1%nat].
Proof. vm_compute. reflexivity. Qed.



End Recall.

(** ** More of the memory service (src/agents/memory.ts) *)

Module MemoryLife.

Import Memory.


(** [find({ ideaStatus: { $in: ['pending', 'attempted'] } })
      .sort({ createdAt: -1 })] *)
Definition activeIdeas (db : Store) : list Doc :=
  sortNewestFirst
    (filter (fun d : Doc => ideaStatus d.2 = Some pending \/
                            ideaStatus d.2 = Some attempted) (docs db)).

Definition getIdeasLine (idea : Doc) : str :=
  let statusBadge :=
    if bool_decide (ideaStatus idea.2 = Some pending)
    then lit "[PENDING]" else lit "[ATTEMPTED]" in
  let context :=
    match ideaContext idea.2 with
    | Some (c :: cs) => nl ++ lit "  Context: " ++ (c :: cs)
    | _ => []
    end in
  lit "- " ++ statusBadge ++ lit " (" ++ idString idea.1 ++ lit ") "
    ++ summary idea.2 ++ context.

Definition noActiveIdeas : str := lit "No active ideas.".

Definition getIdeas (db : Store) : str :=
  let ideas := activeIdeas db in
  if bool_decide (length ideas = 0%nat) then noActiveIdeas
  else join nl (map getIdeasLine ideas).

(** The operations that create a document. *)
Definition creates (op : Op) : bool :=
  match op with
  | StorePast _ _ _ | StorePinned _ _ _ | StoreIdea _ _ _ _ => true
  | Unpin _ _ | UpdateIdeaStatus _ _ _ => false
  end.

(** *** What never changes in a stored document *)

Lemma step_keeps db op id m :
  db !! id = Some m ->
  exists m', step db op !! id = Some m' /\
    content m' = content m /\ summary m' = summary m /\
    createdAt m' = createdAt m /\ ideaContext m' = ideaContext m /\
    (ideaStatus m' = None <-> ideaStatus m = None).
Proof.
  intros Hl.
  destruct op; cbn [step]; unfold storePastMemory, storePinnedMemory, storeIdea,
    unpinMemory, updateIdeaStatus, create, save, findById; cbn [snd].
  1-3: exists m; split; [by apply lookup_app_l_Some|done].
  - destruct (db !! id0) as [m0|] eqn:E0; cbn [snd]; [|by exists m].
    destruct (pinned m0); cbn [negb snd]; [|by exists m].
    destruct (decide (id0 = id)) as [->|Hne].
    + rewrite Hl in E0. injection E0 as <-. eexists.
      rewrite list_lookup_insert_eq by by eapply lookup_lt_Some. done.
    + exists m. by rewrite list_lookup_insert_ne.
  - destruct (db !! id0) as [m0|] eqn:E0; cbn [snd]; [|by exists m].
    destruct (ideaStatus m0) as [s0|] eqn:Es; cbn [snd]; [|by exists m].
    destruct (decide (id0 = id)) as [->|Hne].
    + rewrite Hl in E0. injection E0 as <-. eexists.
      rewrite list_lookup_insert_eq by by eapply lookup_lt_Some.
      split; [done|]. cbn. rewrite Es. done.
    + exists m. by rewrite list_lookup_insert_ne.
Qed.

Lemma run_app ops1 ops2 : run (ops1 ++ ops2) = foldl step (run ops1) ops2.
Proof. unfold run. by rewrite foldl_app. Qed.

(** X1: a stored document keeps its id, content, summary, creation time
    and idea context for ever, and never changes between being an idea
    and not being one. *)
Theorem memory_item_immutable (ops1 ops2 : list Op) (id : nat) (m : MemoryItem) :
  run ops1 !! id = Some m ->
  exists m', run (ops1 ++ ops2) !! id = Some m' /\
    content m' = content m /\ summary m' = summary m /\
    createdAt m' = createdAt m /\ ideaContext m' = ideaContext m /\
    (ideaStatus m' = None <-> ideaStatus m = None).
Proof.
  rewrite run_app. generalize (run ops1). intros db. revert db m.
  induction ops2 as [|op ops2 IH]; intros db m Hl; cbn [foldl].
  - exists m. done.
  - destruct (step_keeps db op id m Hl) as (m1 & H1 & Hc & Hs & Ht & Hi & Hk).
    destruct (IH _ _ H1) as (m' & H' & Hc' & Hs' & Ht' & Hi' & Hk').
    exists m'. split; [done|]. rewrite Hc', Hs', Ht', Hi', Hk'. done.
Qed.

Lemma memory_item_immutable_witness :
  let ops1 := [StoreIdea (lit "Add retry logic") (lit "fewer failures") (says "retry") 1000] in
  let ops2 := [UpdateIdeaStatus 0 toCompleted 2000; StorePast (lit "x") (says "y") 3000] in
  let m := {| content := lit "Add retry logic"; summary := lit "retry";
              pinned := true; ideaStatus := Some pending;
              ideaContext := Some (lit "fewer failures");
              createdAt := 1000; updatedAt := 1000 |} in
  exists m', run (ops1 ++ ops2) !! 0%nat = Some m' /\
    content m' = content m /\ summary m' = summary m /\
    createdAt m' = createdAt m /\ ideaContext m' = ideaContext m /\
    (ideaStatus m' = None <-> ideaStatus m = None).
Proof.
  intros ops1 ops2 m. apply (memory_item_immutable ops1 ops2 0 m). reflexivity.
Defined.

Lemma step_length_exact db op :
  length (step db op) = (length db + (if creates op then 1 else 0))%nat.
Proof.
  destruct op; cbn [step creates]; unfold storePastMemory, storePinnedMemory,
    storeIdea, unpinMemory, updateIdeaStatus, create, save, findById; cbn [snd].
  1-3: rewrite length_app; simpl; lia.
  - destruct (db !! id); [|cbn; lia]. destruct (negb _); cbn [snd];
      rewrite ?length_insert; lia.
  - destruct (db !! id) as [m|]; [|cbn; lia]. destruct (ideaStatus m); cbn [snd];
      rewrite ?length_insert; lia.
Qed.

(** X2: documents are created by the three store operations only, one
    each: the collection holds as many documents as the history has store
    operations, so [unpin] and [updateIdeaStatus] never add or remove one. *)
Theorem store_size (ops : list Op) :
  length (run ops) = length (filter (fun op => creates op = true) ops).
Proof.
  induction ops as [|op ops IH] using rev_ind; [done|].
  rewrite run_snoc, step_length_exact, IH, filter_app, length_app.
  destruct (creates op) eqn:E.
  - rewrite filter_cons_True by done. cbn. lia.
  - rewrite filter_cons_False by (rewrite E; done). cbn. lia.
Qed.

(** *** A note that is stored and then dismissed *)


(** *** Order *)

#[local] Instance newerFirst_total : Total newerFirst.
Proof. intros a b. unfold newerFirst. lia. Qed.

#[local] Instance newerFirst_trans : Transitive newerFirst.
Proof. intros a b c. unfold newerFirst. lia. Qed.

Lemma StronglySorted_filter_keep {A} (R : relation A) (P : A -> Prop)
    `{!forall x, Decision (P x)} (l : list A) :
  StronglySorted R l -> StronglySorted R (filter P l).
Proof.
  induction 1 as [|x l Hs IH Hall]; [constructor|].
  rewrite filter_cons. case_decide; [|done].
  constructor; [done|].
  apply Forall_forall. intros y [_ Hy]%list_elem_of_filter.
  rewrite Forall_forall in Hall. auto.
Qed.

(** X4: the notes, the ideas and the candidates of [## Past] are each in
    order of creation, newest first: no document comes before one that
    was created later. *)
Theorem sections_newest_first (db : Store) :
  StronglySorted newerFirst (notes db) /\
  StronglySorted newerFirst (ideas db) /\
  StronglySorted newerFirst (recent db).
Proof.
  unfold notes, ideas, recent, pinnedMemories, sortNewestFirst.
  repeat split; try apply StronglySorted_filter_keep;
    apply StronglySorted_merge_sort; apply _.
Qed.

(** The value of [pastTokens] once the lines of [ds] have been added. *)
Definition pastTokensAfter (ds : list Doc) : Z :=
  foldl (fun pastTokens d => pastTokens + estimateTokens (pastLine d ++ nl))
        (estimateTokens pastHeader) ds.

Lemma pastKept_stops budget used rs : forall pT,
  let after (ds : list Doc) :=
    foldl (fun pastTokens d => pastTokens + estimateTokens (pastLine d ++ nl)) pT ds in
  exists rest, rs = pastKept budget used pT rs ++ rest /\
    (pastKept budget used pT rs = [] \/
     used + after (pastKept budget used pT rs) <= budget) /\
    match rest with
    | [] => True
    | next :: _ =>
        used + after (pastKept budget used pT rs)
        + estimateTokens (pastLine next ++ nl) > budget
    end.
Proof.
  induction rs as [|m rest IH]; intros pT after; cbn [pastKept].
  - exists []. split; [done|]. split; [by left|done].
  - case_bool_decide as Hfit.
    + exists (m :: rest). split; [done|]. split; [by left|]. subst after. cbn. lia.
    + destruct (IH (pT + estimateTokens (pastLine m ++ nl)))
        as (rest' & Hsplit & Hfits & Hnext).
      exists rest'. split; [cbn; by rewrite <- Hsplit|].
      subst after. cbn [foldl]. split; [|done]. right.
      destruct Hfits as [->|Hfits]; [cbn; lia|done].
Qed.

(** X5: the [## Past] section of [getContext] is rendered from an
    initial stretch of the unpinned non-idea memories taken newest first,
    and from the longest one that fits: the lines shown fit the budget
    together with the header and what the pinned sections used, and the
    loop stops only at the end of the list, at the first line that does
    not fit, or when no budget remains; it never skips a line to add an
    older memory. *)
Theorem pastShown_prefix (budget : Z) (db : Store) :
  let used := tokensUsed (afterPinned budget db) in
  let shown := pastShown budget db in
  sections (addPast budget db (afterPinned budget db))
  = sections (afterPinned budget db)
    ++ match shown with
       | [] => []
       | _ => [pastHeader ++ join nl (map pastLine shown)]
       end /\
  exists rest, recent db = shown ++ rest /\
    (shown = [] \/ used + pastTokensAfter shown <= budget) /\
    match rest with
    | [] => True
    | next :: _ =>
        budget - used <= 0 \/ used + pastTokensAfter (shown ++ [next]) > budget
    end.
Proof.
  intros used shown. subst shown. split.
  { unfold addPast. rewrite pastLines_shown. unfold pastShown.
    case_bool_decide; [|symmetry; apply app_nil_r].
    destruct (pastKept _ _ _ _); [symmetry; apply app_nil_r|].
    by rewrite bool_decide_eq_true_2 by (cbn; lia). }
  unfold pastShown. fold used.
  case_bool_decide as Hrem.
  - destruct (pastKept_stops budget used (recent db) (estimateTokens pastHeader))
      as (rest & Hsplit & Hfits & Hnext).
    exists rest. split; [done|]. split; [done|].
    destruct rest as [|next rest']; [done|]. right.
    unfold pastTokensAfter. rewrite foldl_app. cbn [foldl]. lia.
  - exists (recent db). split; [done|]. split; [by left|].
    destruct (recent db); [done|]. left. lia.
Qed.

(** *** getIdeas *)

Lemma activeIdeas_elem db d :
  d ∈ activeIdeas db <-> db !! d.1 = Some d.2 /\ isActiveIdea d.2.
Proof.
  unfold activeIdeas, isActiveIdea.
  rewrite sortNewestFirst_elem, list_elem_of_filter, docs_lookup. tauto.
Qed.

Lemma join_cons_head sep (p : str) ps c :
  head p = Some c -> head (join sep (p :: ps)) = Some c.
Proof.
  destruct p as [|x p]; [done|]. intros [= ->]. by destruct ps.
Qed.

(** X6: [getIdeas] answers "No active ideas." exactly when no stored
    document has status pending or attempted; whether the document is
    pinned plays no part. *)
Theorem getIdeas_none (db : Store) :
  getIdeas db = noActiveIdeas <->
  forall id m, db !! id = Some m -> ~ isActiveIdea m.
Proof.
  unfold getIdeas. case_bool_decide as Hlen.
  - split; [intros _|done]. intros id m Hl Ha.
    assert (Hin : (id, m) ∈ activeIdeas db) by by apply activeIdeas_elem.
    destruct (activeIdeas db); [by apply elem_of_nil in Hin|done].
  - split.
    + intros Heq. exfalso.
      destruct (activeIdeas db) as [|d ds]; [done|].
      assert (Hh : head (join nl (map getIdeasLine (d :: ds))) = Some 45%N).
      { cbn [map]. apply join_cons_head. reflexivity. }
      rewrite Heq in Hh. vm_compute in Hh. discriminate.
    + intros Hno. exfalso. destruct (activeIdeas db) as [|d ds] eqn:E; [done|].
      assert (Hin : d ∈ activeIdeas db) by (rewrite E; by left).
      apply activeIdeas_elem in Hin as [Hl Ha]. by destruct (Hno _ _ Hl).
Qed.


(** *** Summaries *)

Lemma trimStart_head s c : head (trimStart s) = Some c -> isWhiteSpace c = false.
Proof.
  induction s as [|x s IH]; cbn [trimStart]; [done|].
  destruct (isWhiteSpace x) eqn:E; [done|]. by intros [= <-].
Qed.

Lemma trimStart_last s c : last (trimStart s) = Some c -> last s = Some c.
Proof.
  induction s as [|x s IH]; cbn [trimStart]; [done|].
  destruct (isWhiteSpace x); [|done]. intros H. specialize (IH H).
  destruct s; [done|]. done.
Qed.

Lemma trimStart_length s : (length (trimStart s) <= length s)%nat.
Proof.
  induction s as [|x s IH]; cbn [trimStart]; [done|].
  destruct (isWhiteSpace x); simpl; lia.
Qed.

Lemma trim_head s c : head (trim s) = Some c -> isWhiteSpace c = false.
Proof.
  unfold trim. rewrite head_reverse. intros H%trimStart_last.
  rewrite last_reverse in H. by apply trimStart_head in H.
Qed.

Lemma trim_last s c : last (trim s) = Some c -> isWhiteSpace c = false.
Proof. unfold trim. rewrite last_reverse. apply trimStart_head. Qed.

Lemma trim_length s : (length (trim s) <= length s)%nat.
Proof.
  unfold trim. rewrite length_reverse.
  etrans; [apply trimStart_length|]. rewrite length_reverse. apply trimStart_length.
Qed.

(** X8: whatever the model answers, a summary neither starts nor ends
    with white space. *)
Theorem summary_trimmed (text : str) (response : list ResponseBlock) (c : N) :
  (head (summarizeMemory text response) = Some c \/
   last (summarizeMemory text response) = Some c) ->
  isWhiteSpace c = false.
Proof.
  unfold summarizeMemory. intros [H|H]; [by eapply trim_head|by eapply trim_last].
Qed.

Lemma summary_trimmed_witness : isWhiteSpace 104%N = false.
Proof.
  apply (summary_trimmed (lit "  hello world ") [] 104%N). left. reflexivity.
Defined.

(** X9: when the response has no text block, the summary is taken from
    the content and has at most 200 code units. *)
Theorem summary_fallback_short (text : str) (response : list ResponseBlock) :
  Forall (fun b => blockType b <> lit "text") response ->
  summarizeMemory text response = trim (take 200 text) /\
  (length (summarizeMemory text response) <= 200)%nat.
Proof.
  intros Hall. unfold summarizeMemory, slice0.
  assert (Hf : List.find (fun c => bool_decide (blockType c = lit "text")) response = None).
  { induction Hall as [|b bs Hb _ IH]; [done|]. cbn [List.find].
    by rewrite bool_decide_eq_false_2. }
  rewrite Hf. cbn. split; [done|].
  etrans; [apply trim_length|]. rewrite length_take. lia.
Qed.

Lemma summary_fallback_short_witness :
  summarizeMemory (lit "  hello world ")
    [ {| blockType := lit "thinking"; blockText := None |} ]
  = trim (take 200 (lit "  hello world ")) /\
  (length (summarizeMemory (lit "  hello world ")
             [ {| blockType := lit "thinking"; blockText := None |} ]) <= 200)%nat.
Proof.
  apply (summary_fallback_short (lit "  hello world ")
           [ {| blockType := lit "thinking"; blockText := None |} ]).
  repeat constructor. discriminate.
Defined.

End MemoryLife.

(** ** More of the source-control adapter (tools/git.ts) *)

Module GitMore.

Import Git.

(** *** createBranch *)

(** [s.replace(/\s+/g, '-')]: every maximal run of white space becomes
    one dash; [inRun] tells that the previous code unit was white space. *)
Fixpoint dashRuns (inRun : bool) (s : str) : str :=
  match s with
  | [] => []
  | c :: r =>
      if isWhiteSpace c then
        if inRun then dashRuns true r else 45%N :: dashRuns true r
      else c :: dashRuns false r
  end.

(** The class [[a-z0-9-/]]. *)
Definition branchChar (c : N) : bool :=
  ((97 <=? c) && (c <=? 122))%N || ((48 <=? c) && (c <=? 57))%N
  || (c =? 45)%N || (c =? 47)%N.

Section CreateBranch.

(** [String.prototype.toLowerCase]. *)
Variable toLowerCase : str -> str.

(** The name [createBranch] computes. *)
Definition branchNameOf (name : str) : str :=
  lit "seedgpt/"
    ++ slice0 60 (List.filter branchChar (dashRuns false (toLowerCase name))).

(** [createBranch]: the name, when [git.checkoutLocalBranch] succeeds. *)
Definition createBranch (name : str) (checkout : bool) : option str :=
  if checkout then Some (branchNameOf name) else None.

(** X10: a branch made by [createBranch] has the agent prefix, at most 68
    code units, and after the prefix only lower-case letters, digits,
    dashes and slashes. *)
Theorem createBranch_name (name : str) (checkout : bool) (branch : str) :
  createBranch name checkout = Some branch ->
  exists rest, branch = lit "seedgpt/" ++ rest /\
    (length rest <= 60)%nat /\ (length branch <= 68)%nat /\
    Forall (fun c => branchChar c = true) rest.
Proof.
  unfold createBranch, branchNameOf, slice0. destruct checkout; [|done].
  intros [= <-]. eexists. split; [reflexivity|].
  split; [rewrite length_take; lia|]. split.
  - cbn [length app]. rewrite ?length_app, length_take. cbn [length]. lia.
  - apply Forall_take. apply Forall_forall. intros c Hc.
    apply list_elem_of_In, filter_In in Hc. tauto.
Qed.

End CreateBranch.

(** ASCII lower-casing, for the examples. *)
Definition lowerAscii (s : str) : str :=
  map (fun c => if ((65 <=? c) && (c <=? 90))%N then (c + 32)%N else c) s.

Lemma createBranch_name_witness :
  exists rest, lit "seedgpt/add-greet-v2" = lit "seedgpt/" ++ rest /\
    (length rest <= 60)%nat /\ (length (lit "seedgpt/add-greet-v2") <= 68)%nat /\
    Forall (fun c => branchChar c = true) rest.
Proof.
  apply (createBranch_name lowerAscii (lit "Add  Greet (v2)!") true). reflexivity.
Defined.

(** *** applyEdits: what is left alone, create followed by delete, replace *)

Section ApplyEditsMore.

Variable fullPath : str -> str.
Variable writeError : nat -> option str.

(** X11: [applyEdits] changes no file but those its operations name:
    a path that is the target of none of them has the same content, or
    the same absence, afterwards, whether or not the call throws. *)
Theorem applyEdits_frame (ops : list EditOperation) (fs : Files) (path : str) :
  Forall (fun op => fullPath (opFilePath op) <> path) ops ->
  (applyEdits fullPath writeError ops fs).1 !! path = fs !! path.
Proof.
  intros Hall. rewrite applyEdits_files. by apply filesAfter_other.
Qed.

(** X12: creating a file that was not there, when the file system
    accepts the write, and deleting it again in one call succeeds and
    leaves the regular files of the working copy as they were. *)
Theorem create_then_delete (filePath content : str) (fs : Files) :
  fs !! fullPath filePath = None ->
  writeError 0 = None ->
  applyEdits fullPath writeError [create filePath content; delete filePath] fs
  = (fs, None).
Proof.
  intros Hnone Hw. unfold applyEdits. cbn [editLoop applyOne]. rewrite Hw.
  cbn [writeFile]. rewrite lookup_insert_eq. cbn.
  rewrite delete_insert_eq. by rewrite delete_id.
Qed.

Lemma occurrences_trichotomy (search s : str) :
  (forall i, ~ occursAt search s i) \/
  (exists i, occursAt search s i /\ forall j, occursAt search s j -> j = i) \/
  (exists i j, i <> j /\ occursAt search s i /\ occursAt search s j).
Proof.
  destruct (indexOf_spec s search 0) as [[_ Hnone]|(r & _ & _ & Hocc & Hmin)].
  { left. intros i. apply Hnone. lia. }
  right.
  destruct (indexOf_spec s search (Z.of_nat r + 1))
    as [[_ Hnone2]|(r2 & _ & Hr2 & Hocc2 & _)].
  - left. exists r. split; [done|]. intros j Hj.
    destruct (lt_eq_lt_dec j r) as [[Hlt|]|Hgt]; [|done|].
    + destruct (Hmin j); [lia|done].
    + destruct Hj as [Hjl Hjs]. destruct (Hnone2 j); [lia|by split].
  - destruct (decide (r2 = r)) as [->|Hne].
    + left. exists r. split; [done|]. intros j Hj.
      destruct (lt_eq_lt_dec j r) as [[Hlt|]|Hgt]; [|done|].
      * destruct (Hmin j); [lia|done].
      * destruct Hj as [Hjl _]. destruct Hocc as [Hrl _]. lia.
    + right. exists r, r2. done.
Qed.

(** X13: the outcome of a [replace] on a file that exists, the empty
    [oldString] in an empty file apart.  When [oldString] occurs exactly
    once, the occurrence is spliced out and the text is written as UTF-8
    (a surrogate without its pair is stored as U+FFFD), or, when the file
    system refuses the write, nothing is written and its error is
    reported.  Otherwise nothing is written and the message says that
    there is no occurrence, or that there are at least two. *)
Theorem replace_file_contract (fs : Files) (filePath oldString newString content : str)
    (w : option str) :
  fs !! fullPath filePath = Some content ->
  ~ (content = [] /\ oldString = []) ->
  let r := applyOne fullPath fs (replace filePath oldString newString) w in
  (exists i, occursAt oldString content i /\
     (forall j, occursAt oldString content j -> j = i) /\
     r = match w with
         | None =>
             (<[fullPath filePath :=
                  toWellFormed (take i content ++ newString
                                ++ drop (i + length oldString) content)]> fs,
              None)
         | Some message =>
             (fs, Some (caught (replace filePath oldString newString) message))
         end)
  \/ ((forall i, ~ occursAt oldString content i) /\
      r = (fs, Some (oldStringNotFound filePath)))
  \/ ((exists i j, i <> j /\ occursAt oldString content i /\
                   occursAt oldString content j) /\
      r = (fs, Some (oldStringAmbiguous filePath))).
Proof.
  intros Hfile Hne r. subst r. cbn [applyOne]. rewrite Hfile.
  destruct (replaceIn_spec filePath content oldString newString Hne)
    as (Hnone & Hone & Htwo).
  destruct (occurrences_trichotomy oldString content)
    as [H0|[(i & Hi & Hu)|(i & j & Hij & Hi & Hj)]].
  - right; left. by rewrite (Hnone H0).
  - left. exists i. rewrite (Hone i Hi Hu). by destruct w.
  - right; right. rewrite (Htwo i j Hij Hi Hj). eauto 10.
Qed.

End ApplyEditsMore.

Lemma applyEdits_frame_witness :
  (applyEdits ws accepts [create (lit "a") (lit "1"); delete (lit "b")]
     {[ ws (lit "c") := lit "3" ]}).1 !! ws (lit "c")
  = ({[ ws (lit "c") := lit "3" ]} : Files) !! ws (lit "c").
Proof.
  apply (applyEdits_frame ws accepts). repeat constructor; vm_compute; discriminate.
Defined.

Lemma create_then_delete_witness :
  applyEdits ws accepts [create (lit "a") (lit "1"); delete (lit "a")]
    {[ ws (lit "c") := lit "3" ]}
  = ({[ ws (lit "c") := lit "3" ]}, None).
Proof. apply (create_then_delete ws accepts); reflexivity. Defined.

Lemma replace_file_contract_witness :
  let fs : Files := {[ ws (lit "a.ts") := lit "const x = foo; bar" ]} in
  let r := applyOne ws fs (replace (lit "a.ts") (lit "foo") (lit "baz")) None in
  (exists i, occursAt (lit "foo") (lit "const x = foo; bar") i /\
     (forall j, occursAt (lit "foo") (lit "const x = foo; bar") j -> j = i) /\
     r = (<[ws (lit "a.ts") :=
              toWellFormed (take i (lit "const x = foo; bar") ++ lit "baz"
              ++ drop (i + length (lit "foo")) (lit "const x = foo; bar"))]> fs,
          None))
  \/ ((forall i, ~ occursAt (lit "foo") (lit "const x = foo; bar") i) /\
      r = (fs, Some (oldStringNotFound (lit "a.ts"))))
  \/ ((exists i j, i <> j /\ occursAt (lit "foo") (lit "const x = foo; bar") i /\
                   occursAt (lit "foo") (lit "const x = foo; bar") j) /\
      r = (fs, Some (oldStringAmbiguous (lit "a.ts")))).
Proof.
  intros fs.
  apply (replace_file_contract ws fs (lit "a.ts") (lit "foo") (lit "baz")
           (lit "const x = foo; bar") None).
  - reflexivity.
  - intros [H _]. discriminate.
Defined.

(** The splice leaves a surrogate without its pair: the file holds
    U+FFFD in its place. *)
Example replace_lone_surrogate :
  applyOne ws {[ ws (lit "a") := [120; 121]%N ]}
    (replace (lit "a") [121%N] [56832%N]) None
  = ({[ ws (lit "a") := [120; 65533]%N ]}, None).
Proof. vm_compute. reflexivity. Qed.

End GitMore.

(** ** More of the gateway (src/llm/api.ts) *)

Module Gateway.

Import Api.

(** *** The system prompt *)

Section SystemPrompt.

Variable Tool : Type.
Variable PHASE_EXTRAS : Phase -> PhaseExtras Tool.

(** The index of the block that carries the cache marker: the codebase
    block when there is one, the phase prompt otherwise. *)
Definition markerIndex (phase : Phase) : nat :=
  match phase with
  | builder | fixer | planner => 1
  | reflect | memory => 0
  end.

(** X14: for every phase and whatever the helpers return, the system
    prompt starts with the phase's prompt and exactly one of its blocks
    carries the cache marker: the codebase block (the second one) for the
    planner, builder and fixer, the phase prompt itself for the others. *)
Theorem system_single_cache_marker (phase : Phase) (src : Sources) :
  let blocks := systemBlocks Tool PHASE_EXTRAS phase src in
  (text <$> head blocks) = Some (systemPrompt Tool (PHASE_EXTRAS phase)) /\
  (cache_control <$> blocks !! markerIndex phase) = Some true /\
  length (filter (fun b => cache_control b = true) blocks) = 1%nat.
Proof.
  unfold systemBlocks.
  destruct phase; vm_compute bool_decide; cbn [markerIndex];
    destruct (truthy (Some (prepareAndBuildContext src)));
    try destruct (truthy (getLatestMainCoverage src));
    try destruct (truthy (findUnusedFunctions src)); done.
Qed.

End SystemPrompt.

(** *** Signature stripping *)

Lemma isThinking_stripBlock block : isThinking (stripBlock block) = isThinking block.
Proof.
  unfold stripBlock. destruct (isThinking block) eqn:E; [|done].
  unfold isThinking in *. by rewrite lookup_delete_ne.
Qed.

Lemma stripBlock_idem block : stripBlock (stripBlock block) = stripBlock block.
Proof.
  unfold stripBlock at 1. rewrite isThinking_stripBlock.
  unfold stripBlock. destruct (isThinking block); [|done].
  by rewrite delete_delete_eq.
Qed.

Lemma strip_no_signature (content : list ContentBlock) :
  Forall (fun b => isThinking b = true -> b !! "signature"%string = None)
         (stripThinkingSignatures content).
Proof.
  unfold stripThinkingSignatures.
  apply Forall_fmap, Forall_forall. intros b _. cbn.
  rewrite isThinking_stripBlock. unfold stripBlock.
  intros ->. apply lookup_delete_eq.
Qed.

(** X15: after [stripThinkingSignatures] no thinking block has a
    [signature]; every block keeps its [type]; and stripping again
    changes nothing. *)
Theorem strip_signatures_clean (content : list ContentBlock) :
  Forall (fun b => isThinking b = true -> b !! "signature"%string = None)
         (stripThinkingSignatures content) /\
  (fun b => b !! "type"%string) <$> stripThinkingSignatures content
    = (fun b => b !! "type"%string) <$> content /\
  stripThinkingSignatures (stripThinkingSignatures content)
    = stripThinkingSignatures content.
Proof.
  split; [apply strip_no_signature|]. unfold stripThinkingSignatures. split.
  - rewrite <- list_fmap_compose. apply list_fmap_ext. intros i b _. cbn.
    unfold stripBlock. destruct (isThinking b); [|done]. by rewrite lookup_delete_ne.
  - rewrite <- list_fmap_compose. apply list_fmap_ext. intros i b _.
    apply stripBlock_idem.
Qed.

(** *** callApi: polling, the result, the record *)

(** [config.batch]. *)
Record BatchConfig := { pollInterval : Q; maxPollInterval : Q; pollBackoff : Q }.

(** How the polling ends. *)
Inductive PollEnd :=
| pollEnded      (* a status ['ended'] was seen *)
| pollThrew      (* [batches.retrieve] threw *)
| pollPending.   (* the batch has not ended yet *)

(** The [while (status !== 'ended')] loop: the delays slept, in order, and
    how the loop ends.  [polls] are the answers of [batches.retrieve]:
    the [processing_status], or [None] when the call throws. *)
Fixpoint pollLoop (cfg : BatchConfig) (delay : Q) (polls : list (option str))
  : list Q * PollEnd :=
  match polls with
  | [] => ([delay], pollPending)
  | None :: _ => ([delay], pollThrew)
  | Some status :: rest =>
      if bool_decide (status <> lit "ended") then
        let nextDelay := Qmin (maxPollInterval cfg) (delay * pollBackoff cfg) in
        let '(sleeps, e) := pollLoop cfg nextDelay rest in
        (delay :: sleeps, e)
      else ([delay], pollEnded)
  end.

Definition polling (cfg : BatchConfig) (status : str) (polls : list (option str))
  : list Q * PollEnd :=
  if bool_decide (status <> lit "ended")
  then pollLoop cfg (pollInterval cfg) polls
  else ([], pollEnded).

(** [Anthropic.Message], the fields that are read. *)
Record Message := {
  content : list ContentBlock;
  usage : Cost.ApiUsage;
  stop_reason : option str
}.

(** An entry of the batch results: a message, an error (as
    [JSON.stringify] prints it), or another result type by its name. *)
Inductive ResultEntry :=
| succeeded (message : Message)
| errored (errorJson : str)
| otherResult (type : str).

Section CallApi.

Variables MessageParam Tool : Type.

(** [computeCost] of models/Generated.ts. *)
Variable computeCost : str -> Cost.ApiUsage -> bool -> Q.

(** The document [recordGenerated] creates. *)
Record Generated := {
  g_phase : Phase;
  modelId : str;
  iterationId : str;
  g_system : list TextBlockParam;
  g_messages : list MessageParam;
  response : list ContentBlock;
  inputTokens : Z;
  outputTokens : Z;
  cacheWrite5mTokens : Z;
  cacheWrite1hTokens : Z;
  cacheReadTokens : Z;
  cost : Q;
  batch : bool;
  stopReason : str
}.

Definition generatedOf (activeIterationId : str) (phase : Phase)
    (params : Params MessageParam Tool) (r : Message) (isBatch : bool) : Generated :=
  let u := usage r in
  let totalCacheWrite := default 0 (Cost.cache_creation_input_tokens u) in
  {| g_phase := phase;
     modelId := p_model _ _ params;
     iterationId := activeIterationId;
     g_system := system _ _ params;
     g_messages := messages _ _ params;
     response := stripThinkingSignatures (content r);
     inputTokens := Cost.input_tokens u;
     outputTokens := Cost.output_tokens u;
     cacheWrite5mTokens :=
       match Cost.cache_creation u with
       | Some c => Cost.ephemeral_5m_input_tokens c
       | None => totalCacheWrite
       end;
     cacheWrite1hTokens :=
       match Cost.cache_creation u with
       | Some c => Cost.ephemeral_1h_input_tokens c
       | None => 0
       end;
     cacheReadTokens := default 0 (Cost.cache_read_input_tokens u);
     cost := computeCost (p_model _ _ params) u isBatch;
     batch := isBatch;
     stopReason := default (lit "unknown") (stop_reason r) |}.

(** [recordGenerated]: the document that is persisted; a failure of the
    write is logged and swallowed. *)
Definition recordGenerated (activeIterationId : str) (phase : Phase)
    (params : Params MessageParam Tool) (r : Message) (isBatch : bool)
    (createOk : bool) : option Generated :=
  if createOk then Some (generatedOf activeIterationId phase params r isBatch)
  else None.

(** What [callApi] does for its caller. *)
Inductive ApiResult :=
| apiReturned (message : Message)
| apiError (message : str)       (* an [Error] thrown by [callApi] itself *)
| apiThrew                       (* an exception of the client library *)
| apiPending.

(** The environment of one call: the batch created (its first status, or
    [None] when [batches.create] throws), the polls, the result entries
    ([None] when [batches.results] throws) and whether the write of the
    record succeeds. *)
Record ApiEnv := {
  created : option str;
  polls : list (option str);
  results : option (list ResultEntry);
  createOk : bool
}.

(** [callApi], once [buildParams] has returned [params]: the delays
    slept, the result, and the record persisted. *)
Definition callApi (cfg : BatchConfig) (activeIterationId : str) (phase : Phase)
    (params : Params MessageParam Tool) (env : ApiEnv)
  : list Q * ApiResult * option Generated :=
  match created env with
  | None => ([], apiThrew, None)
  | Some status =>
      let '(sleeps, e) := polling cfg status (polls env) in
      match e with
      | pollThrew => (sleeps, apiThrew, None)
      | pollPending => (sleeps, apiPending, None)
      | pollEnded =>
          match results env with
          | None => (sleeps, apiThrew, None)
          | Some [] =>
              (sleeps, apiError (lit "Batch completed but returned no results"), None)
          | Some (succeeded r :: _) =>
              (sleeps, apiReturned r,
               recordGenerated activeIterationId phase params r true (createOk env))
          | Some (errored detail :: _) =>
              (sleeps, apiError (lit "Batch request failed: " ++ detail), None)
          | Some (otherResult type :: _) =>
              (sleeps, apiError (lit "Batch request failed: " ++ type), None)
          end
      end
  end.

Lemma pollLoop_bounded cfg polls : forall delay bound,
  (delay <= bound)%Q -> (maxPollInterval cfg <= bound)%Q ->
  Forall (fun d => (d <= bound)%Q) (pollLoop cfg delay polls).1.
Proof.
  induction polls as [|[status|] rest IH]; intros delay bound Hd Hm; cbn [pollLoop].
  - by repeat constructor.
  - case_bool_decide; [|by repeat constructor].
    specialize (IH (Qmin (maxPollInterval cfg) (delay * pollBackoff cfg)) bound).
    destruct (pollLoop cfg _ rest) as [sleeps e]. cbn [fst] in *.
    constructor; [done|]. apply IH; [|done].
    eapply Qle_trans; [apply Q.le_min_l|done].
  - by repeat constructor.
Qed.

(** X16: however long the batch takes and whatever the configuration,
    [callApi] never sleeps longer than the larger of [pollInterval] and
    [maxPollInterval] between two polls, and its first sleep, if any, is
    [pollInterval]. *)
Theorem callApi_sleeps_bounded (cfg : BatchConfig) (activeIterationId : str)
    (phase : Phase) (params : Params MessageParam Tool) (env : ApiEnv) :
  let sleeps := (callApi cfg activeIterationId phase params env).1.1 in
  Forall (fun d => (d <= Qmax (pollInterval cfg) (maxPollInterval cfg))%Q) sleeps /\
  (head sleeps = None \/ head sleeps = Some (pollInterval cfg)).
Proof.
  assert (H : let sleeps := (callApi cfg activeIterationId phase params env).1.1 in
              sleeps = [] \/
              exists polls, sleeps = (pollLoop cfg (pollInterval cfg) polls).1).
  { unfold callApi. destruct (created env) as [status|]; [|by left].
    unfold polling. case_bool_decide.
    - right. exists (polls env). destruct (pollLoop cfg _ _) as [sl e]. cbn.
      destruct e; try done. destruct (results env) as [[|[]]|]; done.
    - left. cbn. destruct (results env) as [[|[]]|]; done. }
  cbn zeta in *. destruct H as [->|(ps & ->)]; [split; [done|by left]|].
  split.
  - apply pollLoop_bounded; [apply Q.le_max_l|apply Q.le_max_r].
  - right. destruct ps as [|[status|] rest]; cbn [pollLoop]; try done.
    case_bool_decide; [|done]. by destruct (pollLoop _ _ rest).
Qed.

(** X17: a failure to persist the record does not reach the caller: the
    result and the sleeps of [callApi] are the same whether the write of
    the record succeeds or fails. *)
Theorem callApi_record_failure_swallowed (cfg : BatchConfig) (activeIterationId : str)
    (phase : Phase) (params : Params MessageParam Tool)
    (status : option str) (ps : list (option str))
    (rs : option (list ResultEntry)) :
  (callApi cfg activeIterationId phase params
     {| created := status; polls := ps; results := rs; createOk := false |}).1
  = (callApi cfg activeIterationId phase params
       {| created := status; polls := ps; results := rs; createOk := true |}).1.
Proof.
  unfold callApi. cbn. destruct status as [st|]; [|done].
  destruct (polling cfg st ps) as [sl []]; try done.
  destruct rs as [[|[]]|]; done.
Qed.

(** X18: a record is persisted only for a call that returns a message;
    it is then marked as a batch request, belongs to the active
    iteration, holds the blocks of that message with no signature left on
    a thinking block, and its two cache-write counts add up to the
    [cache_creation_input_tokens] of the usage when the usage has no
    breakdown. *)
Theorem callApi_persisted_record (cfg : BatchConfig) (activeIterationId : str)
    (phase : Phase) (params : Params MessageParam Tool) (env : ApiEnv)
    (g : Generated) :
  (callApi cfg activeIterationId phase params env).2 = Some g ->
  exists r,
    (callApi cfg activeIterationId phase params env).1.2 = apiReturned r /\
    batch g = true /\ iterationId g = activeIterationId /\
    response g = stripThinkingSignatures (content r) /\
    Forall (fun b => isThinking b = true -> b !! "signature"%string = None)
           (response g) /\
    (Cost.cache_creation (usage r) = None ->
     (cacheWrite5mTokens g + cacheWrite1hTokens g
      = default 0 (Cost.cache_creation_input_tokens (usage r)))%Z).
Proof.
  unfold callApi. destruct (created env) as [st|]; [|done].
  destruct (polling cfg st (polls env)) as [sl []]; try done.
  destruct (results env) as [[|[r| |] rest]|]; try done. cbn.
  unfold recordGenerated. destruct (createOk env); [|done]. intros [= <-].
  exists r. cbn. repeat split; try done.
  - apply strip_no_signature.
  - intros ->. lia.
Qed.

End CallApi.

Definition sampleBatchConfig : BatchConfig :=
  {| pollInterval := 5000; maxPollInterval := 60000; pollBackoff := 3 # 2 |}.

Definition sampleParams : Params unit unit :=
  {| p_model := lit "claude-sonnet-4-6"; max_tokens := 4096; system := [];
     messages := []; tools := None; thinking := None |}.

Definition sampleMessage : Message :=
  {| content := [thinkingBlock; textBlock];
     usage := {| Cost.input_tokens := 10; Cost.output_tokens := 20;
                 Cost.cache_read_input_tokens := None;
                 Cost.cache_creation_input_tokens := Some 30;
                 Cost.cache_creation := None |};
     stop_reason := None |}.

Definition sampleApiEnv : ApiEnv :=
  {| created := Some (lit "in_progress");
     polls := [Some (lit "in_progress"); Some (lit "ended")];
     results := Some [succeeded sampleMessage];
     createOk := true |}.

Lemma callApi_persisted_record_witness :
  let run := callApi unit unit (fun _ _ _ => 0%Q) sampleBatchConfig (lit "it-1")
               builder sampleParams sampleApiEnv in
  let g := generatedOf unit unit (fun _ _ _ => 0%Q) (lit "it-1") builder
             sampleParams sampleMessage true in
  exists r,
    run.1.2 = apiReturned r /\
    batch _ g = true /\ iterationId _ g = lit "it-1" /\
    response _ g = stripThinkingSignatures (content r) /\
    Forall (fun b => isThinking b = true -> b !! "signature"%string = None)
           (response _ g) /\
    (Cost.cache_creation (usage r) = None ->
     (cacheWrite5mTokens _ g + cacheWrite1hTokens _ g
      = default 0 (Cost.cache_creation_input_tokens (usage r)))%Z).
Proof.
  apply (callApi_persisted_record unit unit (fun _ _ _ => 0%Q) sampleBatchConfig
           (lit "it-1") builder sampleParams sampleApiEnv).
  vm_compute. reflexivity.
Defined.

End Gateway.

(** ** More of the iteration controller (src/loop.ts) *)

Module LoopMore.

Import Loop.

(** *** Triples over traces *)

(** [triple P m Q X W]: started on a trace that satisfies [P], the
    computation [m] ends on a trace that satisfies [Q a] when it returns
    [a], [X] when it throws and [W] when it is left waiting. *)
Definition triple {A} (P : list Event -> Prop) (m : M A)
    (Q : A -> list Event -> Prop) (X W : list Event -> Prop) : Prop :=
  forall tr, P tr ->
    match (m tr).2 with
    | Done a => Q a (m tr).1
    | Exception => X (m tr).1
    | Waiting => W (m tr).1
    end.

Lemma triple_ret {A} (P : list Event -> Prop) (a : A) Q X W :
  (forall tr, P tr -> Q a tr) -> triple P (ret a) Q X W.
Proof. intros H tr Hp. cbn. auto. Qed.

Lemma triple_wait {A} (P : list Event -> Prop) (Q : A -> _) X W :
  (forall tr, P tr -> W tr) -> triple P wait Q X W.
Proof. intros H tr Hp. cbn. auto. Qed.

Lemma triple_throw {A} (P : list Event -> Prop) (Q : A -> _) X W :
  (forall tr, P tr -> X tr) -> triple P throw Q X W.
Proof. intros H tr Hp. cbn. auto. Qed.

Lemma triple_bind {A B} P (m : M A) (k : A -> M B) Q1 Q X W :
  triple P m Q1 X W -> (forall a, triple (Q1 a) (k a) Q X W) ->
  triple P (m ≫= k) Q X W.
Proof.
  intros Hm Hk tr Hp. specialize (Hm tr Hp).
  unfold mbind, M_bind, bind. destruct (m tr) as [tr' [a| |]]; cbn in *; [|done..].
  by apply Hk.
Qed.

Lemma triple_call {A} P c (reply : Reply A) (Q : A -> _) X W :
  (forall tr a, P tr -> reply = Returned a -> Q a (tr ++ [Call_ok c])) ->
  (forall tr, P tr -> reply = Threw -> X (tr ++ [Call_threw c])) ->
  triple P (call c reply) Q X W.
Proof. intros Hq Hx tr Hp. unfold call. destruct reply; cbn; auto. Qed.

Lemma triple_checks P (reply : Reply CheckResult) Q X W :
  (forall tr r, P tr -> reply = Returned r -> Q r (tr ++ [Checks (passed r)])) ->
  (forall tr, P tr -> reply = Threw -> X (tr ++ [Call_threw awaitChecks])) ->
  triple P (callAwaitChecks reply) Q X W.
Proof. intros Hq Hx tr Hp. unfold callAwaitChecks. destruct reply; cbn; auto. Qed.

Lemma triple_tryCatch {A} P (m h : M A) Q X' X W :
  triple P m Q X' W -> triple X' h Q X W -> triple P (tryCatch m h) Q X W.
Proof.
  intros Hm Hh tr Hp. specialize (Hm tr Hp).
  unfold tryCatch. destruct (m tr) as [tr' [a| |]]; cbn in *; [done| |done].
  by apply Hh.
Qed.

Lemma triple_finally {A} P (m : M A) (f : M unit) Q1 X1 Q X W :
  triple P m Q1 X1 W ->
  (forall a, triple (Q1 a) f (fun _ => Q a) X W) ->
  triple X1 f (fun _ => X) X W ->
  triple P (finally m f) Q X W.
Proof.
  intros Hm Hok Hex tr Hp. specialize (Hm tr Hp).
  unfold finally. destruct (m tr) as [tr' [a| |]]; cbn in *; [| |done].
  - specialize (Hok a tr' Hm). unfold mbind, M_bind, bind.
    destruct (f tr') as [tr'' [[]| |]]; cbn in *; done.
  - specialize (Hex tr' Hm). unfold mbind, M_bind, bind.
    destruct (f tr') as [tr'' [[]| |]]; cbn in *; done.
Qed.

Lemma triple_pre {A} (P P' : list Event -> Prop) (m : M A) Q X W :
  triple P m Q X W -> (forall tr, P' tr -> P tr) -> triple P' m Q X W.
Proof. intros Hm Hpp tr Hp. apply Hm. auto. Qed.

(** *** resetWorkspace *)

Definition isReset (e : Event) : bool :=
  match e with
  | Call_ok resetWorkspace | Call_threw resetWorkspace => true
  | _ => false
  end.

(** How many times [resetWorkspace] was called. *)
Definition resets (tr : list Event) : nat := length (List.filter isReset tr).

Lemma resets_snoc tr e : resets (tr ++ [e]) = (resets tr + if isReset e then 1 else 0)%nat.
Proof.
  unfold resets. rewrite List.filter_app, length_app. cbn. destruct (isReset e); done.
Qed.

(** Steps that keep the number of resets at [n]; [W] is what holds if
    the step is left waiting. *)
Definition keeps {A} (n : nat) (W : list Event -> Prop) (m : M A) : Prop :=
  triple (fun tr => resets tr = n) m (fun _ tr => resets tr = n)
         (fun tr => resets tr = n) W.

Lemma keeps_call {A} n W c (reply : Reply A) :
  isReset (Call_ok c) = false -> keeps n W (call c reply).
Proof.
  intros Hc. apply triple_call.
  - intros tr a Hn _. rewrite resets_snoc, Hc. lia.
  - intros tr Hn _. rewrite resets_snoc. destruct c; cbn in *; try done; lia.
Qed.

Lemma keeps_ret {A} n W (a : A) : keeps n W (ret a).
Proof. by apply triple_ret. Qed.

Lemma keeps_bind {A B} n W (m : M A) (k : A -> M B) :
  keeps n W m -> (forall a, keeps n W (k a)) -> keeps n W (m ≫= k).
Proof. intros Hm Hk. eapply triple_bind; [apply Hm|apply Hk]. Qed.

Lemma keeps_tryCatch {A} n W (m h : M A) :
  keeps n W m -> keeps n W h -> keeps n W (tryCatch m h).
Proof. intros Hm Hh. eapply triple_tryCatch; [apply Hm|apply Hh]. Qed.

Lemma keeps_fixLoop n plan pr rs :
  keeps n (fun tr => resets tr = n) (fixLoop plan pr rs).
Proof.
  induction rs as [|r rest IH]; cbn [fixLoop].
  - by apply triple_wait.
  - apply keeps_bind.
    { apply triple_checks.
      - intros tr a Hn _. rewrite resets_snoc. cbn. lia.
      - intros tr Hn _. rewrite resets_snoc. cbn. lia. }
    intros result. destruct (passed result); [apply keeps_ret|].
    destruct (exhausted r); [apply keeps_ret|].
    apply keeps_bind; [apply keeps_call; reflexivity|intros _].
    apply keeps_bind.
    { apply keeps_tryCatch; [|apply keeps_ret].
      apply keeps_bind; [apply keeps_call; reflexivity|intros; apply keeps_ret]. }
    intros [[|k]|]; [apply keeps_ret| |apply keeps_ret].
    apply keeps_bind; [apply keeps_call; reflexivity|intros _]. apply IH.
Qed.

Ltac keeps_all :=
  repeat first
    [ apply keeps_ret
    | apply keeps_call; reflexivity
    | apply keeps_fixLoop
    | apply keeps_tryCatch
    | apply keeps_bind; [|intros ?]
    | match goal with
      | |- keeps _ _ (match ?e with _ => _ end) => destruct e
      end ].

Lemma keeps_tryBlock n env : keeps n (fun tr => resets tr = n) (tryBlock env).
Proof. unfold tryBlock. keeps_all. Qed.

(** X19: [resetWorkspace] is called exactly once in every iteration that
    returns or throws, whatever fails and wherever, and not at all while
    the iteration is still waiting in its fix loop. *)
Theorem iterate_resets_once (env : Env) :
  resets (iterate env []).1
  = match (iterate env []).2 with Waiting => 0%nat | _ => 1%nat end.
Proof.
  assert (H : triple (fun tr => resets tr = 0%nat) (iterate env)
                (fun _ tr => resets tr = 1%nat) (fun tr => resets tr = 1%nat)
                (fun tr => resets tr = 0%nat)).
  { unfold iterate. eapply (triple_bind _ _ _ (fun _ tr => resets tr = 1%nat)).
    - eapply (triple_finally _ _ _ (fun _ tr => resets tr = 0%nat)
                (fun tr => resets tr = 0%nat)).
      + apply keeps_tryBlock.
      + intros l. apply triple_call.
        * intros tr a Hn _. rewrite resets_snoc, Hn. reflexivity.
        * intros tr Hn _. rewrite resets_snoc, Hn. reflexivity.
      + apply triple_call.
        * intros tr a Hn _. rewrite resets_snoc, Hn. reflexivity.
        * intros tr Hn _. rewrite resets_snoc, Hn. reflexivity.
    - intros l.
      match goal with
      | |- triple _ ?m _ _ _ => change (keeps 1 (fun tr => resets tr = 0%nat) m)
      end.
      keeps_all. }
  specialize (H [] eq_refl). destruct (iterate env []) as [tr [b| |]]; done.
Qed.

(** *** Merged or closed *)

Definition isMergeB (e : Event) : bool :=
  match e with Call_ok (mergePR _) | Call_threw (mergePR _) => true | _ => false end.

Definition isCloseB (e : Event) : bool :=
  match e with Call_ok (closePR _) | Call_threw (closePR _) => true | _ => false end.

Definition isOpenOk (e : Event) : bool :=
  match e with Call_ok (openPR _ _ _) => true | _ => false end.

(** No event of the trace satisfies [p]. *)
Definition none (p : Event -> bool) (tr : list Event) : Prop := existsb p tr = false.

Lemma none_snoc p tr e : none p tr -> p e = false -> none p (tr ++ [e]).
Proof. unfold none. intros H He. rewrite existsb_app, H. cbn. by rewrite He. Qed.

Lemma elem_snoc_l (e e' : Event) tr : e ∈ tr -> e ∈ tr ++ [e'].
Proof. intros H. apply elem_of_app. by left. Qed.

Lemma elem_snoc_r (e : Event) tr : e ∈ tr ++ [e].
Proof. apply elem_of_app. right. by apply list_elem_of_singleton. Qed.

Definition anyTrace : list Event -> Prop := fun _ => True.

(** A call that is neither [mergePR], [closePR] nor [openPR] keeps an
    invariant that only speaks of such events. *)
Definition quiet (c : Call) : bool :=
  negb (isMergeB (Call_ok c)) && negb (isCloseB (Call_ok c)) && negb (isOpenOk (Call_ok c)).

Definition prInvariant (I : list Event -> Prop) : Prop :=
  forall tr e, I tr -> isMergeB e = false -> isCloseB e = false ->
               isOpenOk e = false -> I (tr ++ [e]).

Lemma quiet_call {A} I c (reply : Reply A) :
  prInvariant I -> quiet c = true ->
  triple I (call c reply) (fun _ => I) anyTrace anyTrace.
Proof.
  intros HI Hq. apply triple_call; [|done].
  intros tr a Htr _. unfold quiet in Hq.
  apply HI; [done|..]; destruct c; cbn in *; done.
Qed.

Lemma quiet_ret {A} (I : list Event -> Prop) (a : A) :
  triple I (ret a) (fun _ => I) anyTrace anyTrace.
Proof. by apply triple_ret. Qed.

Lemma quiet_tryCatch_ignore {A} I c (reply : Reply A) (a : A) :
  prInvariant I -> quiet c = true ->
  triple I (tryCatch (call c reply) (ret a)) (fun _ => I) anyTrace anyTrace.
Proof.
  intros HI Hq tr Htr. unfold tryCatch, call. unfold quiet in Hq.
  destruct reply; cbn; (apply HI; [done|..]); destruct c; cbn in *; done.
Qed.

Section Settled.

Variable env : Env.

(** Nothing merged, nothing closed, and the PR that was opened, if one
    was, has the number [openPR] returned. *)
Definition unsettled (opened : bool) (tr : list Event) : Prop :=
  none isMergeB tr /\ none isCloseB tr /\
  (if opened then exists pr, openR env = Returned pr else none isOpenOk tr).

Lemma unsettled_inv opened : prInvariant (unsettled opened).
Proof.
  intros tr e (Hm & Hc & Ho) Hem Hec Heo. split; [by apply none_snoc|].
  split; [by apply none_snoc|]. destruct opened; [done|by apply none_snoc].
Qed.

Lemma fixLoop_unsettled plan pr rs :
  triple (unsettled true) (fixLoop plan pr rs) (fun _ => unsettled true)
         anyTrace anyTrace.
Proof.
  induction rs as [|r rest IH]; cbn [fixLoop]; [by apply triple_wait|].
  eapply (triple_bind _ _ _ (fun _ => unsettled true)).
  { apply triple_checks; [|done]. intros tr res Htr _.
    by apply (unsettled_inv true). }
  intros result. destruct (passed result); [apply quiet_ret|].
  destruct (exhausted r); [apply quiet_ret|].
  eapply triple_bind; [apply quiet_call; [apply unsettled_inv|done]|intros ?].
  eapply (triple_bind _ _ _ (fun _ => unsettled true)).
  { intros tr Htr. unfold tryCatch, mbind, M_bind, bind, call, ret.
    destruct (fixR r); cbn; by apply (unsettled_inv true). }
  intros [[|k]|]; [apply quiet_ret| |apply quiet_ret].
  eapply triple_bind; [apply quiet_call; [apply unsettled_inv|done]|intros ?].
  apply IH.
Qed.

(** The state of the locals and the trace at the end of the [try] block. *)
Definition afterTry (l : Locals) (tr : list Event) : Prop :=
  if merged l then
    exists pr, openR env = Returned pr /\ Call_ok (mergePR pr) ∈ tr /\ none isCloseB tr
  else
    none isMergeB tr /\ none isCloseB tr /\
    match prNumber l with
    | Some pr => openR env = Returned pr
    | None => none isOpenOk tr
    end.

Lemma afterTry_inv l : prInvariant (afterTry l).
Proof.
  intros tr e H Hem Hec Heo. unfold afterTry in *. destruct (merged l).
  - destruct H as (pr & Ho & Hin & Hc). exists pr. split; [done|].
    split; [by apply elem_snoc_l|by apply none_snoc].
  - destruct H as (Hm & Hc & Hn). split; [by apply none_snoc|].
    split; [by apply none_snoc|]. destruct (prNumber l); [done|by apply none_snoc].
Qed.

Lemma tryBlock_afterTry :
  triple (unsettled false) (tryBlock env) afterTry anyTrace anyTrace.
Proof.
  unfold tryBlock.
  do 3 (eapply triple_bind;
        [apply quiet_call; [apply unsettled_inv|done]|intros ?]).
  eapply triple_bind; [apply quiet_call; [apply unsettled_inv|done]|intros thePlan].
  do 2 (eapply triple_bind;
        [apply quiet_call; [apply unsettled_inv|done]|intros ?]).
  eapply triple_bind; [apply quiet_call; [apply unsettled_inv|done]|intros edits].
  eapply (triple_bind _ _ _ (fun l tr =>
            none isMergeB tr /\ none isCloseB tr /\
            match prNumber l with
            | Some pr => openR env = Returned pr
            | None => none isOpenOk tr /\ merged l = false
            end)).
  { destruct edits as [|k].
    - apply triple_ret. intros tr (Hm & Hc & Ho). done.
    - eapply triple_bind; [apply quiet_call; [apply unsettled_inv|done]|intros ?].
      eapply (triple_bind _ _ _ (fun pr tr => unsettled true tr /\ openR env = Returned pr)).
      { apply triple_call; [|done]. intros tr pr (Hm & Hc & Ho) Hopen.
        split; [|done]. split; [by apply none_snoc|]. split; [by apply none_snoc|].
        eauto. }
      intros pr.
      eapply (triple_bind _ _ _ (fun _ tr => unsettled true tr /\ openR env = Returned pr)).
      { intros tr [Htr Hopen]. pose proof (fixLoop_unsettled thePlan pr (rounds env) tr Htr) as H.
        destruct (fixLoop thePlan pr (rounds env) tr) as [tr' [mo| |]]; cbn in *; done. }
      intros mo. apply triple_ret. intros tr [(Hm & Hc & _) Hopen]. done. }
  intros l.
  eapply (triple_bind _ _ _ (fun _ => afterTry l)); [|intros; apply quiet_ret].
  unfold afterTry. destruct (merged l) eqn:Em.
  - destruct (prNumber l) as [pr|] eqn:Ep; cbn [default].
    + eapply (triple_bind _ _ _ (fun _ tr =>
          exists pr, openR env = Returned pr /\ Call_ok (mergePR pr) ∈ tr /\ none isCloseB tr)).
      { apply triple_call; [|done]. intros tr [] (Hm & Hc & Ho) _.
        exists pr. split; [done|]. split; [apply elem_snoc_r|by apply none_snoc]. }
      intros ?.
      pose proof (afterTry_inv l) as HI. unfold afterTry in HI. rewrite Em in HI.
      eapply triple_bind; [by apply quiet_tryCatch_ignore|intros ?].
      eapply triple_bind; [by apply quiet_call|intros ?].
      eapply triple_bind; [by apply quiet_call|intros cov].
      destruct cov as [[|c cs]|]; [apply quiet_ret|by apply quiet_call|apply quiet_ret].
    + intros tr (_ & _ & _ & Hf). done.
  - apply triple_ret. intros tr (Hm & Hc & Hn). split; [done|]. split; [done|].
    destruct (prNumber l); [done|by destruct Hn].
Qed.

(** How a finished iteration leaves the pull request. *)
Definition settled (isMerged : bool) (tr : list Event) : Prop :=
  if isMerged then
    exists pr, openR env = Returned pr /\ Call_ok (mergePR pr) ∈ tr /\ none isCloseB tr
  else
    none isMergeB tr /\
    (existsb isOpenOk tr = true ->
     exists pr, openR env = Returned pr /\ Call_ok (closePR pr) ∈ tr).

Lemma settled_inv b : prInvariant (settled b).
Proof.
  intros tr e H Hem Hec Heo. unfold settled in *. destruct b.
  - destruct H as (pr & Ho & Hin & Hc). exists pr. split; [done|].
    split; [by apply elem_snoc_l|by apply none_snoc].
  - destruct H as (Hm & Hopen). split; [by apply none_snoc|].
    rewrite existsb_app. cbn. rewrite Heo, !orb_false_r. intros Ho.
    destruct (Hopen Ho) as (pr & Hr & Hin). exists pr. split; [done|].
    by apply elem_snoc_l.
Qed.

Lemma iterate_settled_triple :
  triple (unsettled false) (iterate env) settled anyTrace anyTrace.
Proof.
  unfold iterate.
  eapply (triple_bind _ _ _ afterTry).
  { eapply (triple_finally _ _ _ afterTry anyTrace).
    - apply tryBlock_afterTry.
    - intros l. apply quiet_call; [apply afterTry_inv|done].
    - by apply triple_call. }
  intros l.
  eapply (triple_bind _ _ _ (fun _ => settled (merged l))).
  { destruct (merged l) eqn:Em; cbn [negb].
    - apply triple_ret. intros tr H. unfold afterTry in H. by rewrite Em in H.
    - destruct (prNumber l) as [pr|] eqn:Ep.
      + eapply (triple_bind _ _ _ (fun _ => settled false)).
        { apply triple_call; [|done]. intros tr [] H _.
          unfold afterTry in H. rewrite Em, Ep in H. destruct H as (Hm & Hc & Ho).
          split; [by apply none_snoc|]. intros _. exists pr.
          split; [done|apply elem_snoc_r]. }
        intros ?.
        eapply triple_bind;
          [apply quiet_tryCatch_ignore; [apply settled_inv|done]|intros ?].
        apply quiet_call; [apply settled_inv|done].
      + eapply (triple_pre (settled false)).
        * apply quiet_call; [apply settled_inv|done].
        * intros tr H. unfold afterTry in H. rewrite Em, Ep in H.
          destruct H as (Hm & Hc & Hn). split; [done|]. unfold none in Hn.
          rewrite Hn. done. }
  intros ?.
  do 3 (eapply triple_bind; [apply quiet_call; [apply settled_inv|done]|intros ?]).
  apply triple_ret. done.
Qed.

End Settled.

(** X20: when an iteration returns [true], the pull request it opened has
    been merged (the call returned) and was not closed; when it returns
    [false], no merge was attempted, and if a pull request was opened, it
    has been closed (the call returned). *)
Theorem iterate_pr_settled (env : Env) :
  match iterate env [] with
  | (tr, Done true) =>
      exists pr, openR env = Returned pr /\ Call_ok (mergePR pr) ∈ tr /\
                 none isCloseB tr
  | (tr, Done false) =>
      none isMergeB tr /\
      (existsb isOpenOk tr = true ->
       exists pr, openR env = Returned pr /\ Call_ok (closePR pr) ∈ tr)
  | _ => True
  end.
Proof.
  pose proof (iterate_settled_triple env [] ltac:(done)) as H.
  destruct (iterate env []) as [tr [[|]| |]]; done.
Qed.

(** Three failing verdicts with the fixer exhausted at the third: the
    pull request is closed and the iteration returns [false]. *)
Definition failingRound (isExhausted : bool) : Round :=
  {| checksR := Returned {| passed := false; error := Some (lit "Tests failed") |};
     exhausted := isExhausted; storeFailureR := Returned tt;
     fixR := Returned 1%nat; pushFixR := Returned tt |}.

Definition exhaustedEnv : Env :=
  {| snapshotR := Returned tt; contextR := Returned (lit "ctx");
     gitLogR := Returned (lit "log");
     planR := Returned {| title := lit "Add greet"; description := lit "..." |};
     storePlannedR := Returned tt; branchR := Returned (lit "seedgpt/add-greet");
     patchR := Returned 1%nat; pushR := Returned tt; openR := Returned 7;
     rounds := [failingRound false; failingRound false; failingRound true];
     mergeR := Returned tt; deleteMergedR := Returned tt;
     storeMergedR := Returned tt; coverageR := Returned None;
     storeCoverageR := Returned tt; resetR := Returned tt;
     closeR := Returned tt; deleteClosedR := Threw;
     storeGaveUpR := Returned tt; reflectR := Returned (lit "fine");
     storeReflectionR := Returned tt; writeLogR := Returned tt |}.

Example exhausted_fixer_closes :
  (iterate exhaustedEnv []).2 = Done false /\
  Call_ok (closePR 7) ∈ traceOf exhaustedEnv /\
  resets (traceOf exhaustedEnv) = 1%nat /\
  length (List.filter (fun e => match e with Call_ok (fixPatch _) => true | _ => false end)
            (traceOf exhaustedEnv)) = 2%nat.
Proof.
  split; [vm_compute; reflexivity|]. split; [|split; vm_compute; reflexivity].
  apply list_elem_of_In. vm_compute. tauto.
Qed.

End LoopMore.

(** ** The driver (src/loop.ts, run) *)

Module Driver.

Import Loop.

(** The calls [run] awaits itself. *)
Inductive RunCall :=
| connectToDatabase
| cleanupStalePRs
| cloneRepo
| storeCrashMemory (content : str)
| disconnectFromDatabase.

(** The trace of a run: its own calls, and the events of its iterations,
    numbered from 0. *)
Inductive RunEvent :=
| Run_ok (c : RunCall)
| Run_threw (c : RunCall)
| InIteration (k : nat) (e : Event).

(** The environment of a run; [crashMessage] is the message of the error
    that reaches the [catch] clause. *)
Record RunEnv := {
  connectR : Reply unit;
  cleanupR : Reply unit;
  cloneR : Reply unit;
  iterationEnvs : list Env;
  crashMessage : str;
  storeCrashR : Reply unit;
  disconnectR : Reply unit
}.

Definition runCall (c : RunCall) (reply : Reply unit) : list RunEvent * Outcome unit :=
  match reply with
  | Returned _ => ([Run_ok c], Done tt)
  | Threw => ([Run_threw c], Exception)
  end.

(** [while (!merged) { merged = await iterate() }], the [k]-th iteration
    first. *)
Fixpoint iterations (k : nat) (envs : list Env) : list RunEvent * Outcome unit :=
  match envs with
  | [] => ([], Waiting)
  | env :: rest =>
      let '(tr, o) := iterate env [] in
      let evs := map (InIteration k) tr in
      match o with
      | Done true => (evs, Done tt)
      | Done false =>
          let '(evs', o') := iterations (S k) rest in (evs ++ evs', o')
      | Exception => (evs, Exception)
      | Waiting => (evs, Waiting)
      end
  end.

(** The [try] block of [run]. *)
Definition runBody (env : RunEnv) : list RunEvent * Outcome unit :=
  match runCall cleanupStalePRs (cleanupR env) with
  | (e1, Done _) =>
      match runCall cloneRepo (cloneR env) with
      | (e2, Done _) =>
          let '(evs, o) := iterations 0 (iterationEnvs env) in (e1 ++ e2 ++ evs, o)
      | (e2, o) => (e1 ++ e2, o)
      end
  | r => r
  end.

(** [run]: [connectToDatabase] comes before the [try]; the [catch] clause
    stores a crash memory, swallowing a failure to do so, and rethrows;
    the [finally] clause disconnects. *)
Definition run (env : RunEnv) : list RunEvent * Outcome unit :=
  match runCall connectToDatabase (connectR env) with
  | (e0, Done _) =>
      let '(evs, o) := runBody env in
      match o with
      | Waiting => (e0 ++ evs, Waiting)
      | Done _ =>
          let '(ed, od) := runCall disconnectFromDatabase (disconnectR env) in
          (e0 ++ evs ++ ed, od)
      | Exception =>
          let '(ec, _) :=
            runCall (storeCrashMemory
                       (lit "Iteration crashed with error: " ++ crashMessage env))
                    (storeCrashR env) in
          let '(ed, _) := runCall disconnectFromDatabase (disconnectR env) in
          (e0 ++ evs ++ ec ++ ed, Exception)
      end
  | r => r
  end.

Definition isDisconnect (e : RunEvent) : Prop :=
  e = Run_ok disconnectFromDatabase \/ e = Run_threw disconnectFromDatabase.

Lemma runCall_last c reply : exists e, (runCall c reply).1 = [e] /\
  (e = Run_ok c \/ e = Run_threw c).
Proof. destruct reply; cbn; eauto. Qed.

(** X21: once [connectToDatabase] has returned, a run that returns or
    throws ends with the call of [disconnectFromDatabase]; a run that
    ends by [connectToDatabase] throwing makes no other call. *)
Theorem run_disconnects (env : RunEnv) :
  match connectR env, (run env).2 with
  | Threw, _ => run env = ([Run_threw connectToDatabase], Exception)
  | Returned _, Waiting => True
  | Returned _, _ => exists e, last (run env).1 = Some e /\ isDisconnect e
  end.
Proof.
  unfold run. destruct (connectR env); cbn; [|done].
  destruct (runBody env) as [evs [[]| |]]; cbn; [| |done].
  - destruct (disconnectR env); cbn;
      (eexists; split;
       [apply last_Some; exists (Run_ok connectToDatabase :: evs); reflexivity|]);
      [by left|by right].
  - destruct (storeCrashR env), (disconnectR env); cbn;
      (eexists; split;
       [apply last_Some; eexists (Run_ok connectToDatabase :: evs ++ [_]);
        cbn; by rewrite <- app_assoc|]);
      first [by left|by right].
Qed.

Lemma iterations_done envs : forall k evs,
  iterations k envs = (evs, Done tt) ->
  exists n e, envs !! n = Some e /\ (iterate e []).2 = Done true /\
    (forall j ej, (j < n)%nat -> envs !! j = Some ej ->
                  (iterate ej []).2 = Done false) /\
    (forall j ev, InIteration j ev ∈ evs -> (k <= j <= k + n)%nat) /\
    (forall c, (Run_ok c ∉ evs) /\ (Run_threw c ∉ evs)).
Proof.
  induction envs as [|env rest IH]; intros k evs; cbn [iterations]; [done|].
  destruct (iterate env []) as [tr [[|]| |]] eqn:E; try done.
  - intros [= <-]. exists 0%nat, env. split; [done|]. rewrite E.
    split; [done|]. split; [lia|]. split.
    + intros j ev [x [[= -> ->] _]]%list_elem_of_fmap. lia.
    + intros c; split; intros [x [[=] _]]%list_elem_of_fmap.
  - destruct (iterations (S k) rest) as [evs' o'] eqn:E'. intros [= <- ->].
    destruct (IH _ _ E') as (n & e & Hl & Hd & Hbefore & Hidx & Hown).
    exists (S n), e. split; [done|]. split; [done|]. split; [|split].
    + intros [|j] ej Hj Hlj.
      * injection Hlj as <-. by rewrite E.
      * apply (Hbefore j); [lia|done].
    + intros j ev [[x [[= -> ->] _]]%list_elem_of_fmap|Hin]%elem_of_app; [lia|].
      apply Hidx in Hin. lia.
    + intros c. destruct (Hown c) as [H1 H2].
      split; intros [[x [[=] _]]%list_elem_of_fmap|Hin]%elem_of_app; tauto.
Qed.

(** X22: [run] returns only after an iteration has returned [true]; all
    the iterations before that one returned [false], and none is started
    after it. *)
Theorem run_returns_after_merge (env : RunEnv) :
  (run env).2 = Done tt ->
  exists n e, iterationEnvs env !! n = Some e /\ (iterate e []).2 = Done true /\
    (forall j ej, (j < n)%nat -> iterationEnvs env !! j = Some ej ->
                  (iterate ej []).2 = Done false) /\
    (forall j ev, InIteration j ev ∈ (run env).1 -> (j <= n)%nat).
Proof.
  unfold run, runBody.
  destruct (connectR env); cbn; [|done].
  destruct (cleanupR env); cbn; [|by destruct (storeCrashR env), (disconnectR env)].
  destruct (cloneR env); cbn; [|by destruct (storeCrashR env), (disconnectR env)].
  destruct (iterations 0 (iterationEnvs env)) as [evs [[]| |]] eqn:E; cbn;
    [|by destruct (storeCrashR env), (disconnectR env)|done].
  destruct (iterations_done _ _ _ E) as (n & e & Hl & Hd & Hbefore & Hidx & _).
  intros _. exists n, e. repeat split; try done.
  intros j ev Hin.
  assert (InIteration j ev ∈ evs) as Hin'.
  { destruct (disconnectR env); cbn in Hin;
      repeat (apply elem_of_cons in Hin as [[=]|Hin]);
      apply elem_of_app in Hin as [Hin|Hin]; try done;
      by apply list_elem_of_singleton in Hin. }
  apply Hidx in Hin'. lia.
Qed.

Definition mergingRun : RunEnv :=
  {| connectR := Returned tt; cleanupR := Returned tt; cloneR := Returned tt;
     iterationEnvs := [happyEnv];
     crashMessage := [];
     storeCrashR := Returned tt; disconnectR := Returned tt |}.

Lemma run_returns_after_merge_witness :
  exists n e, iterationEnvs mergingRun !! n = Some e /\
    (iterate e []).2 = Done true /\
    (forall j ej, (j < n)%nat -> iterationEnvs mergingRun !! j = Some ej ->
                  (iterate ej []).2 = Done false) /\
    (forall j ev, InIteration j ev ∈ (run mergingRun).1 -> (j <= n)%nat).
Proof. apply (run_returns_after_merge mergingRun). vm_compute. reflexivity. Defined.

End Driver.

(** ** The diff shown to the builder (tools/git.ts, getDiff and abbreviateDiff) *)

Module Diff.

Import Git.

(** [String.prototype.split('\n')]. *)
Fixpoint split (s : str) : list str :=
  match s with
  | [] => [[]]
  | c :: r =>
      if (c =? 10)%N then [] :: split r
      else match split r with
           | l :: ls => (c :: l) :: ls
           | [] => [[c]]
           end
  end.

(** [String.prototype.includes]. *)
Definition includes (s search : str) : bool := negb (indexOf s search 0 =? -1).

(** [s.replace(/^p/, '')] for a literal [p]. *)
Definition dropPrefix (p s : str) : str :=
  if startsWith p s then drop (length p) s else s.

Definition isHeader (line : str) : bool := startsWith (lit "diff --git ") line.

(** What the look-ahead finds out about a file. *)
Record Look := { isCreated : bool; isDeleted : bool; filePath : str }.

(** The look-ahead loop: the lines pushed, what was found, the lines that remain. *)
Fixpoint headerLoop (look : Look) (lines : list str) : list str * Look * list str :=
  match lines with
  | [] => ([], look, [])
  | currentLine :: rest =>
      if isHeader currentLine then ([], look, lines)
      else if startsWith (lit "--- ") currentLine then
        let look' :=
          if includes currentLine (lit "/dev/null")
          then {| isCreated := true; isDeleted := isDeleted look;
                  filePath := filePath look |}
          else {| isCreated := isCreated look; isDeleted := isDeleted look;
                  filePath := dropPrefix (lit "a/") (drop 4 currentLine) |} in
        let '(pushed, found, remaining) := headerLoop look' rest in
        (currentLine :: pushed, found, remaining)
      else if startsWith (lit "+++ ") currentLine then
        let look' :=
          if includes currentLine (lit "/dev/null")
          then {| isCreated := isCreated look; isDeleted := true;
                  filePath := filePath look |}
          else {| isCreated := isCreated look; isDeleted := isDeleted look;
                  filePath := dropPrefix (lit "b/") (drop 4 currentLine) |} in
        ([currentLine], look', rest)
      else
        let '(pushed, found, remaining) := headerLoop look rest in
        (currentLine :: pushed, found, remaining)
  end.

(** The loop over the content of a created file: the added lines are
    counted, nothing is pushed. *)
Fixpoint countLoop (lineCount : Z) (lines : list str) : Z * list str :=
  match lines with
  | [] => (lineCount, [])
  | l :: rest =>
      if isHeader l then (lineCount, lines)
      else if startsWith (lit "+") l && negb (startsWith (lit "+++") l)
           then countLoop (lineCount + 1) rest
           else countLoop lineCount rest
  end.

(** The loop over the content of a deleted file. *)
Fixpoint skipLoop (lines : list str) : list str :=
  match lines with
  | [] => []
  | l :: rest => if isHeader l then lines else skipLoop rest
  end.

(** The loop over the content of a modified file. *)
Fixpoint keepLoop (lines : list str) : list str * list str :=
  match lines with
  | [] => ([], [])
  | l :: rest =>
      if isHeader l then ([], lines)
      else let '(kept, remaining) := keepLoop rest in (l :: kept, remaining)
  end.

Definition createdLine (filePath : str) (lineCount : Z) : str :=
  lit "Created: " ++ filePath ++ lit " (" ++ Loop.numStr lineCount ++ lit " lines)".

Definition deletedLine (filePath : str) : str := lit "Deleted: " ++ filePath.

(** What follows a file header: the lines pushed and the lines that remain. *)
Definition fileBlock (lines : list str) : list str * list str :=
  let '(pushed, look, rest) :=
    headerLoop {| isCreated := false; isDeleted := false; filePath := [] |} lines in
  if isCreated look then
    let '(lineCount, remaining) := countLoop 0 rest in
    (pushed ++ [createdLine (filePath look) lineCount; []], remaining)
  else if isDeleted look then
    (pushed ++ [deletedLine (filePath look); []], skipLoop rest)
  else
    let '(kept, remaining) := keepLoop rest in (pushed ++ kept, remaining).

Lemma headerLoop_split lines : forall look,
  lines = (headerLoop look lines).1.1 ++ (headerLoop look lines).2.
Proof.
  induction lines as [|l rest IH]; intros look; cbn [headerLoop]; [done|].
  destruct (isHeader l); [done|].
  destruct (startsWith (lit "--- ") l).
  { match goal with |- context [headerLoop ?k rest] => specialize (IH k);
      destruct (headerLoop k rest) as [[p f] r] end.
    cbn in *. by rewrite <- IH. }
  destruct (startsWith (lit "+++ ") l); [done|].
  specialize (IH look). destruct (headerLoop look rest) as [[p f] r].
  cbn in *. by rewrite <- IH.
Qed.

Lemma countLoop_suffix lines : forall n, (countLoop n lines).2 `suffix_of` lines.
Proof.
  induction lines as [|l rest IH]; intros n; cbn [countLoop]; [done|].
  destruct (isHeader l); [done|].
  destruct (_ && _); apply suffix_cons_r, IH.
Qed.

Lemma skipLoop_suffix lines : skipLoop lines `suffix_of` lines.
Proof.
  induction lines as [|l rest IH]; cbn [skipLoop]; [done|].
  destruct (isHeader l); [done|]. by apply suffix_cons_r.
Qed.

Lemma keepLoop_split lines : lines = (keepLoop lines).1 ++ (keepLoop lines).2.
Proof.
  induction lines as [|l rest IH]; cbn [keepLoop]; [done|].
  destruct (isHeader l); [done|].
  destruct (keepLoop rest) as [k r]. cbn in *. by rewrite <- IH.
Qed.

Lemma fileBlock_suffix lines : (fileBlock lines).2 `suffix_of` lines.
Proof.
  unfold fileBlock.
  pose proof (headerLoop_split lines
                {| isCreated := false; isDeleted := false; filePath := [] |}) as Hs.
  destruct (headerLoop _ lines) as [[pushed look] rest]. cbn in Hs.
  assert (Hr : rest `suffix_of` lines) by (rewrite Hs; apply suffix_app_r; done).
  destruct (isCreated look).
  { pose proof (countLoop_suffix rest 0) as Hc.
    destruct (countLoop 0 rest) as [n remaining]. cbn in *. by etrans. }
  destruct (isDeleted look).
  { cbn. etrans; [apply skipLoop_suffix|done]. }
  pose proof (keepLoop_split rest) as Hk.
  destruct (keepLoop rest) as [kept remaining]. cbn in *.
  etrans; [|exact Hr]. rewrite Hk. by apply suffix_app_r.
Qed.

Lemma fileBlock_length lines : (length (fileBlock lines).2 <= length lines)%nat.
Proof. apply suffix_length, fileBlock_suffix. Qed.

(** The outer loop: the lines of the result. *)
Function diffLoop (lines : list str) {measure length lines} : list str :=
  match lines with
  | [] => []
  | line :: rest =>
      if isHeader line
      then line :: (fileBlock rest).1 ++ diffLoop (fileBlock rest).2
      else line :: diffLoop rest
  end.
Proof.
  all: intros lines line rest _ _; pose proof (fileBlock_length rest);
    cbn [length]; lia.
Defined.



Definition truncatedNote (total : nat) : str :=
  nl ++ nl ++ lit "(truncated " ++ emdash ++ lit " "
     ++ Loop.numStr (Z.of_nat total) ++ lit " total lines)".

Definition abbreviateDiff (diff : str) : str :=
  let lines := split diff in
  let result := diffLoop lines in
  let output := join nl result in
  let outputLines := split output in
  if bool_decide (500 < length outputLines)%nat
  then join nl (take 500 outputLines) ++ truncatedNote (length outputLines)
  else output.

(** [getDiff], given the text [git.diff] returns. *)
Definition getDiff (diff : str) : str :=
  if bool_decide (trim diff = []) then lit "No changes compared to main."
  else abbreviateDiff diff.

(** *** Splitting and joining lines *)

Definition noNl (line : str) : Prop := Forall (fun c => c <> 10%N) line.

Lemma split_nonempty s : split s <> [].
Proof.
  destruct s as [|c r]; cbn [split]; [done|].
  destruct (c =? 10)%N; [done|]. by destruct (split r).
Qed.

Lemma join_split s : join nl (split s) = s.
Proof.
  induction s as [|c r IH]; cbn [split]; [done|].
  destruct (c =? 10)%N eqn:E.
  - apply N.eqb_eq in E as ->. pose proof (split_nonempty r).
    destruct (split r) as [|l ls] eqn:Er; [done|].
    cbn [join]. cbn [join] in IH. by rewrite IH.
  - pose proof (split_nonempty r).
    destruct (split r) as [|l ls]; [done|].
    destruct ls; cbn [join] in *; by rewrite <- IH.
Qed.

Lemma split_noNl s : Forall noNl (split s).
Proof.
  induction s as [|c r IH]; cbn [split]; [by repeat constructor|].
  destruct (c =? 10)%N eqn:E; [constructor; [constructor|done]|].
  apply N.eqb_neq in E.
  destruct (split r) as [|l ls]; [by repeat constructor|].
  apply Forall_cons in IH as [Hl Hls]. constructor; [|done].
  by constructor.
Qed.

Lemma split_line l : noNl l -> split l = [l].
Proof.
  induction 1 as [|c r Hc _ IH]; cbn [split]; [done|].
  apply N.eqb_neq in Hc. by rewrite Hc, IH.
Qed.

Lemma split_app_nl a b : split (a ++ 10%N :: b) = split a ++ split b.
Proof.
  induction a as [|c r IH]; cbn [split app]; [done|].
  destruct (c =? 10)%N; [by rewrite IH|].
  rewrite IH. pose proof (split_nonempty r). by destruct (split r).
Qed.

Lemma split_join ls : ls <> [] -> Forall noNl ls -> split (join nl ls) = ls.
Proof.
  intros Hne Hall. induction Hall as [|l ls Hl Hls IH]; [done|].
  destruct ls as [|l' ls']; cbn [join]; [by apply split_line|].
  unfold nl. cbn [app]. rewrite split_app_nl, split_line by done.
  cbn [app]. f_equal. by apply IH.
Qed.

Lemma noNl_app a b : noNl a -> noNl b -> noNl (a ++ b).
Proof. apply Forall_app_2. Qed.

Lemma noNl_digits d : noNl (lit (DecimalString.NilEmpty.string_of_uint d)).
Proof.
  unfold lit. induction d; cbn; [constructor|..]; by constructor.
Qed.

Lemma noNl_numStr n : noNl (Loop.numStr n).
Proof.
  unfold Loop.numStr, DecimalString.NilZero.string_of_int,
    DecimalString.NilZero.string_of_uint.
  destruct (Z.to_int n) as [d|d].
  - destruct d; first [apply noNl_digits|by repeat constructor].
  - change (noNl (45%N :: lit match d with
                               | Decimal.Nil => "0"
                               | _ => DecimalString.NilEmpty.string_of_uint d
                               end)).
    constructor; [done|].
    destruct d; first [apply noNl_digits|by repeat constructor].
Qed.

(** *** The loops, line by line *)

(** No line contains [/dev/null]. *)
Definition noDevNull (lines : list str) : Prop :=
  Forall (fun l => includes l (lit "/dev/null") = false) lines.

Definition headers (lines : list str) : list str := List.filter isHeader lines.

Lemma headerLoop_flags lines : forall look,
  noDevNull lines ->
  isCreated (headerLoop look lines).1.2 = isCreated look /\
  isDeleted (headerLoop look lines).1.2 = isDeleted look.
Proof.
  induction lines as [|l rest IH]; intros look Hall; cbn [headerLoop]; [done|].
  apply Forall_cons in Hall as [Hl Hrest].
  destruct (isHeader l); [done|]. rewrite Hl.
  destruct (startsWith (lit "--- ") l).
  { match goal with |- context [headerLoop ?k rest] =>
      specialize (IH k Hrest); destruct (headerLoop k rest) as [[p f] r] end.
    done. }
  destruct (startsWith (lit "+++ ") l); [done|].
  specialize (IH look Hrest). by destruct (headerLoop look rest) as [[p f] r].
Qed.

Lemma headerLoop_headers lines : forall look,
  headers (headerLoop look lines).1.1 = [] /\
  headers (headerLoop look lines).2 = headers lines.
Proof.
  induction lines as [|l rest IH]; intros look; cbn [headerLoop]; [done|].
  destruct (isHeader l) eqn:E; [done|].
  destruct (startsWith (lit "--- ") l).
  { match goal with |- context [headerLoop ?k rest] =>
      specialize (IH k); destruct (headerLoop k rest) as [[p f] r] end.
    unfold headers in *. cbn [fst snd List.filter] in *. by rewrite E. }
  destruct (startsWith (lit "+++ ") l).
  { unfold headers. cbn. by rewrite E. }
  specialize (IH look). destruct (headerLoop look rest) as [[p f] r].
  unfold headers in *. cbn [fst snd List.filter] in *. by rewrite E.
Qed.

Lemma noNl_dropPrefix p s : noNl s -> noNl (dropPrefix p s).
Proof. unfold dropPrefix. destruct (startsWith p s); [apply Forall_drop|done]. Qed.

Lemma headerLoop_noNl lines : forall look,
  Forall noNl lines -> noNl (filePath look) ->
  Forall noNl (headerLoop look lines).1.1 /\ noNl (filePath (headerLoop look lines).1.2).
Proof.
  induction lines as [|l rest IH]; intros look Hall Hp; cbn [headerLoop];
    [by split|].
  apply Forall_cons in Hall as [Hl Hrest].
  assert (Hd : forall p, noNl (dropPrefix p (drop 4 l)))
    by (intros p; by apply noNl_dropPrefix, Forall_drop).
  destruct (isHeader l); [by split|].
  destruct (startsWith (lit "--- ") l).
  { match goal with |- context [headerLoop ?k rest] =>
      specialize (IH k Hrest); destruct (headerLoop k rest) as [[p f] r] end.
    cbn [fst snd] in *. destruct IH as [IH1 IH2].
    - destruct (includes l _); cbn; [done|apply Hd].
    - split; [by constructor|done]. }
  destruct (startsWith (lit "+++ ") l).
  { cbn [fst snd]. split; [by repeat constructor|].
    destruct (includes l _); cbn; [done|apply Hd]. }
  specialize (IH look Hrest Hp). destruct (headerLoop look rest) as [[p f] r].
  cbn [fst snd] in *. destruct IH. split; [by constructor|done].
Qed.

Lemma countLoop_headers lines : forall n,
  headers (countLoop n lines).2 = headers lines.
Proof.
  induction lines as [|l rest IH]; intros n; cbn [countLoop]; [done|].
  destruct (isHeader l) eqn:E; [done|].
  unfold headers in *. cbn [List.filter]. rewrite E.
  destruct (_ && _); apply IH.
Qed.

Lemma skipLoop_headers lines : headers (skipLoop lines) = headers lines.
Proof.
  induction lines as [|l rest IH]; cbn [skipLoop]; [done|].
  destruct (isHeader l) eqn:E; [done|].
  unfold headers in *. cbn [List.filter]. by rewrite E.
Qed.

Lemma keepLoop_headers lines :
  headers (keepLoop lines).1 = [] /\ headers (keepLoop lines).2 = headers lines.
Proof.
  induction lines as [|l rest IH]; cbn [keepLoop]; [done|].
  destruct (isHeader l) eqn:E; [done|].
  destruct (keepLoop rest) as [k r]. unfold headers in *.
  cbn [fst snd List.filter] in *. by rewrite E.
Qed.

Lemma headers_app a b : headers (a ++ b) = headers a ++ headers b.
Proof. apply List.filter_app. Qed.

(** After a file header: the lines that follow are pushed unchanged when
    none of them contains [/dev/null]. *)
Lemma fileBlock_modified lines :
  noDevNull lines -> (fileBlock lines).1 ++ (fileBlock lines).2 = lines.
Proof.
  intros Hall. unfold fileBlock.
  set (look0 := {| isCreated := false; isDeleted := false; filePath := [] |}).
  pose proof (headerLoop_split lines look0) as Hs.
  destruct (headerLoop_flags lines look0 Hall) as [Hc Hd].
  destruct (headerLoop look0 lines) as [[pushed look] rest]. cbn in Hs, Hc, Hd.
  rewrite Hc, Hd. pose proof (keepLoop_split rest) as Hk.
  destruct (keepLoop rest) as [kept remaining]. cbn in *.
  by rewrite <- app_assoc, <- Hk.
Qed.

Lemma fileBlock_headers lines :
  headers (fileBlock lines).1 = [] /\ headers (fileBlock lines).2 = headers lines.
Proof.
  unfold fileBlock.
  set (look0 := {| isCreated := false; isDeleted := false; filePath := [] |}).
  destruct (headerLoop_headers lines look0) as [H1 H2].
  destruct (headerLoop look0 lines) as [[pushed look] rest]. cbn [fst snd] in H1, H2.
  destruct (isCreated look).
  { pose proof (countLoop_headers rest 0) as Hc.
    destruct (countLoop 0 rest) as [n remaining]. cbn [fst snd] in *.
    split; [rewrite headers_app, H1; reflexivity|by rewrite Hc, H2]. }
  destruct (isDeleted look).
  { cbn [fst snd].
    split; [rewrite headers_app, H1; reflexivity|by rewrite skipLoop_headers, H2]. }
  destruct (keepLoop_headers rest) as [Hk1 Hk2].
  destruct (keepLoop rest) as [kept remaining]. cbn [fst snd] in *.
  split; [by rewrite headers_app, H1, Hk1|by rewrite Hk2, H2].
Qed.

Lemma keepLoop_noNl lines : Forall noNl lines -> Forall noNl (keepLoop lines).1.
Proof.
  induction 1 as [|l rest Hl _ IH]; cbn [keepLoop]; [done|].
  destruct (isHeader l); [done|].
  destruct (keepLoop rest) as [k r]. by constructor.
Qed.

Lemma noNl_lit_created : noNl (lit "Created: ") /\ noNl (lit " (") /\
  noNl (lit " lines)") /\ noNl (lit "Deleted: ").
Proof. repeat split; by repeat constructor. Qed.

Lemma fileBlock_noNl lines : Forall noNl lines -> Forall noNl (fileBlock lines).1.
Proof.
  intros Hall. unfold fileBlock.
  set (look0 := {| isCreated := false; isDeleted := false; filePath := [] |}).
  pose proof (headerLoop_split lines look0) as Hs.
  destruct (headerLoop_noNl lines look0 Hall) as [Hp Hf]; [constructor|].
  destruct (headerLoop look0 lines) as [[pushed look] rest]. cbn in Hs, Hp, Hf.
  destruct noNl_lit_created as (L1 & L2 & L3 & L4).
  destruct (isCreated look).
  { destruct (countLoop 0 rest) as [n remaining]. cbn.
    apply Forall_app_2; [done|].
    constructor; [|constructor; constructor].
    unfold createdLine. repeat apply noNl_app; try done. apply noNl_numStr. }
  destruct (isDeleted look).
  { cbn. apply Forall_app_2; [done|].
    constructor; [|constructor; constructor].
    unfold deletedLine. by apply noNl_app. }
  pose proof (keepLoop_noNl rest) as Hk.
  destruct (keepLoop rest) as [kept remaining]. cbn in *.
  apply Forall_app_2; [done|]. apply Hk.
  rewrite Hs in Hall. by apply Forall_app in Hall as [_ ?].
Qed.

(** *** The outer loop *)

Lemma diffLoop_ind_length (P : list str -> Prop) :
  (forall lines, (forall ls, (length ls < length lines)%nat -> P ls) -> P lines) ->
  forall lines, P lines.
Proof.
  intros Hstep lines. remember (length lines) as n eqn:Hn. revert lines Hn.
  induction n as [n IH] using lt_wf_ind. intros lines ->.
  apply Hstep. intros ls Hlt. by apply (IH (length ls)).
Qed.

Lemma diffLoop_modified lines : noDevNull lines -> diffLoop lines = lines.
Proof.
  induction lines as [lines IH] using diffLoop_ind_length.
  destruct lines as [|line rest]; intros Hall; rewrite diffLoop_equation; try done.
  apply Forall_cons in Hall as [_ Hrest].
  destruct (isHeader line).
  - rewrite IH.
    + by rewrite fileBlock_modified.
    + pose proof (fileBlock_length rest). cbn. lia.
    + destruct (fileBlock_suffix rest) as [k Hk]. unfold noDevNull in *.
      rewrite Hk in Hrest. by apply Forall_app in Hrest as [_ ?].
  - rewrite IH; [done|cbn; lia|done].
Qed.

Lemma diffLoop_headers lines : headers (diffLoop lines) = headers lines.
Proof.
  induction lines as [lines IH] using diffLoop_ind_length.
  destruct lines as [|line rest]; rewrite diffLoop_equation; try done.
  destruct (isHeader line) eqn:E.
  - destruct (fileBlock_headers rest) as [H1 H2].
    change (line :: (fileBlock rest).1 ++ diffLoop (fileBlock rest).2)
      with ([line] ++ (fileBlock rest).1 ++ diffLoop (fileBlock rest).2).
    rewrite !headers_app, H1, IH, H2.
    + unfold headers. cbn. by rewrite E.
    + pose proof (fileBlock_length rest). cbn. lia.
  - unfold headers in *. cbn [List.filter]. rewrite E. apply IH. cbn. lia.
Qed.

Lemma diffLoop_noNl lines : Forall noNl lines -> Forall noNl (diffLoop lines).
Proof.
  induction lines as [lines IH] using diffLoop_ind_length.
  destruct lines as [|line rest]; intros Hall; rewrite diffLoop_equation; try done.
  apply Forall_cons in Hall as [Hl Hrest].
  destruct (isHeader line).
  - constructor; [done|]. apply Forall_app_2; [by apply fileBlock_noNl|].
    apply IH.
    + pose proof (fileBlock_length rest). cbn. lia.
    + destruct (fileBlock_suffix rest) as [k Hk].
      rewrite Hk in Hrest. by apply Forall_app in Hrest as [_ ?].
  - constructor; [done|]. apply IH; [cbn; lia|done].
Qed.

Lemma diffLoop_nonempty lines : lines <> [] -> diffLoop lines <> [].
Proof.
  destruct lines as [|line rest]; [done|]. intros _. rewrite diffLoop_equation.
  by destruct (isHeader line).
Qed.

(** The lines of the output before the truncation are the lines the loop
    pushed. *)
Lemma outputLines_result diff :
  split (join nl (diffLoop (split diff))) = diffLoop (split diff).
Proof.
  apply split_join.
  - apply diffLoop_nonempty, split_nonempty.
  - apply diffLoop_noNl, split_noNl.
Qed.

Lemma noNl_truncated total :
  noNl (lit "(truncated " ++ emdash ++ lit " "
          ++ Loop.numStr (Z.of_nat total) ++ lit " total lines)").
Proof.
  repeat apply noNl_app; try apply noNl_numStr; by repeat constructor.
Qed.

Lemma split_truncated (ls : list str) total :
  ls <> [] -> Forall noNl ls ->
  split (join nl ls ++ truncatedNote total)
  = ls ++ [ []; lit "(truncated " ++ emdash ++ lit " "
                 ++ Loop.numStr (Z.of_nat total) ++ lit " total lines)" ].
Proof.
  intros Hne Hall. unfold truncatedNote, nl. cbn [app].
  rewrite split_app_nl, split_join by done. f_equal.
  change (10%N :: ?x) with ([] ++ 10%N :: x).
  rewrite split_app_nl. cbn [split app]. f_equal.
  apply split_line, noNl_truncated.
Qed.

(** X23: a diff in which no line contains [/dev/null] (no file is created
    or deleted) and that has at most 500 lines is returned as it is. *)
Theorem abbreviateDiff_modified_only (diff : str) :
  noDevNull (split diff) -> (length (split diff) <= 500)%nat ->
  abbreviateDiff diff = diff.
Proof.
  intros Hall Hlen. unfold abbreviateDiff.
  rewrite outputLines_result, diffLoop_modified by done.
  rewrite bool_decide_eq_false_2 by lia. apply join_split.
Qed.

(** X24: the text returned by [abbreviateDiff], and so by [getDiff], has at
    most 502 lines, whatever the diff. *)
Theorem abbreviateDiff_bounded (diff : str) :
  (length (split (abbreviateDiff diff)) <= 502)%nat /\
  (length (split (getDiff diff)) <= 502)%nat.
Proof.
  assert (H : (length (split (abbreviateDiff diff)) <= 502)%nat).
  { unfold abbreviateDiff. rewrite outputLines_result.
    case_bool_decide as Hlen.
    - rewrite split_truncated.
      + rewrite length_app, length_take. cbn [length]. lia.
      + intros Heq. apply (f_equal length) in Heq. rewrite length_take in Heq.
        cbn [length] in Heq. lia.
      + apply Forall_take, diffLoop_noNl, split_noNl.
    - rewrite outputLines_result. lia. }
  split; [done|]. unfold getDiff. case_bool_decide; [|done].
  vm_compute. lia.
Qed.

(** X25: the file headers ([diff --git] lines) of the text returned by
    [abbreviateDiff] are the first ones of the diff, in order; all of them
    unless the text was truncated (it has 502 lines then). *)
Theorem abbreviateDiff_headers (diff : str) :
  let out := split (abbreviateDiff diff) in
  headers out `prefix_of` headers (split diff) /\
  (length out = 502%nat \/ headers out = headers (split diff)).
Proof.
  cbn zeta. unfold abbreviateDiff. rewrite outputLines_result.
  case_bool_decide as Hlen.
  - rewrite split_truncated.
    + split.
      * rewrite headers_app. 
        replace (headers [ []; _ ]) with (@nil str) by reflexivity.
        rewrite app_nil_r, <- (diffLoop_headers (split diff)).
        rewrite <- (take_drop 500 (diffLoop (split diff))) at 2.
        rewrite headers_app. by apply prefix_app_r.
      * left. rewrite length_app, length_take. cbn [length]. lia.
    + intros Heq. apply (f_equal length) in Heq. rewrite length_take in Heq.
      cbn [length] in Heq. lia.
    + apply Forall_take, diffLoop_noNl, split_noNl.
  - rewrite outputLines_result, diffLoop_headers. split; [done|by right].
Qed.

(** A diff with one modified file. *)
Definition modifiedDiff : str :=
  join nl [ lit " src/a.ts | 2 +-"; lit "diff --git a/src/a.ts b/src/a.ts";
            lit "index 1111111..2222222 100644";
            lit "--- a/src/a.ts"; lit "+++ b/src/a.ts";
            lit "@@ -1 +1 @@"; lit "-old"; lit "+new" ].

Lemma abbreviateDiff_modified_only_witness : abbreviateDiff modifiedDiff = modifiedDiff.
Proof.
  apply (abbreviateDiff_modified_only modifiedDiff).
  - vm_compute. repeat constructor.
  - vm_compute. lia.
Defined.

(** A created file, a deleted file and a modified one: the content of the
    first two is replaced by a summary line and an empty line. *)
Example abbreviateDiff_created_deleted :
  abbreviateDiff
    (join nl [ lit "diff --git a/new.ts b/new.ts"; lit "new file mode 100644";
               lit "--- /dev/null"; lit "+++ b/new.ts";
               lit "@@ -0,0 +1,2 @@"; lit "+one"; lit "+two";
               lit "diff --git a/old.ts b/old.ts"; lit "deleted file mode 100644";
               lit "--- a/old.ts"; lit "+++ /dev/null";
               lit "@@ -1 +0,0 @@"; lit "-gone";
               lit "diff --git a/m.ts b/m.ts";
               lit "--- a/m.ts"; lit "+++ b/m.ts"; lit "@@ -1 +1 @@"; lit "-x"; lit "+y" ])
  = join nl [ lit "diff --git a/new.ts b/new.ts"; lit "new file mode 100644";
              lit "--- /dev/null"; lit "+++ b/new.ts";
              lit "Created: new.ts (2 lines)"; [];
              lit "diff --git a/old.ts b/old.ts"; lit "deleted file mode 100644";
              lit "--- a/old.ts"; lit "+++ /dev/null";
              lit "Deleted: old.ts"; [];
              lit "diff --git a/m.ts b/m.ts";
              lit "--- a/m.ts"; lit "+++ b/m.ts"; lit "@@ -1 +1 @@"; lit "-x"; lit "+y" ].
Proof. vm_compute. reflexivity. Qed.

End Diff.

(** ** The analysis of past iterations (analyze.ts: computePhaseStats and
    analyzeIterations)

    Numbers are read as exact: token counts as integers, costs and rates
    as rationals. *)

Module Analyze.

(** A [Generated] record, the fields that are read. *)
Record GeneratedRecord := {
  phase : str;
  modelId : str;
  stopReason : str;
  iterationId : str;
  createdAt : Z;
  cost : Q;
  inputTokens : Z;
  outputTokens : Z;
  cacheReadTokens : Z;
  cacheWrite5mTokens : Z;
  cacheWrite1hTokens : Z
}.

(** [PhaseStats]; its [cacheReadTokens] is [readTokens] here. *)
Record PhaseStats := {
  count : nat;
  totalCost : Q;
  avgCost : Q;
  totalInputTokens : Z;
  totalOutputTokens : Z;
  avgInputTokens : Q;
  avgOutputTokens : Q;
  readTokens : Z;
  cacheWriteTokens : Z;
  cacheHitRate : Q
}.

(** [records.reduce((sum, r) => sum + f(r), 0)] *)
Definition sumZ (f : GeneratedRecord -> Z) (records : list GeneratedRecord) : Z :=
  foldl (fun sum r => sum + f r) 0 records.

Definition sumQ (f : GeneratedRecord -> Q) (records : list GeneratedRecord) : Q :=
  foldl (fun sum r => (sum + f r)%Q) 0%Q records.

(** [total > 0 ? reads / total : 0] *)
Definition hitRate (reads total : Z) : Q :=
  if 0 <? total then (inject_Z reads / inject_Z total)%Q else 0%Q.

Definition overN (total : Q) (n : nat) : Q := (total / inject_Z (Z.of_nat n))%Q.

(** [computePhaseStats]; the six fields it reads are the ones
    [analyzeIterations] copies from each record. *)
Definition computePhaseStats (records : list GeneratedRecord) : PhaseStats :=
  let count := length records in
  if bool_decide (count = 0%nat) then
    {| count := 0; totalCost := 0; avgCost := 0; totalInputTokens := 0;
       totalOutputTokens := 0; avgInputTokens := 0; avgOutputTokens := 0;
       readTokens := 0; cacheWriteTokens := 0; cacheHitRate := 0 |}
  else
    let totalCost := sumQ cost records in
    let totalInputTokens := sumZ inputTokens records in
    let totalOutputTokens := sumZ outputTokens records in
    let cacheReadTokens := sumZ cacheReadTokens records in
    let cacheWriteTokens :=
      foldl (fun sum r => sum + cacheWrite5mTokens r + cacheWrite1hTokens r) 0 records in
    let totalInputIncludingCache := totalInputTokens + cacheWriteTokens + cacheReadTokens in
    {| count := count; totalCost := totalCost; avgCost := overN totalCost count;
       totalInputTokens := totalInputTokens; totalOutputTokens := totalOutputTokens;
       avgInputTokens := overN (inject_Z totalInputTokens) count;
       avgOutputTokens := overN (inject_Z totalOutputTokens) count;
       readTokens := cacheReadTokens; cacheWriteTokens := cacheWriteTokens;
       cacheHitRate := hitRate cacheReadTokens totalInputIncludingCache |}.

(** *** Plain objects used as maps

    [phaseStats], [modelUsage] and [stopReasons] are plain objects
    ([{}]), not [Map]s.  Their entries (own properties) are a [gmap]; an
    assignment to the key [__proto__] makes no entry; and a key that the
    object has no entry for is read from [Object.prototype]. *)

Definition protoKey : str := lit "__proto__".

(** [object[key] = value] *)
Definition objectSet {A} (key : str) (value : A) (object : gmap str A) : gmap str A :=
  if bool_decide (key = protoKey) then object else <[key := value]> object.

(** What an entry of a tally holds: a count, or a string once the key
    was first read from [Object.prototype]. *)
Inductive TallyValue := Count (n : nat) | Text (s : str).

(** An iteration log: the levels of its entries. *)
Record LogRecord := { entries : list str }.

Record AnalysisReport := {
  totalIterations : nat;
  dateRange : option Z * option Z;
  totalCostAll : Q;
  totalCalls : nat;
  byPhase : gmap str PhaseStats;
  overallHitRate : Q;
  totalCacheReads : Z;
  totalCacheWrites : Z;
  modelUsage : gmap str TallyValue;
  stopReasons : gmap str TallyValue;
  errorCount : nat;
  warningCount : nat;
  totalLogEntries : nat
}.

(** The grouping loop: [if (!byPhase.has(phase)) byPhase.set(phase, [])],
    then [byPhase.get(phase).push(record)]. *)
Definition groupStep (byPhase : gmap str (list GeneratedRecord)) (record : GeneratedRecord)
  : gmap str (list GeneratedRecord) :=
  let byPhase :=
    match byPhase !! phase record with
    | None => <[phase record := []]> byPhase
    | Some _ => byPhase
    end in
  alter (fun l => l ++ [record]) (phase record) byPhase.

Definition groupByPhase (records : list GeneratedRecord) : gmap str (list GeneratedRecord) :=
  foldl groupStep ∅ records.

Section Analysis.

(** [String(Object.prototype[key])] for the keys that name a property of
    [Object.prototype] ([constructor], [toString], [__proto__], ...: a
    function or an object, so never falsy), [None] for every other key. *)
Variable inherited : str -> option str.

(** [usage[key] = (usage[key] || 0) + 1]: an entry of the object itself
    is a count of at least 1 or a string that is not empty, so [|| 0]
    only applies to a key that is found nowhere; a function or object
    plus 1 is a string. *)
Definition tallyStep (usage : gmap str TallyValue) (key : str) : gmap str TallyValue :=
  let current :=
    match usage !! key with
    | Some value => value
    | None =>
        match inherited key with
        | Some text => Text text
        | None => Count 0
        end
    end in
  objectSet key
    match current with
    | Count n => Count (n + 1)
    | Text text => Text (text ++ lit "1")
    end
    usage.

Definition tally (key : GeneratedRecord -> str) (records : list GeneratedRecord)
  : gmap str TallyValue :=
  foldl (fun usage r => tallyStep usage (key r)) ∅ records.

(** [for (const [phase, records] of byPhase)
       phaseStats[phase] = computePhaseStats(...)] *)
Definition phaseStatsOf (byPhase : gmap str (list GeneratedRecord)) : gmap str PhaseStats :=
  map_fold (fun phase records phaseStats =>
              objectSet phase (computePhaseStats records) phaseStats)
           ∅ byPhase.

(** The counting of the log entries. *)
Definition countLevel (level : str) (logs : list LogRecord) : nat :=
  foldl (fun n log =>
           foldl (fun n entry => if bool_decide (entry = level) then S n else n)
                 n (entries log))
        0%nat logs.

Definition countEntries (logs : list LogRecord) : nat :=
  foldl (fun n log => (n + length (entries log))%nat) 0%nat logs.

(** [Math.min(...xs)] and [Math.max(...xs)] of a list that is not empty. *)
Definition minOf (x : Z) (xs : list Z) : Z := foldl Z.min x xs.
Definition maxOf (x : Z) (xs : list Z) : Z := foldl Z.max x xs.

(** [analyzeIterations], given what the two queries return. *)
Definition analyzeIterations (generatedRecords : list GeneratedRecord)
    (logRecords : list LogRecord) : AnalysisReport :=
  match generatedRecords with
  | [] =>
      {| totalIterations := 0; dateRange := (None, None);
         totalCostAll := 0; totalCalls := 0; byPhase := ∅;
         overallHitRate := 0; totalCacheReads := 0; totalCacheWrites := 0;
         modelUsage := ∅; stopReasons := ∅;
         errorCount := 0; warningCount := 0; totalLogEntries := 0 |}
  | first :: others =>
      let phaseStats := phaseStatsOf (groupByPhase generatedRecords) in
      let totalCost := sumQ cost generatedRecords in
      let totalCacheReads := sumZ cacheReadTokens generatedRecords in
      let totalCacheWrites :=
        foldl (fun sum r => sum + cacheWrite5mTokens r + cacheWrite1hTokens r)
              0 generatedRecords in
      let totalInput := sumZ inputTokens generatedRecords in
      let totalInputIncludingCache := totalInput + totalCacheWrites + totalCacheReads in
      let dates := createdAt <$> others in
      let uniqueIterations := length (remove_dups (iterationId <$> generatedRecords)) in
      {| totalIterations :=
           if bool_decide (uniqueIterations = 0%nat) then length logRecords
           else uniqueIterations;
         dateRange := (Some (minOf (createdAt first) dates),
                       Some (maxOf (createdAt first) dates));
         totalCostAll := totalCost;
         totalCalls := length generatedRecords;
         byPhase := phaseStats;
         overallHitRate := hitRate totalCacheReads totalInputIncludingCache;
         totalCacheReads := totalCacheReads;
         totalCacheWrites := totalCacheWrites;
         modelUsage := tally modelId generatedRecords;
         stopReasons := tally stopReason generatedRecords;
         errorCount := countLevel (lit "error") logRecords;
         warningCount := countLevel (lit "warn") logRecords;
         totalLogEntries := countEntries logRecords |}
  end.

(** *** Groups *)

Definition ofPhase (p : str) (records : list GeneratedRecord) : list GeneratedRecord :=
  filter (fun r => phase r = p) records.

Lemma groupStep_lookup groups r p :
  groupStep groups r !! p
  = if decide (phase r = p) then Some (default [] (groups !! p) ++ [r])
    else groups !! p.
Proof.
  unfold groupStep. destruct (decide (phase r = p)) as [<-|Hne].
  - rewrite lookup_alter_eq. destruct (groups !! phase r) as [l|] eqn:E.
    + by rewrite E.
    + by rewrite lookup_insert_eq.
  - rewrite lookup_alter_ne by done. destruct (groups !! phase r); [done|].
    by rewrite lookup_insert_ne.
Qed.

Lemma groupByPhase_lookup records p :
  groupByPhase records !! p
  = match ofPhase p records with [] => None | l => Some l end.
Proof.
  unfold groupByPhase, ofPhase.
  induction records as [|r records IH] using rev_ind; [done|].
  rewrite foldl_app. cbn [foldl]. rewrite groupStep_lookup, IH, filter_app.
  rewrite filter_cons, filter_nil.
  destruct (decide (phase r = p)) as [Heq|Hne].
  - destruct (filter _ records); done.
  - by rewrite app_nil_r.
Qed.

(** *** Sums over the phases *)

Definition mapSum {A} (f : A -> Z) (m : gmap str A) : Z :=
  map_fold (fun _ v acc => f v + acc) 0 m.

Lemma mapSum_insert {A} (f : A -> Z) (m : gmap str A) k v :
  m !! k = None -> mapSum f (<[k := v]> m) = f v + mapSum f m.
Proof.
  intros Hk. unfold mapSum. rewrite map_fold_insert_L; [done| |done].
  intros. lia.
Qed.

Lemma mapSum_replace {A} (f : A -> Z) (m : gmap str A) k v v0 :
  m !! k = Some v0 -> mapSum f (<[k := v]> m) = f v - f v0 + mapSum f m.
Proof.
  intros Hk. rewrite <- (insert_delete_id m k v0 Hk) at 2.
  rewrite <- insert_delete_eq.
  rewrite !mapSum_insert by apply lookup_delete_eq. lia.
Qed.

Lemma mapSum_fmap {A B} (f : B -> Z) (h : A -> B) (m : gmap str A) :
  mapSum f (h <$> m) = mapSum (fun a => f (h a)) m.
Proof.
  induction m as [|k v m Hk IH] using map_ind; [done|].
  rewrite fmap_insert, !mapSum_insert, IH; [done|done|].
  by rewrite lookup_fmap, Hk.
Qed.

(** A measure of a list of records that adds [w r] for each record. *)
Definition additive (g : list GeneratedRecord -> Z) (w : GeneratedRecord -> Z) : Prop :=
  g [] = 0 /\ forall l r, g (l ++ [r]) = g l + w r.

Lemma mapSum_groupStep g w groups r :
  additive g w -> mapSum g (groupStep groups r) = mapSum g groups + w r.
Proof.
  intros [H0 Hs]. unfold groupStep.
  destruct (groups !! phase r) as [l|] eqn:E.
  - rewrite (alter_alt_Some _ _ _ _ E), (mapSum_replace _ _ _ _ _ E), Hs. lia.
  - rewrite alter_insert_eq, mapSum_insert by done. cbn beta.
    rewrite (Hs [] r), H0. lia.
Qed.

Lemma mapSum_groupByPhase g w records :
  additive g w -> mapSum g (groupByPhase records) = sumZ w records.
Proof.
  intros Ha. unfold groupByPhase, sumZ.
  induction records as [|r records IH] using rev_ind; [done|].
  rewrite !foldl_app. cbn [foldl]. by rewrite (mapSum_groupStep g w), IH.
Qed.

Lemma sumZ_snoc f l r : sumZ f (l ++ [r]) = sumZ f l + f r.
Proof. unfold sumZ. by rewrite foldl_app. Qed.

Lemma writes_snoc l r :
  foldl (fun sum r => sum + cacheWrite5mTokens r + cacheWrite1hTokens r) 0 (l ++ [r])
  = foldl (fun sum r => sum + cacheWrite5mTokens r + cacheWrite1hTokens r) 0 l
    + (cacheWrite5mTokens r + cacheWrite1hTokens r).
Proof. rewrite foldl_app. cbn. lia. Qed.

Lemma sumZ_ones l : sumZ (fun _ => 1) l = Z.of_nat (length l).
Proof.
  induction l as [|r l IH] using rev_ind; [done|].
  rewrite sumZ_snoc, length_app, IH. cbn. lia.
Qed.

Lemma writes_sumZ l :
  foldl (fun sum r => sum + cacheWrite5mTokens r + cacheWrite1hTokens r) 0 l
  = sumZ (fun r => cacheWrite5mTokens r + cacheWrite1hTokens r) l.
Proof.
  induction l as [|r l IH] using rev_ind; [done|].
  by rewrite writes_snoc, sumZ_snoc, IH.
Qed.

(** The integer totals of [computePhaseStats] are the sums also when
    there is no record. *)
Lemma computePhaseStats_totals records :
  count (computePhaseStats records) = length records /\
  readTokens (computePhaseStats records) = sumZ cacheReadTokens records /\
  cacheWriteTokens (computePhaseStats records)
  = foldl (fun sum r => sum + cacheWrite5mTokens r + cacheWrite1hTokens r) 0 records.
Proof.
  unfold computePhaseStats. case_bool_decide as Hlen; [|done].
  by destruct records.
Qed.

Lemma phaseStatsOf_entries (groups : gmap str (list GeneratedRecord)) :
  phaseStatsOf groups = base.delete protoKey (computePhaseStats <$> groups).
Proof.
  unfold phaseStatsOf.
  induction groups as [|k l groups Hk IH] using map_ind.
  - by rewrite map_fold_empty, fmap_empty, delete_empty.
  - rewrite map_fold_insert_L; [|intros|done].
    + rewrite IH, fmap_insert. unfold objectSet. case_bool_decide as Hp.
      * subst k. by rewrite delete_insert_eq.
      * by rewrite delete_insert_ne.
    + unfold objectSet. repeat case_bool_decide; try done.
      by apply insert_insert_ne.
Qed.

Lemma byPhase_lookup records logs p :
  byPhase (analyzeIterations records logs) !! p
  = if decide (p = protoKey) then None
    else match ofPhase p records with
         | [] => None
         | l => Some (computePhaseStats l)
         end.
Proof.
  destruct records as [|first others].
  { cbn. by destruct (decide (p = protoKey)). }
  cbn [analyzeIterations byPhase]. rewrite phaseStatsOf_entries.
  destruct (decide (p = protoKey)) as [->|Hne]; [apply lookup_delete_eq|].
  rewrite lookup_delete_ne, lookup_fmap, groupByPhase_lookup by done.
  by destruct (ofPhase p (first :: others)).
Qed.

(** X26: the statistics [analyzeIterations] reports for a phase are those
    of exactly the records of that phase, in the order of the query; a
    phase without records has no entry, so no entry has a count of 0; and
    there is never an entry for the phase [__proto__], whatever the
    records (the report is a plain object). *)
Theorem analyze_by_phase (records : list GeneratedRecord) (logs : list LogRecord)
    (p : str) :
  match byPhase (analyzeIterations records logs) !! p with
  | Some stats =>
      p <> protoKey /\
      stats = computePhaseStats (ofPhase p records) /\
      count stats = length (ofPhase p records) /\ (0 < count stats)%nat
  | None => p = protoKey \/ ofPhase p records = []
  end.
Proof.
  rewrite byPhase_lookup. destruct (decide (p = protoKey)) as [->|Hne]; [by left|].
  destruct (ofPhase p records) as [|r l] eqn:E; [by right|].
  split; [done|]. split; [done|].
  destruct (computePhaseStats_totals (r :: l)) as [-> _].
  cbn. split; [done|lia].
Qed.

(** *** Keys that are safe in a plain object *)

(** A key that makes an entry and is not found on [Object.prototype]. *)
Definition plainKey (key : str) : Prop := key <> protoKey /\ inherited key = None.

Definition plainRecord (r : GeneratedRecord) : Prop :=
  phase r <> protoKey /\ plainKey (modelId r) /\ plainKey (stopReason r).

Definition tallyCount (value : TallyValue) : Z :=
  match value with Count n => Z.of_nat n | Text _ => 0 end.

Definition isCount (value : TallyValue) : Prop := exists n, value = Count n.

Lemma tally_plain key records :
  Forall (fun r => plainKey (key r)) records ->
  mapSum tallyCount (tally key records) = Z.of_nat (length records) /\
  map_Forall (fun _ => isCount) (tally key records).
Proof.
  unfold tally. induction records as [|r records IH] using rev_ind.
  { intros _. split; [done|apply map_Forall_empty]. }
  intros [Hall Hr]%Forall_app. apply Forall_cons in Hr as [[Hproto Hinh] _].
  destruct (IH Hall) as [IHsum IHcount].
  rewrite foldl_app, length_app. cbn [foldl length].
  match goal with |- context [foldl ?f ∅ records] => set (usage := foldl f ∅ records) in * end.
  unfold tallyStep, objectSet. rewrite bool_decide_eq_false_2 by done.
  destruct (usage !! key r) as [value|] eqn:E.
  - destruct (IHcount _ _ E) as [n ->]. split.
    + rewrite (mapSum_replace _ _ _ _ _ E), IHsum. cbn. lia.
    + apply map_Forall_insert_2; [by eexists|done].
  - rewrite Hinh. split.
    + rewrite mapSum_insert, IHsum by done. cbn. lia.
    + apply map_Forall_insert_2; [by eexists|done].
Qed.

(** X27: when no phase is [__proto__] and no model id or stop reason is
    [__proto__] or names a property of [Object.prototype], the per-phase
    statistics partition the totals of the report: the counts of the
    phases add up to [totalCalls], their cache reads and cache writes to
    [totalCacheReads] and [totalCacheWrites]; and every entry of
    [modelUsage] and of [stopReasons] is a count, and they add up to
    [totalCalls] too. *)
Theorem analyze_totals_partition (records : list GeneratedRecord) (logs : list LogRecord) :
  Forall plainRecord records ->
  let report := analyzeIterations records logs in
  totalCalls report = length records /\
  mapSum (fun s => Z.of_nat (count s)) (byPhase report) = Z.of_nat (totalCalls report) /\
  mapSum readTokens (byPhase report) = totalCacheReads report /\
  mapSum cacheWriteTokens (byPhase report) = totalCacheWrites report /\
  (map_Forall (fun _ => isCount) (modelUsage report) /\
   mapSum tallyCount (modelUsage report) = Z.of_nat (totalCalls report)) /\
  (map_Forall (fun _ => isCount) (stopReasons report) /\
   mapSum tallyCount (stopReasons report) = Z.of_nat (totalCalls report)).
Proof.
  intros Hplain. destruct records as [|first others].
  { cbn. repeat split; apply map_Forall_empty. }
  cbn [analyzeIterations totalCalls byPhase totalCacheReads totalCacheWrites
       modelUsage stopReasons].
  set (records := first :: others) in *.
  assert (Hgroups : groupByPhase records !! protoKey = None).
  { rewrite groupByPhase_lookup. unfold ofPhase.
    destruct (filter _ records) as [|r l] eqn:E; [done|].
    assert (Hin : r ∈ filter (fun r => phase r = protoKey) records)
      by (rewrite E; by left).
    apply list_elem_of_filter in Hin as [Hp Hin].
    rewrite Forall_forall in Hplain. by destruct (Hplain r Hin). }
  rewrite phaseStatsOf_entries, delete_id by by rewrite lookup_fmap, Hgroups.
  split; [done|]. rewrite !mapSum_fmap.
  destruct (tally_plain modelId records) as [Hm1 Hm2].
  { eapply Forall_impl; [exact Hplain|]. by intros r (_ & ? & _). }
  destruct (tally_plain stopReason records) as [Hs1 Hs2].
  { eapply Forall_impl; [exact Hplain|]. by intros r (_ & _ & ?). }
  repeat split; try done.
  - rewrite (mapSum_groupByPhase _ (fun _ => 1)).
    + apply sumZ_ones.
    + split; [done|]. intros l r.
      destruct (computePhaseStats_totals (l ++ [r])) as [-> _].
      destruct (computePhaseStats_totals l) as [-> _].
      rewrite length_app. cbn. lia.
  - apply mapSum_groupByPhase. split; [done|]. intros l r.
    destruct (computePhaseStats_totals (l ++ [r])) as (_ & -> & _).
    destruct (computePhaseStats_totals l) as (_ & -> & _).
    apply sumZ_snoc.
  - rewrite (mapSum_groupByPhase _ (fun r => cacheWrite5mTokens r + cacheWrite1hTokens r)).
    + by rewrite writes_sumZ.
    + split; [done|]. intros l r.
      destruct (computePhaseStats_totals (l ++ [r])) as (_ & _ & ->).
      destruct (computePhaseStats_totals l) as (_ & _ & ->).
      apply writes_snoc.
Qed.

(** *** Rates *)

Lemma hitRate_bounds reads total :
  0 <= reads -> reads <= total -> (0 <= hitRate reads total <= 1)%Q.
Proof.
  intros Hr Ht. unfold hitRate. destruct (0 <? total) eqn:E; [|done].
  apply Z.ltb_lt in E.
  assert (Hpos : (0 < inject_Z total)%Q) by (rewrite <- (Zlt_Qlt 0); done).
  split.
  - apply Qle_shift_div_l; [done|]. rewrite Qmult_0_l. by rewrite <- (Zle_Qle 0).
  - apply Qle_shift_div_r; [done|]. rewrite Qmult_1_l. by rewrite <- Zle_Qle.
Qed.

(** No token count of a record is negative. *)
Definition nonNegative (r : GeneratedRecord) : Prop :=
  0 <= inputTokens r /\ 0 <= cacheReadTokens r /\
  0 <= cacheWrite5mTokens r /\ 0 <= cacheWrite1hTokens r.

Lemma sums_nonneg records :
  Forall nonNegative records ->
  0 <= sumZ inputTokens records /\ 0 <= sumZ cacheReadTokens records /\
  0 <= foldl (fun sum r => sum + cacheWrite5mTokens r + cacheWrite1hTokens r) 0 records.
Proof.
  induction records as [|r records IH] using rev_ind; [done|].
  intros [Hall Hr]%Forall_app. apply Forall_cons in Hr as [(H1 & H2 & H3 & H4) _].
  rewrite !sumZ_snoc, writes_snoc. specialize (IH Hall). lia.
Qed.

Lemma computePhaseStats_rate records :
  Forall nonNegative records ->
  (0 <= cacheHitRate (computePhaseStats records) <= 1)%Q.
Proof.
  intros Hall. unfold computePhaseStats. case_bool_decide; [done|].
  cbn [cacheHitRate]. pose proof (sums_nonneg records Hall).
  apply hitRate_bounds; lia.
Qed.

(** X28: when no token count is negative, the overall cache hit rate and
    the cache hit rate of every phase lie between 0 and 1. *)
Theorem analyze_hit_rates (records : list GeneratedRecord) (logs : list LogRecord) :
  Forall nonNegative records ->
  let report := analyzeIterations records logs in
  (0 <= overallHitRate report <= 1)%Q /\
  map_Forall (fun _ stats => (0 <= cacheHitRate stats <= 1)%Q) (byPhase report).
Proof.
  intros Hall report. split.
  - subst report. destruct records as [|first others]; [done|].
    cbn [analyzeIterations overallHitRate].
    pose proof (sums_nonneg _ Hall). apply hitRate_bounds; lia.
  - intros p stats Hp. subst report. rewrite byPhase_lookup in Hp.
    destruct (decide (p = protoKey)); [done|].
    destruct (ofPhase p records) as [|r l] eqn:E; [done|]. injection Hp as <-.
    apply computePhaseStats_rate. rewrite <- E. unfold ofPhase.
    apply Forall_forall. intros x [_ Hx]%list_elem_of_filter.
    by eapply Forall_forall in Hall.
Qed.

(** *** Logs, dates and iterations *)

Lemma countLevel_entries level1 level2 (es : list str) : forall n m,
  level1 <> level2 ->
  (foldl (fun n entry => if bool_decide (entry = level1) then S n else n) n es
   + foldl (fun n entry => if bool_decide (entry = level2) then S n else n) m es
   <= n + m + length es)%nat.
Proof.
  induction es as [|e es IH]; intros n m Hne; cbn [foldl length]; [lia|].
  repeat case_bool_decide; try congruence;
    (etrans; [apply IH; done|lia]).
Qed.

Lemma countLevel_logs level1 level2 logs :
  level1 <> level2 ->
  (countLevel level1 logs + countLevel level2 logs <= countEntries logs)%nat.
Proof.
  intros Hne. unfold countLevel, countEntries.
  induction logs as [|log logs IH] using rev_ind; [done|].
  rewrite !foldl_app. cbn [foldl].
  etrans; [by apply countLevel_entries|]. lia.
Qed.

Lemma minOf_le x xs : minOf x xs <= x /\ Forall (fun y => minOf x xs <= y) xs.
Proof.
  unfold minOf. revert x. induction xs as [|y xs IH]; intros x; cbn [foldl]; [done|].
  destruct (IH (Z.min x y)) as [H1 H2]. split; [lia|]. constructor; [lia|done].
Qed.

Lemma maxOf_ge x xs : x <= maxOf x xs /\ Forall (fun y => y <= maxOf x xs) xs.
Proof.
  unfold maxOf. revert x. induction xs as [|y xs IH]; intros x; cbn [foldl]; [done|].
  destruct (IH (Z.max x y)) as [H1 H2]. split; [lia|]. constructor; [lia|done].
Qed.

Lemma remove_dups_length {A} `{EqDecision A} (l : list A) :
  (length (remove_dups l) <= length l)%nat /\ (l <> [] -> remove_dups l <> []).
Proof.
  induction l as [|x l [IH1 IH2]]; [done|]. cbn [remove_dups length].
  destruct (decide_rel elem_of x l) as [Hin|]; cbn [length]; [|split; [lia|done]].
  split; [lia|]. intros _. apply IH2. intros ->. by apply elem_of_nil in Hin.
Qed.

(** X29: the report is consistent: errors and warnings together are never
    more than the log entries counted; with at least one record the date
    range holds the creation time of every record and the number of
    iterations is at least 1 (the number of logs is never used for it) and
    at most the number of calls; with no record the range is empty and all
    counts are 0, whatever the logs hold. *)
Theorem analyze_report_consistent (records : list GeneratedRecord) (logs : list LogRecord) :
  let report := analyzeIterations records logs in
  (errorCount report + warningCount report <= totalLogEntries report)%nat /\
  match records, dateRange report with
  | [], (None, None) =>
      totalIterations report = 0%nat /\ totalLogEntries report = 0%nat
  | _ :: _, (Some earliest, Some latest) =>
      Forall (fun r => earliest <= createdAt r <= latest) records /\
      (1 <= totalIterations report <= totalCalls report)%nat
  | _, _ => False
  end.
Proof.
  destruct records as [|first others]; [done|].
  cbn [analyzeIterations errorCount warningCount totalLogEntries dateRange
       totalIterations totalCalls].
  split; [by apply countLevel_logs|]. split.
  - destruct (minOf_le (createdAt first) (createdAt <$> others)) as [Hm1 Hm2].
    destruct (maxOf_ge (createdAt first) (createdAt <$> others)) as [HM1 HM2].
    constructor; [done|]. rewrite Forall_fmap in Hm2, HM2.
    apply Forall_forall. intros r Hr.
    rewrite Forall_forall in Hm2, HM2. specialize (Hm2 r Hr). specialize (HM2 r Hr).
    done.
  - destruct (remove_dups_length (iterationId <$> first :: others)) as [Hle Hne].
    rewrite length_fmap in Hle. case_bool_decide as Hz.
    + destruct Hne; [done|]. by apply length_zero_iff_nil.
    + cbn [length] in *. lia.
Qed.

End Analysis.

(** Some of the properties of [Object.prototype], for the examples. *)
Definition objectPrototype (key : str) : option str :=
  if bool_decide (key = lit "constructor")
  then Some (lit "function Object() { [native code] }")
  else if bool_decide (key = lit "toString")
  then Some (lit "function toString() { [native code] }")
  else if bool_decide (key = protoKey) then Some (lit "[object Object]")
  else None.

Definition sampleRecord (p : string) (reads writes input : Z) : GeneratedRecord :=
  {| phase := lit p; modelId := lit "claude-sonnet-4-6"; stopReason := lit "end_turn";
     iterationId := lit "it-1"; createdAt := 1000; cost := 1 # 100;
     inputTokens := input; outputTokens := 10; cacheReadTokens := reads;
     cacheWrite5mTokens := writes; cacheWrite1hTokens := 0 |}.

Definition sampleRecords : list GeneratedRecord :=
  [ sampleRecord "planner" 0 100 50; sampleRecord "builder" 100 0 20;
    sampleRecord "planner" 100 0 5 ].

Lemma analyze_hit_rates_witness :
  let report := analyzeIterations objectPrototype sampleRecords [] in
  (0 <= overallHitRate report <= 1)%Q /\
  map_Forall (fun _ stats => (0 <= cacheHitRate stats <= 1)%Q) (byPhase report).
Proof.
  apply (analyze_hit_rates objectPrototype sampleRecords []).
  repeat constructor; cbn; lia.
Defined.

(** One record with 1000 input tokens, 150 cache writes and 200 cache
    reads: the hit rate is 200 / 1350. *)
Example cache_efficiency :
  let report :=
    analyzeIterations objectPrototype
      [ {| phase := lit "planner"; modelId := lit "claude-haiku-4-5";
           stopReason := lit "end_turn"; iterationId := lit "iter-1";
           createdAt := 1000; cost := 1 # 100;
           inputTokens := 1000; outputTokens := 500; cacheReadTokens := 200;
           cacheWrite5mTokens := 100; cacheWrite1hTokens := 50 |} ] [] in
  totalCacheReads report = 200 /\ totalCacheWrites report = 150 /\
  (overallHitRate report == 200 # 1350)%Q /\ totalIterations report = 1%nat.
Proof. repeat split. Qed.

Lemma analyze_totals_partition_witness :
  let report := analyzeIterations objectPrototype sampleRecords [] in
  totalCalls report = length sampleRecords /\
  mapSum (fun s => Z.of_nat (count s)) (byPhase report) = Z.of_nat (totalCalls report) /\
  mapSum readTokens (byPhase report) = totalCacheReads report /\
  mapSum cacheWriteTokens (byPhase report) = totalCacheWrites report /\
  (map_Forall (fun _ => isCount) (modelUsage report) /\
   mapSum tallyCount (modelUsage report) = Z.of_nat (totalCalls report)) /\
  (map_Forall (fun _ => isCount) (stopReasons report) /\
   mapSum tallyCount (stopReasons report) = Z.of_nat (totalCalls report)).
Proof.
  apply (analyze_totals_partition objectPrototype sampleRecords []).
  repeat constructor; vm_compute; congruence.
Defined.

(** A record whose phase is [__proto__] is counted as a call and has no
    entry among the phases; a model called [constructor] is tallied as a
    string. *)
Example proto_phase_has_no_entry :
  let report :=
    analyzeIterations objectPrototype
      [ {| phase := protoKey; modelId := lit "constructor";
           stopReason := lit "end_turn"; iterationId := lit "iter-1";
           createdAt := 1000; cost := 1 # 100;
           inputTokens := 1000; outputTokens := 500; cacheReadTokens := 200;
           cacheWrite5mTokens := 100; cacheWrite1hTokens := 50 |} ] [] in
  totalCalls report = 1%nat /\ byPhase report = ∅ /\
  modelUsage report
  = {[ lit "constructor" := Text (lit "function Object() { [native code] }1") ]} /\
  stopReasons report = {[ lit "end_turn" := Count 1 ]}.
Proof. repeat split; vm_compute; reflexivity. Qed.

End Analyze.

(** ** More of recall (src/agents/memory.ts) *)

Module RecallMore.

Import Memory Recall.

Section NoMatch.

Variable canonicalize : N -> N.






End NoMatch.


End RecallMore.
